(** * Transcript-Merger: the SRT merge engine (utils/srt-merge.ts)

    A shallow embedding of the two merge paths of the repository and of the
    permissive block parser they share.  The functions are those of the
    revision of srt-merge.ts that defines [mergeParsedFilesSequential]
    (387 lines; the line numbers below are its own):

    - [mergeParsedFilesSequential] (l. 68-175), the structured merger over
      typed cues;
    - [permissiveParseSrt] (l. 178-263), the line-oriented block parser, and,
      in [Module Legacy], the older copy of it kept under
      src/utils/srt-merge.ts, where a blank line ends the block;
    - [mergeSrtFiles] (l. 266-386), the raw-text merger, over the three
      functions it imports from './timestamp-arith'.

    Conventions.  A JavaScript number is a [number]: a double whose value
    is an integer (a count of milliseconds, an index), or one of the three
    non-finite values; both zeros are [Num 0].  Sums and differences are
    rounded as the doubles of the code are: to the nearest double, ties to
    the even significand, and to an infinity from 2^1024 on.  A per-file
    offset is any [number].  The times of the raw-text merger are the
    integers of milliseconds that the functions of './timestamp-arith'
    read from a time-code line, added as integers.  A string is a sequence
    of code units below
    256; [trim] and the regular expression class \s take the white space
    characters of that range.  Arrays are lists, [push] appends at the end,
    and a loop is a fold that threads the variables it assigns. *)

From Stdlib Require Import ZArith Lia Permutation Ascii.
From stdpp Require Import base option list gmap strings pretty sorting.

Local Open Scope Z_scope.

(** ** Numbers *)

Inductive number : Type :=
  | Num (z : Z)
  | NaN
  | PosInf
  | NegInf.

#[global] Instance number_eq_dec : EqDecision number.
Proof. solve_decision. Defined.

(** [Number.isFinite] *)
Definition isFinite (x : number) : bool :=
  match x with Num _ => true | _ => false end.

(** The spacing of the doubles around the integer [z ≥ 0]: 1 below 2^53,
    and 2^(e-52) from 2^e to 2^(e+1). *)
Definition ulp (z : Z) : Z := 2 ^ Z.max 0 (Z.log2 z - 52).

(** The multiple of [u] nearest to [z ≥ 0]; of two that are as near, the
    even multiple. *)
Definition nearest (u z : Z) : Z :=
  let q := z / u in
  let r := z mod u in
  if 2 * r <? u then q * u
  else if u <? 2 * r then (q + 1) * u
  else if Z.even q then q * u else (q + 1) * u.

Definition roundMagnitude (z : Z) : Z := nearest (ulp z) z.

(** The number that an exact integer result becomes: the nearest double,
    or an infinity when that is 2^1024 or more in magnitude. *)
Definition toNumber (z : Z) : number :=
  let m := roundMagnitude (Z.abs z) in
  if 2 ^ 1024 <=? m then (if 0 <? z then PosInf else NegInf)
  else Num (Z.sgn z * m).

#[global] Arguments toNumber : simpl never.

(** A finite number of the model is a value of the code when the integer it
    holds is a double. *)
Definition isDouble (x : number) : Prop :=
  match x with Num z => toNumber z = Num z | _ => True end.

(** [x + y] *)
Definition nadd (x y : number) : number :=
  match x, y with
  | Num a, Num b => toNumber (a + b)
  | NaN, _ | _, NaN => NaN
  | PosInf, NegInf | NegInf, PosInf => NaN
  | PosInf, _ | _, PosInf => PosInf
  | NegInf, _ | _, NegInf => NegInf
  end.

(** [x - y] *)
Definition nsub (x y : number) : number :=
  match x, y with
  | Num a, Num b => toNumber (a - b)
  | NaN, _ | _, NaN => NaN
  | PosInf, PosInf | NegInf, NegInf => NaN
  | PosInf, _ | _, NegInf => PosInf
  | NegInf, _ | _, PosInf => NegInf
  end.

(** [x < y]; every comparison with NaN is false. *)
Definition nltb (x y : number) : bool :=
  match x, y with
  | Num a, Num b => a <? b
  | NaN, _ | _, NaN => false
  | NegInf, NegInf | PosInf, _ | _, NegInf => false
  | NegInf, _ | _, PosInf => true
  end.

(** [x > y] *)
Definition ngtb (x y : number) : bool := nltb y x.

(** [x <= y] *)
Definition nleb (x y : number) : bool :=
  match x, y with
  | Num a, Num b => a <=? b
  | NaN, _ | _, NaN => false
  | NegInf, _ | _, PosInf => true
  | _, _ => false
  end.

(** [x || 0] on a number: 0 and NaN are the numbers that count as false. *)
Definition orZero (x : number) : number :=
  match x with
  | Num 0 | NaN => Num 0
  | _ => x
  end.

(** [Math.max(0, x)] *)
Definition mathMaxZero (x : number) : number :=
  match x with
  | Num d => Num (Z.max 0 d)
  | NaN => NaN
  | PosInf => PosInf
  | NegInf => Num 0
  end.

(** ** Data model of the structured merger *)

Record Cue : Type := mkCue {
  startMs : number;
  endMs : number;
  text : string;
  sourceFileIndex : option nat
}.

Record ParsedFile : Type := mkParsedFile {
  filename : option string;
  cues : list Cue
}.

Record MergeOptions : Type := mkMergeOptions {
  perFileOffsetMs : option (gmap nat number);
  useEffectiveEndMs : option bool;
  sortFinalByStart : option bool
}.

Record SequentialMergeResult : Type := mkSequentialMergeResult {
  mergedCues : list Cue;
  warnings : list string;
  errors : list string
}.

(** The default value [{}] of the [options] parameter. *)
Definition noOptions : MergeOptions :=
  {| perFileOffsetMs := None; useEffectiveEndMs := None; sortFinalByStart := None |}.

(** ** mergeParsedFilesSequential *)

Module Sequential.

(** [cues.map(c => Number.isFinite(c.endMs) ? c.endMs : null).filter(x => x !== null)] *)
Definition finiteOf (x : number) : option Z :=
  match x with Num z => Some z | _ => None end.

Definition finiteEnds (cs : list Cue) : list Z := omap (λ c, finiteOf (endMs c)) cs.
Definition finiteStarts (cs : list Cue) : list Z := omap (λ c, finiteOf (startMs c)) cs.

(** [Math.max(...xs)] and [Math.min(...xs)] on a list with head [x]. *)
Definition mathMax (x : Z) (xs : list Z) : Z := fold_left Z.max xs x.
Definition mathMin (x : Z) (xs : list Z) : Z := fold_left Z.min xs x.

(** One entry of the array [baseEndMs] (l. 81-89): [None] is the source's
    [null]. *)
Definition baseEndMs (pf : ParsedFile) : option Z :=
  match finiteEnds (cues pf) with
  | [] => None
  | e :: es => Some (mathMax e es)
  end.

(** The body of the first loop after [cumulativeShift[i] = runningShift]
    (l. 102-124): the new value of [runningShift]. *)
Definition advance (offsets : gmap nat number) (i : nat) (pf : ParsedFile)
    (runningShift : number) : number :=
  match offsets !! i with
  | Some o => nadd runningShift o
  | None =>
      match baseEndMs pf with
      | Some b => nadd runningShift (Num b)
      | None =>
          match finiteStarts (cues pf), finiteEnds (cues pf) with
          | s :: ss, e :: es =>
              let dur := nsub (Num (mathMax e es)) (Num (mathMin s ss)) in
              nadd runningShift (mathMaxZero dur)
          | _, _ => runningShift
          end
      end
  end.

(** The first loop (l. 95-125), from index [i] on, over the remaining
    files: the entries of [cumulativeShift] from [i] on. *)
Fixpoint shiftLoop (offsets : gmap nat number) (i : nat) (files : list ParsedFile)
    (runningShift : number) : list number :=
  match files with
  | [] => []
  | pf :: rest =>
      runningShift :: shiftLoop offsets (S i) rest (advance offsets i pf runningShift)
  end.

Definition cumulativeShift (offsets : gmap nat number) (files : list ParsedFile)
    : list number :=
  shiftLoop offsets 0%nat files (Num 0).

(** [cumulativeShift[i] || 0] *)
Definition shiftAt (shifts : list number) (i : nat) : number :=
  match shifts !! i with
  | Some s => orZero s
  | None => Num 0
  end.

Definition noCuesWarning (i : nat) : string := "file_" +:+ pretty i +:+ "_no_cues".
Definition malformedWarning (i : nat) : string := "file_" +:+ pretty i +:+ "_malformed_cue".

(** The body of the inner loop of the second loop (l. 141-152); the state
    is [(merged, warnings)]. *)
Definition applyCue (i : nat) (shift : number) (st : list Cue * list string) (cue : Cue)
    : list Cue * list string :=
  if negb (isFinite (startMs cue)) || negb (isFinite (endMs cue))
  then (st.1, st.2 ++ [malformedWarning i])
  else (st.1 ++ [ {| startMs := nadd (startMs cue) shift;
                     endMs := nadd (endMs cue) shift;
                     text := text cue;
                     sourceFileIndex := Some i |} ], st.2).

(** The second loop (l. 132-153), from index [i] on. *)
Fixpoint applyLoop (shifts : list number) (i : nat) (files : list ParsedFile)
    (st : list Cue * list string) : list Cue * list string :=
  match files with
  | [] => st
  | pf :: rest =>
      let shift := shiftAt shifts i in
      match cues pf with
      | [] => applyLoop shifts (S i) rest (st.1, st.2 ++ [noCuesWarning i])
      | _ => applyLoop shifts (S i) rest (fold_left (applyCue i shift) (cues pf) st)
      end
  end.

(** [merged.sort((a, b) => a.startMs - b.startMs)] (l. 156).  ECMAScript requires the
    sort to be stable; with a comparator that is a consistent order the
    result is the one stable ordering, computed here by insertion: [a] goes
    after [b] exactly when the comparator is positive (a comparator value
    NaN, of two infinite starts of the same sign, counts as 0). *)
Definition compareFn (a b : Cue) : number := nsub (startMs a) (startMs b).

Fixpoint sortInsert (x : Cue) (l : list Cue) : list Cue :=
  match l with
  | [] => [x]
  | y :: l' => if ngtb (compareFn x y) (Num 0) then y :: sortInsert x l' else x :: l
  end.

Definition sort (l : list Cue) : list Cue := foldr sortInsert [] l.

(** The validation loop (l. 159-172).  [prev] is [merged[i - 1]] ([None]
    when [i = 0]); the state is [(warnings, errors)]; the first branch is the
    [break]. *)
Fixpoint validateLoop (prev : option Cue) (l : list Cue)
    (st : list string * list string) : list string * list string :=
  match l with
  | [] => st
  | c :: rest =>
      if nltb (startMs c) (Num 0) || nltb (endMs c) (Num 0)
      then (st.1, st.2 ++ ["negative_timestamps"])
      else
        let w1 := if nltb (endMs c) (startMs c)
                  then st.1 ++ ["cue_end_before_start"] else st.1 in
        let w2 := match prev with
                  | Some p =>
                      if ngtb (endMs p) (startMs c)
                         && bool_decide (sourceFileIndex p = sourceFileIndex c)
                      then w1 ++ ["overlap_detected"] else w1
                  | None => w1
                  end in
        validateLoop (Some c) rest (w2, st.2)
  end.

Definition mergeParsedFilesSequential (parsedFiles : list ParsedFile)
    (options : MergeOptions) : SequentialMergeResult :=
  let offsets := default ∅ (perFileOffsetMs options) in
  let sortFinal := default false (sortFinalByStart options) in
  match parsedFiles with
  | [] => {| mergedCues := []; warnings := ["no_files"]; errors := ["no_files_uploaded"] |}
  | _ =>
      let shifts := cumulativeShift offsets parsedFiles in
      let applied := applyLoop shifts 0%nat parsedFiles ([], []) in
      let merged := if sortFinal then sort applied.1 else applied.1 in
      let checked := validateLoop None merged (applied.2, []) in
      {| mergedCues := merged; warnings := checked.1; errors := checked.2 |}
  end.

End Sequential.

(** ** String primitives used by the parser and the raw-text merger *)

Module Str.

(** White space of [String.prototype.trim] and of the class \s among the
    code units below 256: U+0009 to U+000D, the space and the no-break
    space U+00A0. *)
Definition isSpace (c : ascii) : bool :=
  let n := nat_of_ascii c in
  ((9 <=? n)%nat && (n <=? 13)%nat) || (n =? 32)%nat || (n =? 160)%nat.

(** The class \d *)
Definition isDigit (c : ascii) : bool :=
  let n := nat_of_ascii c in (48 <=? n)%nat && (n <=? 57)%nat.

Fixpoint trimStart (s : string) : string :=
  match s with
  | String c s' => if isSpace c then trimStart s' else s
  | EmptyString => EmptyString
  end.

Definition trimEnd (s : string) : string := String.rev (trimStart (String.rev s)).

(** [s.trim()] *)
Definition trim (s : string) : string := trimEnd (trimStart s).

Fixpoint allDigits (s : string) : bool :=
  match s with
  | String c s' => isDigit c && allDigits s'
  | EmptyString => true
  end.

(** [/^\d+$/.test(s)] *)
Definition isDigits (s : string) : bool :=
  match s with
  | EmptyString => false
  | _ => allDigits s
  end.

(** [parseInt(s, 10)] on a string of digits: the double nearest to the
    integer that the digits denote (an engine is allowed to read the digits
    after the twentieth as 0; the model reads them all). *)
Definition digitValue (c : ascii) : Z := Z.of_nat (nat_of_ascii c) - 48.

Fixpoint parseDigits (acc : Z) (s : string) : Z :=
  match s with
  | String c s' => parseDigits (10 * acc + digitValue c) s'
  | EmptyString => acc
  end.

Definition parseInt (s : string) : number := toNumber (parseDigits 0 s).

(** [s.includes(p)] *)
Fixpoint includes (p s : string) : bool :=
  String.prefix p s ||
  match s with
  | String _ s' => includes p s'
  | EmptyString => false
  end.

(** A match of [\d{1,2}:\d{2}:\d{2}] that starts at the head of [s]. *)
Definition timeTail (s : string) : bool :=
  match s with
  | String c0 (String d1 (String d2 (String c1 (String d3 (String d4 _))))) =>
      bool_decide (c0 = ":"%char) && isDigit d1 && isDigit d2
      && bool_decide (c1 = ":"%char) && isDigit d3 && isDigit d4
  | _ => false
  end.

Definition timeAtHead (s : string) : bool :=
  match s with
  | String d s1 =>
      isDigit d &&
      (timeTail s1 ||
       match s1 with
       | String d' s2 => isDigit d' && timeTail s2
       | EmptyString => false
       end)
  | EmptyString => false
  end.

(** [/\d{1,2}:\d{2}:\d{2}/.test(s)] *)
Fixpoint hasTime (s : string) : bool :=
  timeAtHead s ||
  match s with
  | String _ s' => hasTime s'
  | EmptyString => false
  end.

(** Puts [c] in front of the first piece of a split. *)
Definition consHead (c : ascii) (pieces : list string) : list string :=
  match pieces with
  | p :: ps => String c p :: ps
  | [] => [String c EmptyString]
  end.

(** [s.split(/\r?\n/)] *)
Fixpoint splitLines (s : string) : list string :=
  match s with
  | EmptyString => [EmptyString]
  | String c rest =>
      if bool_decide (c = "010"%char) then EmptyString :: splitLines rest
      else
        match rest with
        | String c' rest' =>
            if bool_decide (c = "013"%char) && bool_decide (c' = "010"%char)
            then EmptyString :: splitLines rest'
            else consHead c (splitLines rest)
        | EmptyString => consHead c (splitLines rest)
        end
  end.

(** [s.split('-->')] *)
Fixpoint splitArrow (s : string) : list string :=
  match s with
  | EmptyString => [EmptyString]
  | String c1 rest =>
      match rest with
      | String c2 (String c3 rest') =>
          if bool_decide (c1 = "-"%char) && bool_decide (c2 = "-"%char)
             && bool_decide (c3 = ">"%char)
          then EmptyString :: splitArrow rest'
          else consHead c1 (splitArrow rest)
      | _ => consHead c1 (splitArrow rest)
      end
  end.

(** [s.replace(/\s+/g, ' ')]: [inRun] tells that the previous character was
    white space, already replaced. *)
Fixpoint collapseSpaces (inRun : bool) (s : string) : string :=
  match s with
  | EmptyString => EmptyString
  | String c s' =>
      if isSpace c
      then if inRun then collapseSpaces true s' else String " " (collapseSpaces true s')
      else String c (collapseSpaces false s')
  end.

Definition newline : string := String "010"%char EmptyString.

(** [xs.join(sep)] *)
Definition join (sep : string) (xs : list string) : string := String.concat sep xs.

End Str.

(** ** The permissive block parser *)

Record SrtBlock : Type := mkSrtBlock {
  origIndex : option number;
  tsRaw : string;
  texts : list string
}.

#[global] Instance SrtBlock_eq_dec : EqDecision SrtBlock.
Proof. solve_decision. Defined.

(** [{ ...b, texts: ts }], the effect of [currentBlock.texts = textLines]. *)
Definition withTexts (b : SrtBlock) (ts : list string) : SrtBlock :=
  {| origIndex := origIndex b; tsRaw := tsRaw b; texts := ts |}.

Definition withTsRaw (b : SrtBlock) (ts : string) : SrtBlock :=
  {| origIndex := origIndex b; tsRaw := ts; texts := texts b |}.

(** [line.includes('-->') || /\d{1,2}:\d{2}:\d{2}/.test(line)] *)
Definition looksLikeTimestamp (line : string) : bool :=
  Str.includes "-->" line || Str.hasTime line.

(** The variables of the parsing loop. *)
Record ParserState : Type := mkParserState {
  blocks : list SrtBlock;
  currentBlock : option SrtBlock;
  textLines : list string;
  expectingIndex : bool;
  expectingTimestamp : bool;
  isReadingText : bool
}.

Definition initialParserState : ParserState :=
  {| blocks := []; currentBlock := None; textLines := [];
     expectingIndex := true; expectingTimestamp := false; isReadingText := false |}.

(** One iteration of the loop (l. 188-254) on the raw line [lines[i]]. *)
Definition parseLine (st : ParserState) (raw : string) : ParserState :=
  let line := Str.trim raw in
  if Str.isDigits line then
    let flush :=
      match currentBlock st with
      | Some cb =>
          negb (bool_decide (tsRaw cb = EmptyString)) || negb (bool_decide (textLines st = []))
      | None => false
      end in
    {| blocks := match currentBlock st with
                 | Some cb => if flush then blocks st ++ [withTexts cb (textLines st)]
                              else blocks st
                 | None => blocks st
                 end;
       currentBlock := Some {| origIndex := Some (Str.parseInt line); tsRaw := EmptyString; texts := [] |};
       textLines := if flush then [] else textLines st;
       expectingIndex := false;
       expectingTimestamp := true;
       isReadingText := false |}
  else if expectingTimestamp st && looksLikeTimestamp line then
    match currentBlock st with
    | Some cb =>
        {| blocks := blocks st;
           currentBlock := Some (withTsRaw cb line);
           textLines := textLines st;
           expectingIndex := expectingIndex st;
           expectingTimestamp := false;
           isReadingText := true |}
    | None => st
    end
  else
    match currentBlock st with
    | Some cb =>
        if isReadingText st then
          {| blocks := blocks st;
             currentBlock := currentBlock st;
             textLines := if bool_decide (line = EmptyString) then textLines st ++ [EmptyString]
                          else textLines st ++ [line];
             expectingIndex := expectingIndex st;
             expectingTimestamp := expectingTimestamp st;
             isReadingText := isReadingText st |}
        else if negb (expectingTimestamp st) then
          {| blocks := blocks st;
             currentBlock := currentBlock st;
             textLines := if bool_decide (line = EmptyString) then textLines st ++ [EmptyString]
                          else textLines st ++ [line];
             expectingIndex := expectingIndex st;
             expectingTimestamp := expectingTimestamp st;
             isReadingText := true |}
        else st
    | None =>
        if negb (expectingIndex st) then
          {| blocks := blocks st;
             currentBlock := Some {| origIndex := None; tsRaw := EmptyString; texts := [line] |};
             textLines := textLines st;
             expectingIndex := expectingIndex st;
             expectingTimestamp := expectingTimestamp st;
             isReadingText := true |}
        else st
    end.

(** The code after the loop (l. 257-260): the open block is flushed. *)
Definition finishParse (st : ParserState) : list SrtBlock :=
  match currentBlock st with
  | Some cb => blocks st ++ [withTexts cb (textLines st)]
  | None => blocks st
  end.

(** The state of the loop after the lines [lines]. *)
Definition parseLines (lines : list string) : ParserState :=
  fold_left parseLine lines initialParserState.

Definition permissiveParseSrt (content : string) : list SrtBlock :=
  finishParse (parseLines (Str.splitLines content)).

(** The older copy of the parser under src/utils/srt-merge.ts: an empty line
    ends the open block, and an index is recognised only when one is
    expected. *)
Module Legacy.

Record ParserState : Type := mkParserState {
  blocks : list SrtBlock;
  currentBlock : option SrtBlock;
  textLines : list string;
  expectingIndex : bool;
  expectingTimestamp : bool
}.

Definition initialParserState : ParserState :=
  {| blocks := []; currentBlock := None; textLines := [];
     expectingIndex := true; expectingTimestamp := false |}.

Definition parseLine (st : ParserState) (raw : string) : ParserState :=
  let line := Str.trim raw in
  if bool_decide (line = EmptyString) then
    match currentBlock st with
    | Some cb =>
        {| blocks := blocks st ++ [withTexts cb (textLines st)];
           currentBlock := None;
           textLines := [];
           expectingIndex := true;
           expectingTimestamp := false |}
    | None => st
    end
  else if expectingIndex st && Str.isDigits line then
    {| blocks := blocks st;
       currentBlock := Some {| origIndex := Some (Str.parseInt line); tsRaw := EmptyString; texts := [] |};
       textLines := textLines st;
       expectingIndex := false;
       expectingTimestamp := true |}
  else if expectingTimestamp st && looksLikeTimestamp line then
    match currentBlock st with
    | Some cb =>
        {| blocks := blocks st;
           currentBlock := Some (withTsRaw cb line);
           textLines := textLines st;
           expectingIndex := expectingIndex st;
           expectingTimestamp := false |}
    | None => st
    end
  else
    match currentBlock st with
    | Some cb =>
        {| blocks := blocks st;
           currentBlock := currentBlock st;
           textLines := textLines st ++ [line];
           expectingIndex := expectingIndex st;
           expectingTimestamp := expectingTimestamp st |}
    | None =>
        if negb (expectingIndex st) then
          {| blocks := blocks st;
             currentBlock := Some {| origIndex := None; tsRaw := EmptyString; texts := [line] |};
             textLines := textLines st;
             expectingIndex := expectingIndex st;
             expectingTimestamp := expectingTimestamp st |}
        else st
    end.

Definition finishParse (st : ParserState) : list SrtBlock :=
  match currentBlock st with
  | Some cb => blocks st ++ [withTexts cb (textLines st)]
  | None => blocks st
  end.

Definition permissiveParseSrt (content : string) : list SrtBlock :=
  finishParse (fold_left parseLine (Str.splitLines content) initialParserState).

End Legacy.

(** ** The raw-text merger *)

Inductive Action : Type := normal | normalized | fallback.

#[global] Instance Action_eq_dec : EqDecision Action.
Proof. solve_decision. Defined.

Record MergeDiagnostic : Type := mkMergeDiagnostic {
  src_file : string;
  original_index : option number;
  original_timestamp_line : string;
  final_index : nat;
  final_timestamp : string;
  action : Action;
  reason : option string
}.

(** An element of the local array [mergedBlocks]. *)
Record MergedBlock : Type := mkMergedBlock {
  index : nat;
  timestamp : string;
  blockTexts : list string
}.

Record MergeStats : Type := mkMergeStats {
  totalInputCues : nat;
  totalOutputCues : nat;
  parseIssuesCount : nat;
  filesProcessed : nat
}.

Record MergeResult : Type := mkMergeResult {
  mergedSrt : string;
  diagnostics : list MergeDiagnostic;
  stats : MergeStats
}.

Record SrtFile : Type := mkSrtFile {
  name : string;
  content : string
}.

(** The variables that [mergeSrtFiles] assigns across files and blocks. *)
Record MergeState : Type := mkMergeState {
  cumulativeMs : Z;
  globalIndex : nat;
  lastMergedEndMs : option Z;
  inputCues : nat;
  parseIssues : nat;
  diags : list MergeDiagnostic;
  mergedBlocks : list MergedBlock
}.

Definition initialMergeState : MergeState :=
  {| cumulativeMs := 0; globalIndex := 1%nat; lastMergedEndMs := None;
     inputCues := 0%nat; parseIssues := 0%nat; diags := []; mergedBlocks := [] |}.

(** A string used as a condition: [null], [undefined] and [''] are falsy. *)
Definition truthy (s : option string) : option string :=
  match s with
  | Some EmptyString => None
  | other => other
  end.

(** [ts.split('-->')[1]?.trim()] *)
Definition endTokenOf (ts : string) : option string :=
  Str.trim <$> (Str.splitArrow ts !! 1%nat).

(** [s.replace(/\s+/g, ' ').trim()] *)
Definition normalizeSpaces (s : string) : string :=
  Str.trim (Str.collapseSpaces false s).

(** [b.texts.length > 0 ? b.texts : ['[No text]']] *)
Definition emittedTexts (b : SrtBlock) : list string :=
  match texts b with
  | [] => ["[No text]"]
  | _ => texts b
  end.

(** The number of diagnostics whose action is [fallback]. *)
Definition fallbackCount (ds : list MergeDiagnostic) : nat :=
  length (filter (λ d, action d = fallback) ds).

Section RawTextMerger.

(** The three functions imported from './timestamp-arith', which is not part
    of the sources at hand; [None] is their [null]. *)
Variable parseTimestampToMs : string → option Z.
Variable shiftTimestampLine : string → Z → option string.
Variable makeFallbackTimestamp : Z → Z → Z → string.

(** The end time read back from a time-code line, when there is one. *)
Definition endMsOf (ts : string) : option Z :=
  match truthy (endTokenOf ts) with
  | Some tok => parseTimestampToMs tok
  | None => None
  end.

(** The body of the loop over the blocks of one file (l. 287-364); [cur]
    is [currentFileLastEndMs]. *)
Definition processBlock (fileName : string) (acc : MergeState * Z) (b : SrtBlock)
    : MergeState * Z :=
  let st := acc.1 in
  let cur := acc.2 in
  let shiftedLine := shiftTimestampLine (tsRaw b) (cumulativeMs st) in
  let '(finalTs, act, why, issues, cur') :=
    match truthy shiftedLine with
    | Some shifted =>
        let act := if bool_decide (normalizeSpaces shifted ≠ normalizeSpaces (tsRaw b))
                   then normalized else normal in
        let cur' :=
          match truthy (shiftTimestampLine (tsRaw b) 0) with
          | Some unshifted =>
              match endMsOf unshifted with
              | Some e => if cur <? e then e else cur
              | None => cur
              end
          | None => cur
          end in
        (shifted, act, None, parseIssues st, cur')
    | None =>
        let prevEnd := default 0 (lastMergedEndMs st) in
        let finalTs := makeFallbackTimestamp prevEnd (cumulativeMs st) 200 in
        let cur' :=
          match endMsOf finalTs with
          | Some e => let inFile := e - cumulativeMs st in
                      if cur <? inFile then inFile else cur
          | None => cur
          end in
        (finalTs, fallback, Some "Unparseable timestamp line", S (parseIssues st), cur')
    end in
  let lastEnd :=
    match endMsOf finalTs with
    | Some e => Some e
    | None => lastMergedEndMs st
    end in
  let diags' :=
    if bool_decide (act ≠ normal)
    then diags st ++ [ {| src_file := fileName;
                          original_index := origIndex b;
                          original_timestamp_line := tsRaw b;
                          final_index := globalIndex st;
                          final_timestamp := finalTs;
                          action := act;
                          reason := why |} ]
    else diags st in
  ({| cumulativeMs := cumulativeMs st;
      globalIndex := S (globalIndex st);
      lastMergedEndMs := lastEnd;
      inputCues := inputCues st;
      parseIssues := issues;
      diags := diags';
      mergedBlocks := mergedBlocks st ++ [ {| index := globalIndex st;
                                              timestamp := finalTs;
                                              blockTexts := emittedTexts b |} ] |},
   cur').

(** The body of the loop over the files (l. 276-369). *)
Definition processFile (st : MergeState) (file : SrtFile) : MergeState :=
  let parsed := permissiveParseSrt (content file) in
  let st0 :=
    {| cumulativeMs := cumulativeMs st;
       globalIndex := globalIndex st;
       lastMergedEndMs := lastMergedEndMs st;
       inputCues := (inputCues st + length parsed)%nat;
       parseIssues := parseIssues st;
       diags := diags st;
       mergedBlocks := mergedBlocks st |} in
  let '(st1, currentFileLastEndMs) := fold_left (processBlock (name file)) parsed (st0, 0) in
  {| cumulativeMs := cumulativeMs st1 + currentFileLastEndMs;
     globalIndex := globalIndex st1;
     lastMergedEndMs := lastMergedEndMs st1;
     inputCues := inputCues st1;
     parseIssues := parseIssues st1;
     diags := diags st1;
     mergedBlocks := mergedBlocks st1 |}.

(** The state after the loop over the files. *)
Definition mergeLoop (files : list SrtFile) : MergeState :=
  fold_left processFile files initialMergeState.

(** [`${block.index}\n${block.timestamp}\n${block.texts.join('\n')}\n`] *)
Definition renderBlock (b : MergedBlock) : string :=
  pretty (index b) +:+ Str.newline +:+ timestamp b +:+ Str.newline
  +:+ Str.join Str.newline (blockTexts b) +:+ Str.newline.

Definition mergeSrtFiles (files : list SrtFile) : MergeResult :=
  let st := mergeLoop files in
  {| mergedSrt := Str.join Str.newline (renderBlock <$> mergedBlocks st);
     diagnostics := diags st;
     stats := {| totalInputCues := inputCues st;
                 totalOutputCues := length (mergedBlocks st);
                 parseIssuesCount := parseIssues st;
                 filesProcessed := length files |} |}.

(** The time-code line of an emitted block: a shifted line or a synthesized
    one. *)
Definition shiftedOrFallback (mb : MergedBlock) : Prop :=
  (∃ raw offset, shiftTimestampLine raw offset = Some (timestamp mb))
  ∨ (∃ prevEnd offset, timestamp mb = makeFallbackTimestamp prevEnd offset 200).

End RawTextMerger.

(** ** Vocabulary of the specification *)

Module SeqSpec.

(** The greatest and the least element of a list, when it has one. *)
Definition maximum (l : list Z) : option Z :=
  match l with
  | [] => None
  | x :: xs => Some (foldr Z.max x xs)
  end.

Definition minimum (l : list Z) : option Z :=
  match l with
  | [] => None
  | x :: xs => Some (foldr Z.min x xs)
  end.

(** The finite end times and the finite start times of a file. *)
Definition finiteEndsOf (pf : ParsedFile) : list Z :=
  omap (λ c, match endMs c with Num z => Some z | _ => None end) (cues pf).

Definition finiteStartsOf (pf : ParsedFile) : list Z :=
  omap (λ c, match startMs c with Num z => Some z | _ => None end) (cues pf).

(** The chosen duration of file [j]: the override if present, else the
    maximum finite end, else the derived span, else 0. *)
Definition chosenDuration (offsets : gmap nat number) (j : nat) (pf : ParsedFile)
    : number :=
  match offsets !! j with
  | Some o => o
  | None =>
      match maximum (finiteEndsOf pf) with
      | Some e => Num e
      | None =>
          match maximum (finiteEndsOf pf), minimum (finiteStartsOf pf) with
          | Some e, Some s => mathMaxZero (nsub (Num e) (Num s))
          | _, _ => Num 0
          end
      end
  end.

(** The sum of a list of integers. *)
Definition sumZ (l : list Z) : Z := foldr Z.add 0 l.

(** The sum that the code computes: the numbers added to 0 one after the
    other, each result rounded as a double is. *)
Definition runningSum (l : list number) : number := fold_left nadd l (Num 0).

(** The chosen durations of files [0..i-1] added up in order, as the code
    adds them. *)
Definition precedingDuration (offsets : gmap nat number) (files : list ParsedFile)
    (i : nat) : number :=
  runningSum (take i (imap (chosenDuration offsets) files)).

(** The shift applied to the cues of file [i]: a total that is NaN counts
    as 0. *)
Definition appliedShift (offsets : gmap nat number) (files : list ParsedFile)
    (i : nat) : number :=
  orZero (precedingDuration offsets files i).

(** An integer of the range in which every integer is a double, so that a
    sum that stays in it is exact. *)
Definition safeInteger (z : Z) : Prop := Z.abs z ≤ 2 ^ 53.

(** A cue of file [i] moved by [shift]; a cue with a non-finite time is not
    emitted. *)
Definition shifted (i : nat) (shift : number) (c : Cue) : option Cue :=
  match startMs c, endMs c with
  | Num s, Num e =>
      Some {| startMs := nadd (Num s) shift; endMs := nadd (Num e) shift;
              text := text c; sourceFileIndex := Some i |}
  | _, _ => None
  end.

Definition emittedCues (i : nat) (shift : number) (pf : ParsedFile) : list Cue :=
  omap (shifted i shift) (cues pf).

(** The output in file order and, within a file, in input cue order. *)
Definition flatOutput (offsets : gmap nat number) (files : list ParsedFile) : list Cue :=
  concat (imap (λ i pf, emittedCues i (appliedShift offsets files i) pf) files).

Definition fromFile (i : nat) (c : Cue) : Prop := sourceFileIndex c = Some i.

#[global] Instance fromFile_dec i c : Decision (fromFile i c).
Proof. unfold fromFile. apply _. Defined.

(** [a] starts no later than [b]: [a.startMs <= b.startMs]. *)
Definition startLe (a b : Cue) : Prop := nleb (startMs a) (startMs b) = true.

Definition startsAt (k : number) (c : Cue) : Prop := startMs c = k.

(** The start of [c] is a number, finite or infinite. *)
Definition numericStart (c : Cue) : Prop := startMs c ≠ NaN.

#[global] Instance startsAt_dec k c : Decision (startsAt k c).
Proof. unfold startsAt. apply _. Defined.

(** The warnings of the shifting pass for file [i]. *)
Definition fileWarnings (i : nat) (pf : ParsedFile) : list string :=
  match cues pf with
  | [] => [Sequential.noCuesWarning i]
  | cs => omap (λ c, match shifted i (Num 0) c with
                     | Some _ => None
                     | None => Some (Sequential.malformedWarning i)
                     end) cs
  end.

(** A cue with a negative start or end. *)
Definition negativeCue (c : Cue) : bool :=
  nltb (startMs c) (Num 0) || nltb (endMs c) (Num 0).

(** The cues that the validation pass examines: those before the first
    negative cue. *)
Fixpoint scannedPrefix (l : list Cue) : list Cue :=
  match l with
  | [] => []
  | c :: l' => if negativeCue c then [] else c :: scannedPrefix l'
  end.

Definition endBeforeStart (c : Cue) : bool := nltb (endMs c) (startMs c).

(** The pairs of neighbours of a sequence, earlier cue first. *)
Fixpoint adjacentPairs (l : list Cue) : list (Cue * Cue) :=
  match l with
  | [] => []
  | a :: t => match t with
              | [] => []
              | b :: _ => (a, b) :: adjacentPairs t
              end
  end.

(** The earlier cue ends after the later one starts, and both come from the
    same source file. *)
Definition overlapping (pc : Cue * Cue) : bool :=
  ngtb (endMs pc.1) (startMs pc.2)
  && bool_decide (sourceFileIndex pc.1 = sourceFileIndex pc.2).

(** The pairs of neighbours of [l] when [prev] comes just before it. *)
Definition pairsAfter (prev : option Cue) (l : list Cue) : list (Cue * Cue) :=
  match prev with
  | Some p => adjacentPairs (p :: l)
  | None => adjacentPairs l
  end.

(** The warnings of the validation pass at one position. *)
Definition positionWarnings (prev : option Cue) (c : Cue) : list string :=
  (if endBeforeStart c then ["cue_end_before_start"] else [])
  ++ match prev with
     | Some p => if overlapping (p, c) then ["overlap_detected"] else []
     | None => []
     end.

Fixpoint validationWarnings (prev : option Cue) (l : list Cue) : list string :=
  match l with
  | [] => []
  | c :: l' => positionWarnings prev c ++ validationWarnings (Some c) l'
  end.

(** The number of occurrences of the code [w] in a list of codes. *)
Definition occurrences (w : string) (l : list string) : nat :=
  length (filter (λ x, x = w) l).

End SeqSpec.

(** ** Sample inputs *)

Module Examples.

Definition cue (s e : Z) (t : string) : Cue :=
  {| startMs := Num s; endMs := Num e; text := t; sourceFileIndex := None |}.

Definition file (cs : list Cue) : ParsedFile := {| filename := None; cues := cs |}.

(** Two files of one cue each. *)
Definition twoFiles : list ParsedFile :=
  [file [cue 0 1000 "A"]; file [cue 0 1000 "B"]].

(** Three files that last 1000, 2000 and 500 ms. *)
Definition threeFiles : list ParsedFile :=
  [file [cue 0 1000 "A"]; file [cue 0 2000 "B"]; file [cue 0 500 "C"]].

(** The override NaN for file 0. *)
Definition nanOverride : MergeOptions :=
  {| perFileOffsetMs := Some {[ 0%nat := NaN ]}; useEffectiveEndMs := None;
     sortFinalByStart := None |}.

(** Files that last 2^53 ms, 1 ms and 1 ms. *)
Definition longFiles : list ParsedFile :=
  [file [cue 0 9007199254740992 "A"]; file [cue 0 1 "B"]; file [cue 0 1 "C"]].

(** A file with an overlap between its two cues, the second one inverted. *)
Definition overlapFile : list ParsedFile :=
  [file [cue 0 1000 "A"; cue 900 800 "B"]].

(** A negative cue followed by a cue that ends before it starts. *)
Definition negativeThenInverted : list ParsedFile :=
  [file [cue (-1000) (-500) "A"; cue 2000 1000 "B"]].

(** A negative cue followed by two cues of the same file that overlap. *)
Definition negativeThenOverlap : list ParsedFile :=
  [file [cue (-1000) (-500) "A"; cue 0 1000 "B"; cue 500 1500 "C"]].

End Examples.

Module RawExamples.

(** A block whose caption has a padded line, a blank line and a last line. *)
Definition paddedCaption : string :=
  "1" +:+ Str.newline +:+ "00:00:01,000 --> 00:00:02,000" +:+ Str.newline
  +:+ "  Hello  " +:+ Str.newline +:+ Str.newline +:+ "World".

(** Two blocks, the first with a padded line, a blank line and a last line
    as its caption. *)
Definition paddedCaptions : string :=
  "1" +:+ Str.newline +:+ "00:00:01,000 --> 00:00:02,000" +:+ Str.newline
  +:+ "  Hello  " +:+ Str.newline +:+ Str.newline +:+ "World" +:+ Str.newline
  +:+ "2" +:+ Str.newline +:+ "00:00:03,000 --> 00:00:04,000" +:+ Str.newline
  +:+ "Bye".

(** Two blocks, the first with a time but no arrow in its time-code line. *)
Definition looseTimecode : string :=
  "1" +:+ Str.newline +:+ "at 1:02:03 sharp" +:+ Str.newline +:+ "Hi" +:+ Str.newline
  +:+ "2" +:+ Str.newline +:+ "00:00:03,000 --> 00:00:04,000" +:+ Str.newline
  +:+ "Bye".

(** A block whose caption is one blank line, followed by a regular block. *)
Definition blankCaption : string :=
  "1" +:+ Str.newline +:+ "00:00:01,000 --> 00:00:02,000" +:+ Str.newline
  +:+ Str.newline
  +:+ "2" +:+ Str.newline +:+ "00:00:03,000 --> 00:00:04,000" +:+ Str.newline
  +:+ "Hi".

Definition blankCaptionFile : SrtFile := {| name := "a.srt"; content := blankCaption |}.

End RawExamples.

(** ** Vocabulary for the parser *)

Module ParserSpec.

(** The block has a line that the parser took for its time code: one that
    contains an arrow or a time such as 1:02:03. *)
Definition hasTimecode (b : SrtBlock) : Prop := looksLikeTimestamp (tsRaw b) = true.

(** The raw line is taken as an index: digits only, once trimmed. *)
Definition indexLine (raw : string) : bool := Str.isDigits (Str.trim raw).

(** A caption line as the parser can store it: not a line of digits. *)
Definition captionLine (t : string) : Prop := Str.isDigits t = false.

(** The text [t] is a line of [lines] with its surrounding white space
    removed. *)
Definition trimmedLineOf (lines : list string) (t : string) : Prop :=
  ∃ raw, raw ∈ lines ∧ t = Str.trim raw.

(** What the loop of [permissiveParseSrt] keeps true of its variables. *)
Record parserInvariant (st : ParserState) : Prop := mkParserInvariant {
  inv_closed :
    currentBlock st = None →
    blocks st = [] ∧ textLines st = [] ∧ expectingIndex st = true;
  inv_open : ∀ cb,
    currentBlock st = Some cb →
    is_Some (origIndex cb) ∧ expectingIndex st = false
    ∧ (if expectingTimestamp st
       then tsRaw cb = EmptyString ∧ textLines st = []
       else hasTimecode cb);
  inv_reading : isReadingText st = true → expectingTimestamp st = false;
  inv_textLines : Forall captionLine (textLines st);
  inv_blocks :
    Forall (λ b, is_Some (origIndex b) ∧ hasTimecode b ∧ Forall captionLine (texts b))
      (blocks st)
}.

End ParserSpec.

(** ** Vocabulary for well-formed input of the structured merger *)

Module MergeSpec.

(** Both times of the cue are finite: the cue is emitted. *)
Definition finiteCue (c : Cue) : bool := isFinite (startMs c) && isFinite (endMs c).

(** A cue with finite times that starts at or after 0 and does not end
    before it starts. *)
Definition wellFormedCue (c : Cue) : Prop :=
  ∃ s e, startMs c = Num s ∧ endMs c = Num e ∧ 0 ≤ s ∧ s ≤ e.

(** [a] ends no later than [b] starts: [a.endMs <= b.startMs]. *)
Definition precedes (a b : Cue) : Prop := nleb (endMs a) (startMs b) = true.

(** A cue of the output that starts at or after 0 and does not end before
    it starts. *)
Definition orderlyCue (c : Cue) : Prop :=
  nleb (Num 0) (startMs c) = true ∧ nleb (startMs c) (endMs c) = true.

(** A file with at least one cue, whose cues are well formed, in increasing
    order and without overlap. *)
Definition wellFormedFile (pf : ParsedFile) : Prop :=
  cues pf ≠ [] ∧ Forall wellFormedCue (cues pf) ∧ StronglySorted precedes (cues pf).

(** Options without per-file overrides. *)
Definition withoutOverrides (use srt : option bool) : MergeOptions :=
  {| perFileOffsetMs := None; useEffectiveEndMs := use; sortFinalByStart := srt |}.

End MergeSpec.

(** ** Vocabulary for the diagnostics of the raw-text merger *)

Module RawSpec.

(** What a diagnostic says, for the names [names] of the files merged and
    the blocks [mbs] emitted: it records a correction, with the reason of a
    fallback, for a block of one of the files that had an index, and it
    points at the emitted block that carries its final time-code line. *)
Definition diagnosticOk (names : list string) (mbs : list MergedBlock)
    (d : MergeDiagnostic) : Prop :=
  action d ≠ normal
  ∧ (action d = fallback → reason d = Some "Unparseable timestamp line")
  ∧ (action d = normalized → reason d = None)
  ∧ src_file d ∈ names
  ∧ is_Some (original_index d)
  ∧ ∃ mb, mbs !! (final_index d - 1)%nat = Some mb
          ∧ index mb = final_index d
          ∧ timestamp mb = final_timestamp d.

(** The invariant of the two loops of [mergeSrtFiles] on the diagnostics. *)
Definition diagnosticsInvariant (names : list string) (st : MergeState) : Prop :=
  S (length (mergedBlocks st)) = globalIndex st
  ∧ Forall (diagnosticOk names (mergedBlocks st)) (diags st)
  ∧ Forall (λ d, (final_index d < globalIndex st)%nat) (diags st)
  ∧ StronglySorted lt (final_index <$> diags st).

End RawSpec.

(** ** Vocabulary for the older copy of the parser *)

Module LegacySpec.

(** What the loop of [Legacy.permissiveParseSrt] keeps true of its
    variables. *)
Record parserInvariant (st : Legacy.ParserState) : Prop := mkParserInvariant {
  inv_closed :
    Legacy.currentBlock st = None →
    Legacy.textLines st = [] ∧ Legacy.expectingIndex st = true;
  inv_open : ∀ cb,
    Legacy.currentBlock st = Some cb →
    is_Some (origIndex cb) ∧ Legacy.expectingIndex st = false;
  inv_textLines : Forall (λ t, t ≠ EmptyString) (Legacy.textLines st);
  inv_blocks :
    Forall (λ b, is_Some (origIndex b) ∧ Forall (λ t, t ≠ EmptyString) (texts b))
      (Legacy.blocks st)
}.

End LegacySpec.

(** ** The App component: the list of files and the merge with offsets

    The state updates and the merge of the component that calls the parser
    and the merger (App.tsx, 455 lines; the line numbers are its own), and
    [computeOffsets] of components/TimelineAlignmentCard.tsx.  A handler is
    modelled by the function it passes to the state setter, or by the value
    it computes. *)

Module ComputedOffset.

Record t : Type := mk {
  id : string;
  offsetMs : Z;
  offsetDisplay : string
}.

End ComputedOffset.

Module SecondaryFile.

Record t : Type := mk {
  id : string;
  name : string;
  currentOffsetMs : option Z
}.

End SecondaryFile.

Module App.

(** An element of the state [files]: the fields given to a file when it is
    read (l. 34-45), but for [content], which is always the empty array. *)
Record FileWithContent : Type := mkFileWithContent {
  id : string;
  name : string;
  type : string;
  size : Z;
  duration : option string;
  isPrimary : bool;
  offset : string;
  errors : list string;
  fileContent : string
}.

(** [{ ...f, isPrimary: p }] *)
Definition withPrimary (f : FileWithContent) (p : bool) : FileWithContent :=
  {| id := id f; name := name f; type := type f; size := size f;
     duration := duration f; isPrimary := p; offset := offset f;
     errors := errors f; fileContent := fileContent f |}.

(** The update of [handleSetPrimary] (l. 66-73). *)
Definition handleSetPrimary (i : string) (prev : list FileWithContent)
    : list FileWithContent :=
  (λ f, withPrimary f (bool_decide (id f = i))) <$> prev.

(** The update of [handleRemove] (l. 75-92). *)
Definition handleRemove (i : string) (prev : list FileWithContent)
    : list FileWithContent :=
  let removedFile := List.find (λ f, bool_decide (id f = i)) prev in
  let updated := filter (λ f, id f ≠ i) prev in
  match removedFile with
  | Some removed =>
      if isPrimary removed && (0 <? length updated)%nat
      then imap (λ index f, withPrimary f (index =? 0)%nat) updated
      else updated
  | None => updated
  end.

(** [primaryFile] (l. 95-97): [files.find(f => f.isPrimary) || files[0] || null] *)
Definition primaryFile (files : list FileWithContent) : option FileWithContent :=
  match List.find isPrimary files with
  | Some f => Some f
  | None => head files
  end.

(** The modes of the alignment card. *)
Inductive ShiftMode : Type := auto | none | custom.

Section Offsets.

(** [parseTimestampToMs] and [formatMsToTimestamp] of './utils/timestampUtils'
    and [shiftTimestampLine] of './utils/timestamp-arith', which are not part
    of the sources at hand. *)
Variable parseTimestampToMs : string → option Z.
Variable formatMsToTimestamp : Z → string.
Variable shiftTimestampLine : string → Z → option string.

(** [secondaryFiles] (l. 122-130) *)
Definition secondaryFiles (files : list FileWithContent) : list SecondaryFile.t :=
  (λ file, {| SecondaryFile.id := id file;
              SecondaryFile.name := name file;
              SecondaryFile.currentOffsetMs :=
                Some (default 0 (parseTimestampToMs (offset file))) |})
  <$> filter (λ f, isPrimary f = false) files.

(** [computeOffsets] of the alignment card (TimelineAlignmentCard.tsx,
    l. 47-65), for the mode, the custom offset and the primary end of its
    state. *)
Definition computeOffsets (mode : ShiftMode) (customOffset : string) (primaryEndMs : Z)
    (secondary : list SecondaryFile.t) : list ComputedOffset.t :=
  (λ file,
     let offsetMs :=
       match mode with
       | auto => primaryEndMs
       | none => default 0 (SecondaryFile.currentOffsetMs file)
       | custom => default 0 (parseTimestampToMs customOffset)
       end in
     {| ComputedOffset.id := SecondaryFile.id file;
        ComputedOffset.offsetMs := offsetMs;
        ComputedOffset.offsetDisplay := formatMsToTimestamp offsetMs |})
  <$> secondary.

(** The body of the two loops over blocks of [handleMerge] (l. 158-167 and
    l. 176-185); the state is [(allBlocks, globalIndex)]. *)
Definition pushShifted (offsetMs : Z) (st : list MergedBlock * nat) (block : SrtBlock)
    : list MergedBlock * nat :=
  match truthy (shiftTimestampLine (tsRaw block) offsetMs) with
  | Some shifted =>
      (st.1 ++ [ {| index := st.2; timestamp := shifted;
                    blockTexts := emittedTexts block |} ], S st.2)
  | None => st
  end.

(** [computedOffsets.find(o => o.id === file.id)?.offsetMs ?? 0] (l. 172-173) *)
Definition offsetOf (computedOffsets : list ComputedOffset.t) (file : FileWithContent) : Z :=
  match List.find (λ o, bool_decide (ComputedOffset.id o = id file)) computedOffsets with
  | Some o => ComputedOffset.offsetMs o
  | None => 0
  end.

(** The body of the loop over the secondary files (l. 171-186). *)
Definition pushFile (computedOffsets : list ComputedOffset.t)
    (st : list MergedBlock * nat) (file : FileWithContent) : list MergedBlock * nat :=
  fold_left (pushShifted (offsetOf computedOffsets file))
    (permissiveParseSrt (fileContent file)) st.

(** The array [allBlocks] of [handleMerge] when offsets were computed
    (l. 152-187). *)
Definition offsetBlocks (files : list FileWithContent)
    (computedOffsets : list ComputedOffset.t) (primary : FileWithContent)
    : list MergedBlock :=
  let st0 := fold_left (pushShifted 0) (permissiveParseSrt (fileContent primary)) ([], 1%nat) in
  (fold_left (pushFile computedOffsets) (filter (λ f, isPrimary f = false) files) st0).1.

(** The blocks of a file whose time-code line shifts at [offsetMs]. *)
Definition shiftingBlocks (offsetMs : Z) (file : FileWithContent) : list SrtBlock :=
  filter (λ b, is_Some (truthy (shiftTimestampLine (tsRaw b) offsetMs)))
    (permissiveParseSrt (fileContent file)).

(** The blocks that the merge with offsets keeps, in the order of the two
    loops: those of the primary file that shift at 0, then those of each
    other file that shift at the offset looked up for it. *)
Definition keptBlocks (files : list FileWithContent)
    (computedOffsets : list ComputedOffset.t) (primary : FileWithContent)
    : list SrtBlock :=
  shiftingBlocks 0 primary
  ++ concat ((λ f, shiftingBlocks (offsetOf computedOffsets f) f)
             <$> filter (λ f, isPrimary f = false) files).

(** [`${block.index}\n${block.timestamp}\n${cleanTexts.join('\n')}`] (l. 190-193) *)
Definition renderClean (block : MergedBlock) : string :=
  pretty (index block) +:+ Str.newline +:+ timestamp block +:+ Str.newline
  +:+ Str.join Str.newline
        (filter (λ t, Str.trim t ≠ EmptyString) (blockTexts block)).

(** The result that [handleMerge] stores (l. 141-215): none for an empty
    list of files, the merge with offsets when offsets were computed and
    there is more than one file, the plain merge otherwise. *)
Definition handleMerge (mergeSrtFiles : list SrtFile → MergeResult)
    (files : list FileWithContent) (computedOffsets : list ComputedOffset.t)
    : option MergeResult :=
  match files with
  | [] => None
  | _ =>
      match primaryFile files with
      | Some primary =>
          if (0 <? length computedOffsets)%nat && (1 <? length files)%nat
          then
            let allBlocks := offsetBlocks files computedOffsets primary in
            Some {| mergedSrt :=
                      Str.join (Str.newline +:+ Str.newline) (renderClean <$> allBlocks)
                      +:+ Str.newline;
                    diagnostics := [];
                    stats :=
                      {| totalInputCues :=
                           fold_left (λ sum f,
                             (sum + length (permissiveParseSrt (fileContent f)))%nat)
                             files 0%nat;
                         totalOutputCues := length allBlocks;
                         parseIssuesCount := 0;
                         filesProcessed := length files |} |}
          else
            Some (mergeSrtFiles
                    ((λ file, mkSrtFile (name file) (fileContent file)) <$> files))
      | None =>
          Some (mergeSrtFiles
                  ((λ file, mkSrtFile (name file) (fileContent file)) <$> files))
      end
  end.

End Offsets.

(** Exactly one file of the list is the primary one. *)
Definition onePrimary (files : list FileWithContent) : Prop :=
  length (filter (λ f, isPrimary f = true) files) = 1%nat.

End App.

Module AppExamples.

(** A list of two files, the first one primary. *)
Definition fileA : App.FileWithContent :=
  {| App.id := "a"; App.name := "a.srt"; App.type := ".srt"; App.size := 0;
     App.duration := None; App.isPrimary := true; App.offset := "00:00:00,000";
     App.errors := []; App.fileContent := RawExamples.blankCaption |}.

Definition fileB : App.FileWithContent :=
  {| App.id := "b"; App.name := "b.srt"; App.type := ".srt"; App.size := 0;
     App.duration := None; App.isPrimary := false; App.offset := "00:00:00,000";
     App.errors := []; App.fileContent := RawExamples.paddedCaption |}.

Definition twoFiles : list App.FileWithContent := [fileA; fileB].

(** A stand-in for [shiftTimestampLine] that shifts every line that has an
    arrow and leaves it as it is. *)
Definition keepLine (line : string) (offsetMs : Z) : option string :=
  if Str.includes "-->" line then Some line else None.

(** Two files whose captions have no blank line, the first one primary. *)
Definition plainCaption : string :=
  "1" +:+ Str.newline +:+ "00:00:01,000 --> 00:00:02,000" +:+ Str.newline +:+ "Hi".

Definition fileC : App.FileWithContent :=
  {| App.id := "c"; App.name := "c.srt"; App.type := ".srt"; App.size := 0;
     App.duration := None; App.isPrimary := true; App.offset := "00:00:00,000";
     App.errors := []; App.fileContent := plainCaption |}.

Definition fileD : App.FileWithContent :=
  {| App.id := "d"; App.name := "d.srt"; App.type := ".srt"; App.size := 0;
     App.duration := None; App.isPrimary := false; App.offset := "00:00:05,000";
     App.errors := []; App.fileContent := plainCaption |}.

Definition twoPlain : list App.FileWithContent := [fileC; fileD].

(** The offsets computed for [twoPlain] when the second file starts two
    seconds in. *)
Definition offsetsOfTwoPlain : list ComputedOffset.t :=
  [ {| ComputedOffset.id := "d"; ComputedOffset.offsetMs := 2000;
       ComputedOffset.offsetDisplay := "00:00:02,000" |} ].




(** Stand-ins for [parseTimestampToMs], which reads no time, and for
    [formatMsToTimestamp]. *)
Definition readsNothing (s : string) : option Z := None.
Definition formatsNothing (ms : Z) : string := EmptyString.

End AppExamples.

(** * Scenarios of the test suite *)

Module Scenarios.
Import Sequential Examples.

(** Two files of one cue each: the second is shifted by the end of the
    first. *)
Example two_files :
  mergeParsedFilesSequential twoFiles noOptions
  = {| mergedCues := [ {| startMs := Num 0; endMs := Num 1000; text := "A";
                          sourceFileIndex := Some 0%nat |};
                       {| startMs := Num 1000; endMs := Num 2000; text := "B";
                          sourceFileIndex := Some 1%nat |} ];
       warnings := []; errors := [] |}.
Proof. reflexivity. Qed.

(** Three files that end at 1,683,760 / 1,800,000 / 1,306,220 ms. *)
Example three_file_shifts :
  cumulativeShift ∅
    [file [cue 0 1683760 "A"]; file [cue 0 1800000 "B"]; file [cue 0 1306220 "C"]]
  = [Num 0; Num 1683760; Num 3483760].
Proof. reflexivity. Qed.

(** An override for file 0 moves file 1 only. *)
Example offset_override :
  mergedCues (mergeParsedFilesSequential
    [file [cue 0 5000 "A"]; file [cue 0 1000 "B"]]
    {| perFileOffsetMs := Some {[ 0%nat := Num 10000 ]}; useEffectiveEndMs := None;
       sortFinalByStart := None |})
  = [ {| startMs := Num 0; endMs := Num 5000; text := "A"; sourceFileIndex := Some 0%nat |};
      {| startMs := Num 10000; endMs := Num 11000; text := "B";
         sourceFileIndex := Some 1%nat |} ].
Proof. vm_compute. reflexivity. Qed.

(** An override that is not finite: NaN counts as no shift, and an infinite
    one moves the cues of the next file to infinity, without a warning. *)
Example nan_override :
  mergedCues (mergeParsedFilesSequential twoFiles nanOverride)
  = [ {| startMs := Num 0; endMs := Num 1000; text := "A"; sourceFileIndex := Some 0%nat |};
      {| startMs := Num 0; endMs := Num 1000; text := "B"; sourceFileIndex := Some 1%nat |} ].
Proof. vm_compute. reflexivity. Qed.

Example infinite_override :
  mergeParsedFilesSequential twoFiles
    {| perFileOffsetMs := Some {[ 0%nat := PosInf ]}; useEffectiveEndMs := None;
       sortFinalByStart := Some true |}
  = {| mergedCues := [ {| startMs := Num 0; endMs := Num 1000; text := "A";
                          sourceFileIndex := Some 0%nat |};
                       {| startMs := PosInf; endMs := PosInf; text := "B";
                          sourceFileIndex := Some 1%nat |} ];
       warnings := []; errors := [] |}.
Proof. vm_compute. reflexivity. Qed.

(** Times beyond 2^53 are rounded to the doubles next to them: after a file
    that lasts 2^53 ms, a cue from 1 to 3 ms is moved to 2^53 and
    2^53 + 4. *)
Example rounded_cue_times :
  mergedCues (mergeParsedFilesSequential
    [file [cue 0 9007199254740992 "A"]; file [cue 1 3 "B"]] noOptions)
  = [ {| startMs := Num 0; endMs := Num 9007199254740992; text := "A";
         sourceFileIndex := Some 0%nat |};
      {| startMs := Num 9007199254740992; endMs := Num 9007199254740996; text := "B";
         sourceFileIndex := Some 1%nat |} ].
Proof. vm_compute. reflexivity. Qed.

(** A file without cues and a cue with a non-finite time. *)
Example no_cues_and_malformed :
  mergeParsedFilesSequential
    [file [cue 0 1000 "A"]; file [];
     file [ {| startMs := NaN; endMs := Num 2000; text := "B"; sourceFileIndex := None |} ]]
    noOptions
  = {| mergedCues := [ {| startMs := Num 0; endMs := Num 1000; text := "A";
                          sourceFileIndex := Some 0%nat |} ];
       warnings := ["file_1_no_cues"; "file_2_malformed_cue"]; errors := [] |}.
Proof. vm_compute. reflexivity. Qed.

(** A cue that ends before it starts is kept and reported. *)
Example inverted_cue :
  mergeParsedFilesSequential [file [cue 2000 1000 "A"]] noOptions
  = {| mergedCues := [ {| startMs := Num 2000; endMs := Num 1000; text := "A";
                          sourceFileIndex := Some 0%nat |} ];
       warnings := ["cue_end_before_start"]; errors := [] |}.
Proof. reflexivity. Qed.

(** A negative cue is an error, and it ends the validation. *)
Example negative_cue :
  errors (mergeParsedFilesSequential negativeThenInverted noOptions)
  = ["negative_timestamps"]
  ∧ warnings (mergeParsedFilesSequential negativeThenInverted noOptions) = [].
Proof. split; reflexivity. Qed.

(** The final sort. *)
Example sorted_output :
  text <$> mergedCues (mergeParsedFilesSequential
    [file [cue 1000 2000 "A"; cue 500 700 "Z"]; file [cue 0 500 "B"]]
    {| perFileOffsetMs := None; useEffectiveEndMs := None;
       sortFinalByStart := Some true |})
  = ["Z"; "A"; "B"].
Proof. reflexivity. Qed.

(** The two parsers on a caption with a blank line in it. *)
Example parse_blank_caption :
  permissiveParseSrt RawExamples.blankCaption
  = [ {| origIndex := Some (Num 1); tsRaw := "00:00:01,000 --> 00:00:02,000";
         texts := [EmptyString] |};
      {| origIndex := Some (Num 2); tsRaw := "00:00:03,000 --> 00:00:04,000";
         texts := ["Hi"] |} ].
Proof. reflexivity. Qed.

End Scenarios.

(** * The arithmetic of numbers *)

Module NumberFacts.

(** ** Rounding to the nearest double *)

(** Integers up to 2^53 are doubles; beyond, every second integer is, and a
    tie goes to the even significand; from 2^1024 - 2^970 on the result is
    an infinity. *)
Example rounding_samples :
  toNumber 9007199254740992 = Num 9007199254740992
  ∧ toNumber 9007199254740993 = Num 9007199254740992
  ∧ toNumber 9007199254740995 = Num 9007199254740996
  ∧ toNumber (- 9007199254740995) = Num (- 9007199254740996)
  ∧ toNumber (2 ^ 1024 - 2 ^ 970 - 1) = Num (2 ^ 1024 - 2 ^ 971)
  ∧ toNumber (2 ^ 1024 - 2 ^ 970) = PosInf.
Proof. split_and!; vm_compute; reflexivity. Qed.

Lemma nearest_cases u z :
  0 < u →
  ∃ q r, z = q * u + r ∧ (0 ≤ r ∧ r < u)
         ∧ (nearest u z = q * u ∧ 2 * r ≤ u ∨ nearest u z = (q + 1) * u ∧ u ≤ 2 * r)
         ∧ (r = 0 → nearest u z = q * u).
Proof.
  intros Hu. exists (z / u), (z mod u).
  pose proof (Z.div_mod z u ltac:(lia)) as Hdiv.
  pose proof (Z.mod_pos_bound z u Hu) as Hmod.
  split; [lia|]. split; [lia|]. unfold nearest.
  destruct (Z.ltb_spec (2 * (z mod u)) u); [split; [left; lia | done]|].
  destruct (Z.ltb_spec u (2 * (z mod u))); [split; [right; lia | lia]|].
  destruct (Z.even (z / u)); (split; [|lia]); [left | right]; lia.
Qed.

Lemma nearest_ge u z c : 0 < u → c * u ≤ z → c * u ≤ nearest u z.
Proof.
  intros Hu Hc. destruct (nearest_cases u z Hu) as (q & r & -> & Hr & Hn & _).
  assert (c ≤ q) as Hcq.
  { apply Z.lt_succ_r, (Z.mul_lt_mono_pos_r u); lia. }
  destruct Hn as [[-> _]|[-> _]]; nia.
Qed.

Lemma nearest_le u z c : 0 < u → z ≤ c * u → nearest u z ≤ c * u.
Proof.
  intros Hu Hc. destruct (nearest_cases u z Hu) as (q & r & -> & Hr & Hn & H0).
  destruct (decide (r = 0)) as [->|Hne]; [rewrite H0 by done; lia|].
  assert (q + 1 ≤ c) as Hcq.
  { apply Z.lt_succ_r, (Z.mul_lt_mono_pos_r u); lia. }
  destruct Hn as [[-> _]|[-> _]]; nia.
Qed.

Lemma nearest_multiple u c : 0 < u → nearest u (c * u) = c * u.
Proof.
  intros Hu. apply Z.le_antisymm; [by apply nearest_le | by apply nearest_ge].
Qed.

Lemma nearest_mono u a b : 0 < u → a ≤ b → nearest u a ≤ nearest u b.
Proof.
  intros Hu Hab.
  destruct (decide (a / u = b / u)) as [Heq|Hne].
  - unfold nearest. rewrite Heq.
    pose proof (Z.div_mod a u ltac:(lia)) as Ha.
    pose proof (Z.div_mod b u ltac:(lia)) as Hb.
    rewrite Heq in Ha.
    repeat match goal with
    | |- context [?x <? ?y] => destruct (Z.ltb_spec x y)
    | |- context [Z.even ?q] => destruct (Z.even q)
    end; nia.
  - pose proof (Z.div_le_mono a b u Hu Hab) as Hq.
    pose proof (Z.div_mod b u ltac:(lia)) as Hb.
    pose proof (Z.mod_pos_bound b u Hu) as Hmb.
    pose proof (Z.div_mod a u ltac:(lia)) as Ha.
    pose proof (Z.mod_pos_bound a u Hu) as Hma.
    transitivity (b / u * u).
    + apply nearest_le; [done|]. nia.
    + apply nearest_ge; [done|]. nia.
Qed.

Lemma ulp_pos z : 0 < ulp z.
Proof. unfold ulp. apply Z.pow_pos_nonneg; lia. Qed.

(** The binade of a positive integer, as multiples of its unit. *)
Lemma binade z :
  0 < z →
  ∃ c, 0 < c ∧ 2 ^ Z.log2 z = c * ulp z ∧ 2 ^ Z.succ (Z.log2 z) = 2 * c * ulp z
       ∧ 2 ^ Z.log2 z ≤ z ∧ z < 2 ^ Z.succ (Z.log2 z).
Proof.
  intros Hz. pose proof (Z.log2_spec z Hz) as [Hlo Hhi].
  pose proof (Z.log2_nonneg z) as Hk.
  exists (2 ^ (Z.log2 z - Z.max 0 (Z.log2 z - 52))). unfold ulp.
  assert (2 ^ Z.log2 z
          = 2 ^ (Z.log2 z - Z.max 0 (Z.log2 z - 52)) * 2 ^ Z.max 0 (Z.log2 z - 52)) as Hsplit.
  { rewrite <- Z.pow_add_r by lia. f_equal. lia. }
  split_and!; try done.
  - apply Z.pow_pos_nonneg; lia.
  - rewrite Z.pow_succ_r by done. lia.
Qed.

Lemma roundMagnitude_bounds z :
  0 < z → 2 ^ Z.log2 z ≤ roundMagnitude z ∧ roundMagnitude z ≤ 2 ^ Z.succ (Z.log2 z).
Proof.
  intros Hz. destruct (binade z Hz) as (c & Hc & Hlo & Hhi & Hzlo & Hzhi).
  unfold roundMagnitude. rewrite Hlo, Hhi. pose proof (ulp_pos z). split.
  - apply nearest_ge; [done|lia].
  - apply nearest_le; [done|lia].
Qed.

Lemma roundMagnitude_0 : roundMagnitude 0 = 0.
Proof. reflexivity. Qed.

Lemma roundMagnitude_pos z : 0 < z → 0 < roundMagnitude z.
Proof.
  intros Hz. destruct (roundMagnitude_bounds z Hz) as [Hlo _].
  pose proof (Z.pow_pos_nonneg 2 (Z.log2 z) ltac:(lia) (Z.log2_nonneg z)). lia.
Qed.

Lemma roundMagnitude_exact z : 0 ≤ z → z ≤ 2 ^ 53 → roundMagnitude z = z.
Proof.
  intros Hz Hle. unfold roundMagnitude.
  destruct (decide (z = 2 ^ 53)) as [->|Hne]; [reflexivity|].
  assert (ulp z = 1) as ->.
  { unfold ulp. destruct (decide (z = 0)) as [->|H0]; [done|].
    assert (Z.log2 z < 53) by (apply Z.log2_lt_pow2; lia).
    by rewrite Z.max_l by lia. }
  rewrite <- (Z.mul_1_r z) at 1. rewrite nearest_multiple; lia.
Qed.

Lemma roundMagnitude_mono a b : 0 ≤ a → a ≤ b → roundMagnitude a ≤ roundMagnitude b.
Proof.
  intros Ha Hab. destruct (decide (a = 0)) as [->|Ha0].
  { rewrite roundMagnitude_0. destruct (decide (b = 0)) as [->|Hb0]; [done|].
    pose proof (roundMagnitude_pos b ltac:(lia)). lia. }
  pose proof (Z.log2_le_mono a b Hab) as Hlog.
  destruct (decide (Z.log2 a = Z.log2 b)) as [Heq|Hne].
  - unfold roundMagnitude, ulp. rewrite Heq. apply nearest_mono; [|done].
    apply Z.pow_pos_nonneg; lia.
  - destruct (roundMagnitude_bounds a ltac:(lia)) as [_ Hhi].
    destruct (roundMagnitude_bounds b ltac:(lia)) as [Hlo _].
    assert (2 ^ Z.succ (Z.log2 a) ≤ 2 ^ Z.log2 b) by (apply Z.pow_le_mono_r; lia).
    lia.
Qed.

Lemma roundMagnitude_idem z : 0 ≤ z → roundMagnitude (roundMagnitude z) = roundMagnitude z.
Proof.
  intros Hz. destruct (decide (z = 0)) as [->|Hz0]; [done|].
  destruct (binade z ltac:(lia)) as (c & Hc & Hlo & Hhi & Hzlo & Hzhi).
  destruct (roundMagnitude_bounds z ltac:(lia)) as [Hrlo Hrhi].
  pose proof (ulp_pos z) as Hu.
  destruct (nearest_cases (ulp z) z Hu) as (q & r & Hz' & Hr & Hn & _).
  assert (∃ d, roundMagnitude z = d * ulp z) as [d Hd].
  { unfold roundMagnitude. destruct Hn as [[-> _]|[-> _]]; by eexists. }
  pose proof (Z.log2_nonneg z) as Hk.
  destruct (decide (roundMagnitude z = 2 ^ Z.succ (Z.log2 z))) as [Htop|Hlt].
  - rewrite Htop. unfold roundMagnitude at 1.
    assert (Z.log2 (2 ^ Z.succ (Z.log2 z)) = Z.succ (Z.log2 z)) as Hlog
      by (apply Z.log2_pow2; lia).
    unfold ulp at 1. rewrite Hlog.
    set (e := Z.max 0 (Z.succ (Z.log2 z) - 52)).
    replace (2 ^ Z.succ (Z.log2 z)) with (2 ^ (Z.succ (Z.log2 z) - e) * 2 ^ e).
    + apply nearest_multiple. apply Z.pow_pos_nonneg; lia.
    + rewrite <- Z.pow_add_r by lia. f_equal. lia.
  - assert (Z.log2 (roundMagnitude z) = Z.log2 z) as Hlog.
    { apply Z.log2_unique; [done|]. lia. }
    unfold roundMagnitude at 1. unfold ulp at 1. rewrite Hlog.
    fold (ulp z). rewrite Hd. by apply nearest_multiple.
Qed.

(** ** Numbers *)

Lemma toNumber_not_NaN z : toNumber z ≠ NaN.
Proof. unfold toNumber. destruct (_ <=? _); [by destruct (0 <? z)|done]. Qed.

Lemma toNumber_exact z : Z.abs z ≤ 2 ^ 53 → toNumber z = Num z.
Proof.
  intros Hz. unfold toNumber.
  rewrite roundMagnitude_exact by lia.
  assert (2 ^ 53 < 2 ^ 1024) by (apply Z.pow_lt_mono_r; lia).
  destruct (Z.leb_spec (2 ^ 1024) (Z.abs z)); [lia|].
  f_equal. destruct z; simpl; lia.
Qed.

Lemma toNumber_nonneg z :
  0 ≤ z → toNumber z = PosInf ∨ ∃ r, toNumber z = Num r ∧ 0 ≤ r ∧ r = roundMagnitude z.
Proof.
  intros Hz. unfold toNumber. rewrite Z.abs_eq by done.
  destruct (Z.leb_spec (2 ^ 1024) (roundMagnitude z)) as [Hbig|Hsmall].
  - left. destruct (Z.ltb_spec 0 z); [done|].
    replace z with 0 in Hbig by lia. rewrite roundMagnitude_0 in Hbig.
    pose proof (Z.pow_pos_nonneg 2 1024). lia.
  - right. eexists. split; [done|].
    destruct (decide (z = 0)) as [->|Hz0]; [done|].
    pose proof (roundMagnitude_pos z ltac:(lia)).
    rewrite Z.sgn_pos by lia. lia.
Qed.

Lemma toNumber_opp z :
  toNumber (- z)
  = match toNumber z with
    | Num r => Num (- r)
    | PosInf => NegInf
    | NegInf => PosInf
    | NaN => NaN
    end.
Proof.
  unfold toNumber. rewrite Z.abs_opp, Z.sgn_opp.
  destruct (Z.leb_spec (2 ^ 1024) (roundMagnitude (Z.abs z))) as [Hbig|Hsmall].
  - destruct (decide (z = 0)) as [->|Hz0].
    { change (Z.abs 0) with 0 in Hbig. rewrite roundMagnitude_0 in Hbig.
      pose proof (Z.pow_pos_nonneg 2 1024). lia. }
    destruct (Z.ltb_spec 0 z), (Z.ltb_spec 0 (- z)); try done; lia.
  - f_equal. lia.
Qed.

Lemma nleb_refl x : x ≠ NaN → nleb x x = true.
Proof. destruct x; try done. intros _. simpl. by apply Z.leb_le. Qed.

Lemma nleb_trans x y z : nleb x y = true → nleb y z = true → nleb x z = true.
Proof.
  destruct x, y, z; simpl; try done.
  rewrite !Z.leb_le. lia.
Qed.

Lemma toNumber_mono_nonneg a b :
  0 ≤ a → a ≤ b → nleb (toNumber a) (toNumber b) = true.
Proof.
  intros Ha Hab. pose proof (roundMagnitude_mono a b Ha Hab) as Hr.
  unfold toNumber. rewrite !Z.abs_eq by lia.
  destruct (Z.leb_spec (2 ^ 1024) (roundMagnitude a)), (Z.leb_spec (2 ^ 1024) (roundMagnitude b));
    try lia.
  - assert (0 < a).
    { destruct (decide (a = 0)) as [->|]; [|lia]. rewrite roundMagnitude_0 in *.
      pose proof (Z.pow_pos_nonneg 2 1024). lia. }
    rewrite !(proj2 (Z.ltb_lt 0 _)) by lia. done.
  - assert (0 < b).
    { destruct (decide (b = 0)) as [->|]; [|lia]. rewrite roundMagnitude_0 in *.
      pose proof (Z.pow_pos_nonneg 2 1024). lia. }
    rewrite !(proj2 (Z.ltb_lt 0 _)) by lia. done.
  - simpl. apply Z.leb_le.
    destruct (decide (a = 0)) as [->|Ha0].
    + simpl. destruct (decide (b = 0)) as [->|Hb0]; [done|].
      pose proof (roundMagnitude_pos b ltac:(lia)). rewrite Z.sgn_pos by lia. lia.
    + rewrite !Z.sgn_pos by lia. lia.
Qed.

Lemma toNumber_mono a b : a ≤ b → nleb (toNumber a) (toNumber b) = true.
Proof.
  intros Hab. destruct (Z.le_gt_cases 0 a) as [Ha|Ha]; [by apply toNumber_mono_nonneg|].
  destruct (Z.le_gt_cases 0 b) as [Hb|Hb].
  - apply (nleb_trans _ (Num 0)).
    + replace a with (- - a) by lia. rewrite toNumber_opp.
      destruct (toNumber_nonneg (- a) ltac:(lia)) as [->|(r & -> & ? & _)]; [done|].
      simpl. apply Z.leb_le. lia.
    + destruct (toNumber_nonneg b Hb) as [->|(r & -> & ? & _)]; [done|].
      simpl. by apply Z.leb_le.
  - pose proof (toNumber_mono_nonneg (- b) (- a) ltac:(lia) ltac:(lia)) as H.
    replace a with (- - a) by lia. replace b with (- - b) by lia.
    rewrite (toNumber_opp (- a)), (toNumber_opp (- b)).
    destruct (toNumber (- a)), (toNumber (- b)); simpl in *; try done.
    apply Z.leb_le. apply Z.leb_le in H. lia.
Qed.

Lemma toNumber_positive z : 0 < z → nltb (Num 0) (toNumber z) = true.
Proof.
  intros Hz. destruct (toNumber_nonneg z ltac:(lia)) as [->|(r & -> & ? & ->)]; [done|].
  simpl. apply Z.ltb_lt. by apply roundMagnitude_pos.
Qed.

Lemma toNumber_nonpositive z : z ≤ 0 → nltb (Num 0) (toNumber z) = false.
Proof.
  intros Hz. replace z with (- - z) by lia. rewrite toNumber_opp.
  destruct (toNumber_nonneg (- z) ltac:(lia)) as [->|(r & -> & ? & _)]; [done|].
  simpl. apply Z.ltb_ge. lia.
Qed.

Lemma toNumber_isDouble z : isDouble (toNumber z).
Proof.
  assert (∀ a, 0 ≤ a → isDouble (toNumber a)) as Hpos.
  { intros a Ha. unfold isDouble.
    destruct (toNumber_nonneg a Ha) as [->|(r & Hr & Hr0 & Hrm)]; [done|].
    rewrite Hr. unfold toNumber in *. rewrite Z.abs_eq in * by done.
    destruct (Z.leb_spec (2 ^ 1024) (roundMagnitude a)); [by destruct (0 <? a)|].
    subst r. rewrite roundMagnitude_idem by done.
    destruct (Z.leb_spec (2 ^ 1024) (roundMagnitude a)); [lia|].
    f_equal. destruct (decide (roundMagnitude a = 0)) as [->|]; [done|].
    rewrite Z.sgn_pos by lia. lia. }
  destruct (Z.le_gt_cases 0 z) as [Hz|Hz]; [by apply Hpos|].
  replace z with (- - z) by lia. rewrite toNumber_opp.
  specialize (Hpos (- z) ltac:(lia)). unfold isDouble in *.
  destruct (toNumber (- z)) as [r| | |]; try done.
  rewrite toNumber_opp, Hpos. done.
Qed.

End NumberFacts.

(** * Properties of the structured merger *)

Module SeqFacts.
Import Sequential SeqSpec NumberFacts.

(** ** The cumulative shifts *)

Lemma foldr_max_init (ys : list Z) (x y : Z) :
  foldr Z.max (Z.max x y) ys = Z.max y (foldr Z.max x ys).
Proof. induction ys as [|z zs IH]; simpl; [lia|]. rewrite IH. lia. Qed.

Lemma fold_left_max_foldr (xs : list Z) (x : Z) :
  fold_left Z.max xs x = foldr Z.max x xs.
Proof.
  revert x. induction xs as [|y ys IH]; intros x; simpl; [done|].
  by rewrite IH, foldr_max_init.
Qed.

Lemma maximum_elem (l : list Z) (m : Z) :
  maximum l = Some m → m ∈ l ∧ Forall (λ x, x ≤ m) l.
Proof.
  destruct l as [|x xs]; [done|]. simpl. intros [= <-].
  induction xs as [|y ys [IHin IHle]]; simpl.
  - split; [left | repeat constructor; lia].
  - apply Forall_cons in IHle as [Hx Hys]. split.
    + destruct (Z.max_spec y (foldr Z.max x ys)) as [[_ ->]|[_ ->]].
      * apply elem_of_cons in IHin as [->|Hin]; [left | do 2 right; done].
      * right; left.
    + repeat apply Forall_cons_2; try lia.
      eapply Forall_impl; [exact Hys|]. simpl. lia.
Qed.

Lemma baseEndMs_maximum (pf : ParsedFile) :
  baseEndMs pf = maximum (finiteEndsOf pf).
Proof.
  unfold baseEndMs, finiteEnds, finiteEndsOf, finiteOf, mathMax.
  destruct (omap _ (cues pf)) as [|e es]; simpl; [done|].
  by rewrite fold_left_max_foldr.
Qed.

Lemma nadd_isDouble x y : isDouble (nadd x y).
Proof. destruct x, y; simpl; try done. apply toNumber_isDouble. Qed.

Lemma nadd_zero_r x : isDouble x → nadd x (Num 0) = x.
Proof. destruct x as [z| | |]; simpl; try done. by rewrite Z.add_0_r. Qed.

Lemma nadd_comm x y : nadd x y = nadd y x.
Proof. destruct x, y; simpl; try done. by rewrite Z.add_comm. Qed.

Lemma advance_chosenDuration (offsets : gmap nat number) i pf r :
  isDouble r → advance offsets i pf r = nadd r (chosenDuration offsets i pf).
Proof.
  intros Hr. unfold advance, chosenDuration. destruct (offsets !! i); [done|].
  rewrite baseEndMs_maximum.
  destruct (maximum (finiteEndsOf pf)) as [e|] eqn:He; [done|].
  unfold finiteEndsOf in He. unfold finiteEnds, finiteOf.
  destruct (omap _ (cues pf)); [|done].
  destruct (finiteStarts (cues pf)); by rewrite nadd_zero_r.
Qed.

Lemma advance_isDouble (offsets : gmap nat number) i pf r :
  isDouble r → isDouble (advance offsets i pf r).
Proof. intros Hr. rewrite advance_chosenDuration by done. apply nadd_isDouble. Qed.

Lemma shiftLoop_lookup (offsets : gmap nat number) files i r k :
  isDouble r → (k < length files)%nat →
  shiftLoop offsets i files r !! k
  = Some (fold_left nadd (take k (imap (λ j, chosenDuration offsets (i + j)) files)) r).
Proof.
  revert i r k. induction files as [|pf rest IH]; intros i r k Hr Hk; simpl in *; [lia|].
  destruct k as [|k]; simpl; [done|].
  rewrite IH by (by apply advance_isDouble || lia).
  rewrite advance_chosenDuration, Nat.add_0_r by done. do 3 f_equal.
  apply imap_ext. intros j x _. simpl. f_equal. lia.
Qed.

Lemma cumulativeShift_lookup (offsets : gmap nat number) files k :
  (k < length files)%nat →
  cumulativeShift offsets files !! k = Some (precedingDuration offsets files k).
Proof.
  intros Hk. unfold cumulativeShift. by rewrite shiftLoop_lookup.
Qed.

Lemma shiftAt_cumulativeShift (offsets : gmap nat number) files k :
  (k < length files)%nat →
  shiftAt (cumulativeShift offsets files) k = appliedShift offsets files k.
Proof.
  intros Hk. unfold shiftAt. by rewrite cumulativeShift_lookup.
Qed.

(** The running sum of integers whose partial sums are all safe is their
    sum. *)
Lemma fold_nadd_exact (ds : list Z) : ∀ acc,
  (∀ k, (k ≤ length ds)%nat → safeInteger (acc + sumZ (take k ds))) →
  fold_left nadd (Num <$> ds) (Num acc) = Num (acc + sumZ ds).
Proof.
  induction ds as [|d ds IH]; intros acc Hsafe.
  - simpl. f_equal. lia.
  - rewrite fmap_cons. cbn [fold_left nadd sumZ foldr].
    pose proof (Hsafe 1%nat ltac:(simpl; lia)) as H1.
    cbn [take sumZ foldr] in H1. rewrite Z.add_0_r in H1.
    rewrite toNumber_exact by done.
    rewrite IH.
    + f_equal. fold (sumZ ds). lia.
    + intros k Hk. specialize (Hsafe (S k) ltac:(simpl; lia)).
      cbn [take sumZ foldr] in Hsafe. fold (sumZ (take k ds)) in Hsafe.
      by rewrite Z.add_assoc in Hsafe.
Qed.

Lemma runningSum_exact (ds : list Z) :
  (∀ k, (k ≤ length ds)%nat → safeInteger (sumZ (take k ds))) →
  runningSum (Num <$> ds) = Num (sumZ ds).
Proof. intros Hsafe. unfold runningSum. by rewrite fold_nadd_exact. Qed.

(** ** The shifting pass *)

Lemma applyCue_fold i shift cs (st : list Cue * list string) :
  fold_left (applyCue i shift) cs st
  = (st.1 ++ omap (shifted i shift) cs,
     st.2 ++ omap (λ c, match shifted i (Num 0) c with
                        | Some _ => None
                        | None => Some (malformedWarning i)
                        end) cs).
Proof.
  revert st. induction cs as [|c cs IH]; intros [m w]; simpl.
  - by rewrite !app_nil_r.
  - rewrite IH. unfold applyCue, shifted. simpl.
    destruct (startMs c), (endMs c); simpl; by rewrite <- ?app_assoc.
Qed.

Lemma applyLoop_spec shifts files i (st : list Cue * list string) :
  applyLoop shifts i files st
  = (st.1 ++ concat (imap (λ j pf, emittedCues (i + j) (shiftAt shifts (i + j)) pf) files),
     st.2 ++ concat (imap (λ j pf, fileWarnings (i + j) pf) files)).
Proof.
  revert i st. induction files as [|pf rest IH]; intros i [m w]; simpl.
  - by rewrite !app_nil_r.
  - rewrite Nat.add_0_r.
    assert (Himap : ∀ (B : Type) (f : nat → ParsedFile → B),
      imap ((λ j, f (i + j)%nat) ∘ S) rest = imap (λ j, f (S i + j)%nat) rest).
    { intros B f. apply imap_ext. intros j x _. simpl. f_equal. lia. }
    rewrite (Himap _ (λ k pf, emittedCues k (shiftAt shifts k) pf)).
    rewrite (Himap _ (λ k pf, fileWarnings k pf)).
    unfold emittedCues at 1, fileWarnings at 1.
    destruct (cues pf) as [|c cs] eqn:Hc.
    + rewrite IH. simpl. by rewrite <- !app_assoc.
    + rewrite IH, applyCue_fold. simpl. by rewrite <- !app_assoc.
Qed.

(** The output of the shifting pass is the flat output of the specification. *)
Lemma applyLoop_flatOutput (offsets : gmap nat number) files :
  applyLoop (cumulativeShift offsets files) 0 files ([], [])
  = (flatOutput offsets files, concat (imap fileWarnings files)).
Proof.
  rewrite applyLoop_spec. simpl. f_equal.
  unfold flatOutput. f_equal. apply imap_ext. intros j pf Hj. simpl.
  rewrite shiftAt_cumulativeShift; [done|]. by eapply lookup_lt_Some.
Qed.

(** ** The final sort *)

#[local] Arguments ngtb : simpl never.
#[local] Arguments compareFn : simpl never.

Lemma nleb_numeric x y : nleb x y = true → x ≠ NaN ∧ y ≠ NaN.
Proof. by destruct x, y. Qed.

Lemma nltb_nleb x y : nltb x y = true → nleb x y = true.
Proof. destruct x, y; simpl; try done. rewrite Z.ltb_lt, Z.leb_le. lia. Qed.

Lemma nleb_nltb x y : nleb x y = true → nltb y x = false.
Proof. destruct x, y; simpl; try done. rewrite Z.ltb_ge, Z.leb_le. lia. Qed.

Lemma not_nltb_nleb x y : x ≠ NaN → y ≠ NaN → nltb y x = false → nleb x y = true.
Proof. destruct x, y; simpl; try done. rewrite Z.ltb_ge, Z.leb_le. lia. Qed.

(** The comparator is positive exactly when its second argument starts
    earlier. *)
Lemma compare_positive (x y : Cue) :
  numericStart x → numericStart y →
  ngtb (compareFn x y) (Num 0) = nltb (startMs y) (startMs x).
Proof.
  unfold numericStart, ngtb, compareFn.
  destruct (startMs x) as [a| | |], (startMs y) as [b| | |]; try done. intros _ _.
  cbn [nsub]. destruct (Z.ltb_spec b a) as [Hlt|Hge].
  - rewrite toNumber_positive by lia. simpl. symmetry. by apply Z.ltb_lt.
  - rewrite toNumber_nonpositive by lia. simpl. symmetry. by apply Z.ltb_ge.
Qed.

Lemma startLe_numeric (a b : Cue) : startLe a b → numericStart a ∧ numericStart b.
Proof. apply nleb_numeric. Qed.

Lemma startLe_trans (a b c : Cue) : startLe a b → startLe b c → startLe a c.
Proof. apply nleb_trans. Qed.

Lemma sortInsert_perm (x : Cue) l : sortInsert x l ≡ₚ x :: l.
Proof.
  induction l as [|y l IH]; simpl; [done|].
  destruct (ngtb (compareFn x y) (Num 0)); [|reflexivity]. rewrite IH. apply Permutation_swap.
Qed.

Lemma sort_perm l : sort l ≡ₚ l.
Proof.
  induction l as [|x l IH]; simpl; [done|]. by rewrite sortInsert_perm, IH.
Qed.

Lemma sortInsert_head (x : Cue) l :
  Forall (startLe x) l → sortInsert x l = x :: l.
Proof.
  destruct l as [|y l]; [done|]. intros [Hxy _]%Forall_cons. simpl.
  destruct (startLe_numeric x y Hxy) as [Hx Hy].
  rewrite compare_positive by done. by rewrite nleb_nltb.
Qed.

Lemma sortInsert_sorted (x : Cue) l :
  numericStart x → Forall numericStart l →
  StronglySorted startLe l → StronglySorted startLe (sortInsert x l).
Proof.
  intros Hx. induction l as [|y l IH]; intros Hnum Hsorted; simpl.
  - repeat constructor.
  - apply Forall_cons in Hnum as [Hy Hnum].
    apply StronglySorted_inv in Hsorted as [Hsorted Hy_le].
    rewrite compare_positive by done.
    destruct (nltb (startMs y) (startMs x)) eqn:Hlt.
    + constructor; [by apply IH|].
      rewrite sortInsert_perm. constructor; [|done]. by apply nltb_nleb.
    + assert (startLe x y) as Hxy by (by apply not_nltb_nleb).
      constructor; [by constructor|].
      constructor; [done|].
      eapply Forall_impl; [exact Hy_le|]. intros z. by apply startLe_trans.
Qed.

Lemma sort_sorted l : Forall numericStart l → StronglySorted startLe (sort l).
Proof.
  induction l as [|x l IH]; intros Hnum; simpl; [constructor|].
  apply Forall_cons in Hnum as [Hx Hnum].
  apply sortInsert_sorted; [done | by rewrite sort_perm | by apply IH].
Qed.

(** A sequence that is already in order is left as it is. *)
Lemma sort_sorted_id l : StronglySorted startLe l → sort l = l.
Proof.
  induction 1 as [|x l Hsorted IH Hx]; simpl; [done|].
  rewrite IH. by apply sortInsert_head.
Qed.

Lemma filter_sortInsert (P : Cue → Prop) `{!∀ c, Decision (P c)} (x : Cue) l :
  numericStart x → Forall numericStart l → StronglySorted startLe l →
  filter P (sortInsert x l)
  = if decide (P x) then sortInsert x (filter P l) else filter P l.
Proof.
  intros Hx. induction l as [|y l IH]; intros Hnum Hsorted; simpl.
  - rewrite filter_cons, filter_nil. by case_decide.
  - apply Forall_cons in Hnum as [Hy Hnum].
    apply StronglySorted_inv in Hsorted as [Hsorted Hy_le].
    rewrite compare_positive by done.
    destruct (nltb (startMs y) (startMs x)) eqn:Hlt.
    + rewrite !(filter_cons _ y), IH by done.
      destruct (decide (P x)), (decide (P y)); try done.
      simpl. rewrite compare_positive by done. by rewrite Hlt.
    + rewrite (filter_cons _ x). destruct (decide (P x)); [|done].
      rewrite sortInsert_head; [done|].
      assert (startLe x y) as Hxy by (by apply not_nltb_nleb).
      apply Forall_forall. intros z [_ Hz]%list_elem_of_filter.
      apply elem_of_cons in Hz as [->|Hz]; [done|].
      eapply startLe_trans; [exact Hxy|].
      by eapply Forall_forall in Hy_le.
Qed.

(** Sorting commutes with taking a sub-sequence: this is stability. *)
Lemma filter_sort (P : Cue → Prop) `{!∀ c, Decision (P c)} l :
  Forall numericStart l → filter P (sort l) = sort (filter P l).
Proof.
  induction l as [|x l IH]; intros Hnum; simpl; [done|].
  apply Forall_cons in Hnum as [Hx Hnum].
  rewrite filter_sortInsert; [|done|by rewrite sort_perm|by apply sort_sorted].
  rewrite filter_cons, IH by done. by case_decide.
Qed.

(** ** The flat output *)

Lemma nadd_not_NaN z x : x ≠ NaN → nadd (Num z) x ≠ NaN.
Proof. destruct x; simpl; try done. intros _. apply toNumber_not_NaN. Qed.

Lemma orZero_not_NaN x : orZero x ≠ NaN.
Proof. by destruct x as [[| |]| | |]. Qed.

Lemma shifted_Some i shift c c' :
  shifted i shift c = Some c' →
  sourceFileIndex c' = Some i ∧ (shift ≠ NaN → numericStart c').
Proof.
  unfold shifted. destruct (startMs c), (endMs c); intros [= <-]; simpl.
  all: split; [done | by apply nadd_not_NaN].
Qed.

Lemma emittedCues_numeric i shift pf :
  shift ≠ NaN → Forall numericStart (emittedCues i shift pf).
Proof.
  intros Hshift. apply Forall_forall. intros c' (c & _ & Hc)%list_elem_of_omap.
  apply shifted_Some in Hc as [_ ?]. auto.
Qed.

(** No cue of the output starts at NaN. *)
Lemma flatOutput_numeric (offsets : gmap nat number) files :
  Forall numericStart (flatOutput offsets files).
Proof.
  unfold flatOutput.
  assert (∀ g : nat → ParsedFile → list Cue,
    (∀ j pf, Forall numericStart (g j pf)) →
    Forall numericStart (concat (imap g files))) as Hall.
  { induction files as [|pf rest IH]; intros g Hg; simpl; [constructor|].
    apply Forall_app. split; [apply Hg|]. apply IH. intros j pf'. apply Hg. }
  apply Hall. intros j pf. apply emittedCues_numeric, orZero_not_NaN.
Qed.

Lemma filter_fromFile_emitted i j shift pf :
  filter (fromFile i) (emittedCues j shift pf)
  = if decide (i = j) then emittedCues j shift pf else [].
Proof.
  unfold emittedCues. induction (cues pf) as [|c cs IH]; csimpl.
  - by case_decide.
  - destruct (shifted j shift c) as [c'|] eqn:Hc; [|done].
    apply shifted_Some in Hc as [Hidx _].
    rewrite filter_cons, IH.
    destruct (decide (i = j)) as [->|Hne].
    + by rewrite decide_True.
    + rewrite decide_False; [done|]. unfold fromFile. congruence.
Qed.

Lemma filter_fromFile_concat (f : nat → number) i files k :
  filter (fromFile i) (concat (imap (λ j pf, emittedCues (k + j) (f (k + j)%nat) pf) files))
  = if decide (k ≤ i)%nat
    then match files !! (i - k)%nat with
         | Some pf => emittedCues i (f i) pf
         | None => []
         end
    else [].
Proof.
  revert k. induction files as [|pf rest IH]; intros k; simpl.
  - by case_decide.
  - rewrite filter_app, filter_fromFile_emitted, Nat.add_0_r.
    replace (imap ((λ j pf0, emittedCues (k + j) (f (k + j)%nat) pf0) ∘ S) rest)
      with (imap (λ j pf0, emittedCues (S k + j) (f (S k + j)%nat) pf0) rest).
    2:{ apply imap_ext. intros j x _. simpl. by rewrite Nat.add_succ_r. }
    rewrite IH.
    destruct (decide (i = k)) as [->|Hne].
    + rewrite Nat.sub_diag. simpl.
      rewrite decide_False by lia. rewrite decide_True by lia. by rewrite app_nil_r.
    + simpl. destruct (decide (S k ≤ i)%nat) as [Hle|Hgt].
      * rewrite decide_True by lia.
        replace (i - k)%nat with (S (i - S k)) by lia. done.
      * by rewrite decide_False by lia.
Qed.

Lemma filter_fromFile_flatOutput (offsets : gmap nat number) files i :
  filter (fromFile i) (flatOutput offsets files)
  = match files !! i with
    | Some pf => emittedCues i (appliedShift offsets files i) pf
    | None => []
    end.
Proof.
  unfold flatOutput.
  pose proof (filter_fromFile_concat (appliedShift offsets files) i files 0) as H.
  simpl in H. rewrite H. by rewrite Nat.sub_0_r.
Qed.

(** The cues of the result, before validation. *)
Lemma mergedCues_spec files options :
  mergedCues (mergeParsedFilesSequential files options)
  = if default false (sortFinalByStart options)
    then sort (flatOutput (default ∅ (perFileOffsetMs options)) files)
    else flatOutput (default ∅ (perFileOffsetMs options)) files.
Proof.
  unfold mergeParsedFilesSequential. destruct files as [|pf rest].
  - simpl. by destruct (default false _).
  - rewrite applyLoop_flatOutput. done.
Qed.

End SeqFacts.

Module SeqClaims.
Import Sequential SeqSpec NumberFacts SeqFacts.

(** ** Overrides *)

Lemma chosenDuration_ext (m1 m2 : gmap nat number) k pf :
  m1 !! k = m2 !! k → chosenDuration m1 k pf = chosenDuration m2 k pf.
Proof. unfold chosenDuration. by intros ->. Qed.

Lemma precedingDuration_ext (m1 m2 : gmap nat number) files j :
  (∀ k, (k < j)%nat → m1 !! k = m2 !! k) →
  precedingDuration m1 files j = precedingDuration m2 files j.
Proof.
  intros Hagree. unfold precedingDuration. f_equal. apply list_eq. intros k.
  destruct (decide (k < j)%nat) as [Hlt|Hge].
  - rewrite !lookup_take_lt, !list_lookup_imap by done.
    destruct (files !! k) as [pf|]; simpl; [|done].
    f_equal. apply chosenDuration_ext. by apply Hagree.
  - by rewrite !lookup_take_ge by lia.
Qed.

Lemma filter_fromFile_merged files options i :
  filter (fromFile i) (mergedCues (mergeParsedFilesSequential files options))
  = (if default false (sortFinalByStart options) then sort else id)
      (match files !! i with
       | Some pf =>
           emittedCues i (appliedShift (default ∅ (perFileOffsetMs options)) files i) pf
       | None => []
       end).
Proof.
  rewrite mergedCues_spec. destruct (default false (sortFinalByStart options)).
  - rewrite filter_sort by apply flatOutput_numeric.
    by rewrite filter_fromFile_flatOutput.
  - by rewrite filter_fromFile_flatOutput.
Qed.

(** C1 (amended).  File [i] is shifted by the sum of the chosen durations of
    the files before it, added one after the other as the code adds
    doubles, and by 0 when that sum is NaN: the sum is entry [i] of the
    array of cumulative shifts, the cues of the output that come from file
    [i] are its finite cues moved by the sum (or by 0), and the sum is 0
    for file 0.  When these durations are finite and their sums, taken one
    after the other, stay within the integers that doubles hold exactly,
    the sum is their sum as integers. *)
Theorem shift_is_sum_of_chosen_durations files options i pf :
  files !! i = Some pf →
  cumulativeShift (default ∅ (perFileOffsetMs options)) files !! i
    = Some (precedingDuration (default ∅ (perFileOffsetMs options)) files i)
  ∧ filter (fromFile i) (mergedCues (mergeParsedFilesSequential files options))
    ≡ₚ emittedCues i
         (orZero (precedingDuration (default ∅ (perFileOffsetMs options)) files i)) pf
  ∧ precedingDuration (default ∅ (perFileOffsetMs options)) files 0 = Num 0
  ∧ ∀ ds,
      take i (imap (chosenDuration (default ∅ (perFileOffsetMs options))) files)
        = Num <$> ds →
      (∀ k, (k ≤ i)%nat → safeInteger (sumZ (take k ds))) →
      precedingDuration (default ∅ (perFileOffsetMs options)) files i = Num (sumZ ds)
      ∧ filter (fromFile i) (mergedCues (mergeParsedFilesSequential files options))
        ≡ₚ emittedCues i (Num (sumZ ds)) pf.
Proof.
  intros Hi. pose proof (lookup_lt_Some _ _ _ Hi) as Hlt.
  assert (filter (fromFile i) (mergedCues (mergeParsedFilesSequential files options))
          ≡ₚ emittedCues i
               (orZero (precedingDuration (default ∅ (perFileOffsetMs options)) files i))
               pf) as Hcues.
  { rewrite filter_fromFile_merged, Hi.
    destruct (default false (sortFinalByStart options)); [apply sort_perm | done]. }
  split_and!; [by apply cumulativeShift_lookup | done | done |].
  intros ds Hds Hsafe.
  assert (precedingDuration (default ∅ (perFileOffsetMs options)) files i
          = Num (sumZ ds)) as Hsum.
  { assert (length ds = i) as Hlen.
    { rewrite <- (length_fmap Num), <- Hds, length_take, length_imap. lia. }
    unfold precedingDuration. rewrite Hds. apply runningSum_exact.
    intros k Hk. apply Hsafe. lia. }
  split; [done|]. rewrite Hsum in Hcues.
  by replace (orZero (Num (sumZ ds))) with (Num (sumZ ds)) in Hcues
    by (by destruct (sumZ ds)).
Qed.

Lemma shift_is_sum_of_chosen_durations_witness :
  cumulativeShift ∅ Examples.threeFiles !! 2%nat = Some (Num 3000)
  ∧ filter (fromFile 2)
      (mergedCues (mergeParsedFilesSequential Examples.threeFiles noOptions))
    ≡ₚ [ {| startMs := Num 3000; endMs := Num 3500; text := "C";
            sourceFileIndex := Some 2%nat |} ]
  ∧ precedingDuration ∅ Examples.threeFiles 2 = Num (sumZ [1000; 2000]).
Proof.
  destruct (shift_is_sum_of_chosen_durations Examples.threeFiles noOptions 2
              (Examples.file [Examples.cue 0 500 "C"]) eq_refl)
    as (Hshift & Hcues & _ & Hexact).
  split_and!; [exact Hshift | exact Hcues |].
  refine (proj1 (Hexact [1000; 2000] eq_refl _)).
  intros [|[|[|k]]] Hk; vm_compute; (discriminate || lia).
Defined.

(** The claim C1 as it is written fails for an override that is NaN: the
    durations chosen for the files before file 1 add up to NaN, and the
    cues of file 1 are moved by 0, not by that sum. *)
Lemma nan_override_shift_is_zero :
  chosenDuration {[ 0%nat := NaN ]} 0 (Examples.file [Examples.cue 0 1000 "A"]) = NaN
  ∧ precedingDuration {[ 0%nat := NaN ]} Examples.twoFiles 1 = NaN
  ∧ filter (fromFile 1)
      (mergedCues (mergeParsedFilesSequential Examples.twoFiles Examples.nanOverride))
    = [ {| startMs := Num 0; endMs := Num 1000; text := "B";
           sourceFileIndex := Some 1%nat |} ]
  ∧ ¬ (filter (fromFile 1)
         (mergedCues (mergeParsedFilesSequential Examples.twoFiles Examples.nanOverride))
       ≡ₚ emittedCues 1 (precedingDuration {[ 0%nat := NaN ]} Examples.twoFiles 1)
            (Examples.file [Examples.cue 0 1000 "B"])).
Proof.
  split_and!; try (vm_compute; reflexivity).
  intros H. vm_compute in H. apply Permutation_length_1 in H. discriminate.
Qed.

(** Beyond the safe integers the shift is the rounded sum: after files that
    last 2^53 ms and 1 ms, the third file is moved by 2^53, not 2^53 + 1. *)
Example shift_rounds_beyond_safe_integers :
  cumulativeShift ∅ Examples.longFiles
  = [Num 0; Num 9007199254740992; Num 9007199254740992]
  ∧ sumZ [9007199254740992; 1] = 9007199254740993.
Proof. split; vm_compute; reflexivity. Qed.

(** C2.  An override for file [i] leaves the cues of file [i], and of every
    file before it, as they are without the override. *)
Theorem override_leaves_own_cues files (m : gmap nat number) use srt i v j :
  (j ≤ i)%nat →
  filter (fromFile j)
    (mergedCues (mergeParsedFilesSequential files
       {| perFileOffsetMs := Some (<[i:=v]> m); useEffectiveEndMs := use;
          sortFinalByStart := srt |}))
  = filter (fromFile j)
      (mergedCues (mergeParsedFilesSequential files
         {| perFileOffsetMs := Some (delete i m); useEffectiveEndMs := use;
            sortFinalByStart := srt |})).
Proof.
  intros Hj. rewrite !filter_fromFile_merged. simpl.
  destruct (files !! j) as [pf|]; [|done]. unfold appliedShift.
  rewrite (precedingDuration_ext (<[i:=v]> m) (delete i m) files j); [done|].
  intros k Hk. rewrite lookup_insert_ne, lookup_delete_ne by lia. done.
Qed.

Lemma override_leaves_own_cues_witness :
  filter (fromFile 0)
    (mergedCues (mergeParsedFilesSequential Examples.twoFiles
       {| perFileOffsetMs := Some (<[0%nat:=Num 10000]> ∅); useEffectiveEndMs := None;
          sortFinalByStart := None |}))
  = filter (fromFile 0)
      (mergedCues (mergeParsedFilesSequential Examples.twoFiles
         {| perFileOffsetMs := Some (delete 0%nat ∅); useEffectiveEndMs := None;
            sortFinalByStart := None |})).
Proof.
  apply (override_leaves_own_cues Examples.twoFiles ∅ None None 0 (Num 10000) 0). lia.
Defined.

(** C3.  On the empty list of files the merger returns a result with no
    cues, the error no_files_uploaded and the warning no_files. *)
Theorem empty_input_result options :
  mergedCues (mergeParsedFilesSequential [] options) = []
  ∧ "no_files_uploaded" ∈ errors (mergeParsedFilesSequential [] options)
  ∧ "no_files" ∈ warnings (mergeParsedFilesSequential [] options).
Proof. simpl. repeat split; apply list_elem_of_singleton; done. Qed.

(** C4.  With sortFinalByStart the cues are in non-decreasing order of start
    time, and they are the flat output rearranged so that cues with the same
    start keep their order; without it (false or absent) the cues are the
    flat output: file order, then input cue order. *)
Theorem sorted_or_input_order files offs use :
  (StronglySorted startLe
     (mergedCues (mergeParsedFilesSequential files
        {| perFileOffsetMs := offs; useEffectiveEndMs := use;
           sortFinalByStart := Some true |}))
   ∧ mergedCues (mergeParsedFilesSequential files
        {| perFileOffsetMs := offs; useEffectiveEndMs := use;
           sortFinalByStart := Some true |})
     ≡ₚ flatOutput (default ∅ offs) files
   ∧ ∀ k, filter (startsAt k)
            (mergedCues (mergeParsedFilesSequential files
               {| perFileOffsetMs := offs; useEffectiveEndMs := use;
                  sortFinalByStart := Some true |}))
          = filter (startsAt k) (flatOutput (default ∅ offs) files))
  ∧ mergedCues (mergeParsedFilesSequential files
       {| perFileOffsetMs := offs; useEffectiveEndMs := use;
          sortFinalByStart := Some false |})
    = flatOutput (default ∅ offs) files
  ∧ mergedCues (mergeParsedFilesSequential files
       {| perFileOffsetMs := offs; useEffectiveEndMs := use;
          sortFinalByStart := None |})
    = flatOutput (default ∅ offs) files.
Proof.
  rewrite !mergedCues_spec. simpl.
  pose proof (flatOutput_numeric (default ∅ offs) files) as Hnum.
  repeat split; [by apply sort_sorted | apply sort_perm |].
  intros k. rewrite filter_sort by done. apply sort_sorted_id.
  induction (flatOutput (default ∅ offs) files) as [|c l IH]; [constructor|].
  rewrite filter_cons. apply Forall_cons in Hnum as [Hc_num Hnum].
  case_decide as Hc; [|by apply IH].
  constructor; [by apply IH|].
  apply Forall_forall. intros c' [Hc' _]%list_elem_of_filter.
  unfold startsAt in Hc, Hc'. unfold startLe. rewrite Hc'. rewrite <- Hc.
  by apply nleb_refl.
Qed.

End SeqClaims.

Module ValidationClaims.
Import Sequential SeqSpec SeqFacts.

(** ** The validation pass *)

Lemma validateLoop_spec prev l (w e : list string) :
  validateLoop prev l (w, e)
  = (w ++ validationWarnings prev (scannedPrefix l),
     e ++ if forallb (λ c, negb (negativeCue c)) l then [] else ["negative_timestamps"]).
Proof.
  revert prev w. induction l as [|c l IH]; intros prev w.
  - simpl. by rewrite !app_nil_r.
  - cbn [validateLoop scannedPrefix validationWarnings forallb fst snd].
    fold (negativeCue c). destruct (negativeCue c); cbn [negb andb].
    + by rewrite app_nil_r.
    + rewrite IH. f_equal. cbn [validationWarnings].
      unfold positionWarnings, overlapping, endBeforeStart. cbn [fst snd].
      destruct prev as [p|].
      * destruct (nltb (endMs c) (startMs c)),
          (ngtb (endMs p) (startMs c)
           && bool_decide (sourceFileIndex p = sourceFileIndex c));
          simpl; by rewrite <- ?app_assoc.
      * destruct (nltb (endMs c) (startMs c)); simpl; by rewrite <- ?app_assoc.
Qed.

(** ** Counting warning codes *)

Lemma occurrences_app w l1 l2 :
  occurrences w (l1 ++ l2) = (occurrences w l1 + occurrences w l2)%nat.
Proof. unfold occurrences. by rewrite filter_app, length_app. Qed.

Lemma occurrences_other w l : Forall (λ x, x ≠ w) l → occurrences w l = 0%nat.
Proof.
  unfold occurrences. induction 1 as [|x l Hx _ IH]; [done|].
  by rewrite filter_cons_False.
Qed.

Lemma file_code_neq (w rest : string) (c : ascii) :
  c ≠ "f"%char → "file_" +:+ rest ≠ String c w.
Proof. intros Hc [= Hf _]. by apply Hc. Qed.

Lemma fileWarnings_prefixed i pf :
  Forall (λ x, ∃ rest, x = "file_" +:+ rest) (fileWarnings i pf).
Proof.
  unfold fileWarnings. destruct (cues pf) as [|c cs].
  - repeat constructor. by eexists.
  - apply Forall_forall. intros x (c' & _ & Hx)%list_elem_of_omap.
    destruct (shifted i (Num 0) c'); simplify_eq. by eexists.
Qed.

Lemma occurrences_fileWarnings w c files :
  c ≠ "f"%char →
  occurrences (String c w) (concat (imap fileWarnings files)) = 0%nat.
Proof.
  intros Hc. apply occurrences_other, Forall_concat, Forall_forall.
  intros ws (i & pf & -> & _)%elem_of_lookup_imap.
  eapply Forall_impl; [apply fileWarnings_prefixed|].
  intros x [rest ->]. by apply file_code_neq.
Qed.

Lemma occurrences_endBeforeStart prev l :
  occurrences "cue_end_before_start" (validationWarnings prev l)
  = length (filter endBeforeStart l).
Proof.
  revert prev. induction l as [|c l IH]; intros prev; simpl; [done|].
  rewrite !occurrences_app, IH, filter_cons.
  unfold positionWarnings. rewrite occurrences_app.
  destruct (endBeforeStart c), prev as [p|]; simpl;
    try destruct (overlapping (p, c)); done.
Qed.

Lemma occurrences_overlap prev l :
  occurrences "overlap_detected" (validationWarnings prev l)
  = length (filter overlapping (pairsAfter prev l)).
Proof.
  revert prev. induction l as [|c l IH]; intros prev.
  - by destruct prev.
  - simpl. rewrite occurrences_app, IH. unfold positionWarnings.
    rewrite occurrences_app.
    destruct prev as [p|]; simpl.
    + rewrite filter_cons.
      destruct (endBeforeStart c), (overlapping (p, c)); done.
    + by destruct (endBeforeStart c).
Qed.

(** The warnings of a merge: those of the shifting pass, then those of the
    validation pass over the cues before the first negative one. *)
Lemma warnings_spec files options :
  files ≠ [] →
  warnings (mergeParsedFilesSequential files options)
  = concat (imap fileWarnings files)
    ++ validationWarnings None
         (scannedPrefix (mergedCues (mergeParsedFilesSequential files options))).
Proof.
  intros Hne. rewrite mergedCues_spec.
  unfold mergeParsedFilesSequential. destruct files as [|pf rest]; [done|].
  rewrite applyLoop_flatOutput. cbn [fst snd warnings].
  by rewrite validateLoop_spec.
Qed.

Lemma scannedPrefix_all l :
  Forall (λ c, negativeCue c = false) l → scannedPrefix l = l.
Proof. induction 1 as [|c l Hc _ IH]; simpl; [done|]. by rewrite Hc, IH. Qed.

(** C5 (amended).  Every cue that ends before it starts and lies before the
    first cue with a negative time contributes one cue_end_before_start
    warning, and the scan goes on past such a cue; when no cue of the output
    is negative, that is every cue of the output that ends before it
    starts. *)
Theorem end_before_start_warnings files options :
  occurrences "cue_end_before_start"
    (warnings (mergeParsedFilesSequential files options))
  = length (filter endBeforeStart
      (scannedPrefix (mergedCues (mergeParsedFilesSequential files options))))
  ∧ (Forall (λ c, negativeCue c = false)
       (mergedCues (mergeParsedFilesSequential files options)) →
     occurrences "cue_end_before_start"
       (warnings (mergeParsedFilesSequential files options))
     = length (filter endBeforeStart
         (mergedCues (mergeParsedFilesSequential files options)))).
Proof.
  assert (occurrences "cue_end_before_start"
    (warnings (mergeParsedFilesSequential files options))
  = length (filter endBeforeStart
      (scannedPrefix (mergedCues (mergeParsedFilesSequential files options)))))
    as Hcount.
  { destruct (decide (files = [])) as [->|Hne]; [done|].
    rewrite warnings_spec by done.
    rewrite occurrences_app, occurrences_fileWarnings by done.
    apply occurrences_endBeforeStart. }
  split; [done|]. intros Hall. by rewrite Hcount, scannedPrefix_all.
Qed.

Lemma end_before_start_warnings_witness :
  occurrences "cue_end_before_start"
    (warnings (mergeParsedFilesSequential Examples.overlapFile noOptions))
  = 1%nat.
Proof.
  refine (proj2 (end_before_start_warnings Examples.overlapFile noOptions) _).
  repeat constructor.
Defined.

(** The claim C5 as it is written fails after a negative cue: the inverted
    cue that follows it is in the output and gets no warning. *)
Lemma end_before_start_after_negative :
  occurrences "cue_end_before_start"
    (warnings (mergeParsedFilesSequential Examples.negativeThenInverted noOptions))
  ≠ length (filter endBeforeStart
      (mergedCues (mergeParsedFilesSequential Examples.negativeThenInverted noOptions))).
Proof. vm_compute. discriminate. Qed.

(** C6 (amended).  There is one overlap_detected warning for each pair of
    neighbours, among the cues before the first negative one, whose earlier
    cue ends after the later one starts and that carry the same
    sourceFileIndex, and no other; when no cue of the output is negative,
    the pairs are those of the whole output. *)
Theorem overlap_warnings files options :
  occurrences "overlap_detected"
    (warnings (mergeParsedFilesSequential files options))
  = length (filter overlapping
      (adjacentPairs
         (scannedPrefix (mergedCues (mergeParsedFilesSequential files options)))))
  ∧ (Forall (λ c, negativeCue c = false)
       (mergedCues (mergeParsedFilesSequential files options)) →
     occurrences "overlap_detected"
       (warnings (mergeParsedFilesSequential files options))
     = length (filter overlapping
         (adjacentPairs (mergedCues (mergeParsedFilesSequential files options))))).
Proof.
  assert (occurrences "overlap_detected"
    (warnings (mergeParsedFilesSequential files options))
  = length (filter overlapping
      (adjacentPairs
         (scannedPrefix (mergedCues (mergeParsedFilesSequential files options))))))
    as Hcount.
  { destruct (decide (files = [])) as [->|Hne]; [done|].
    rewrite warnings_spec by done.
    rewrite occurrences_app, occurrences_fileWarnings by done.
    apply (occurrences_overlap None). }
  split; [done|]. intros Hall. by rewrite Hcount, scannedPrefix_all.
Qed.

Lemma overlap_warnings_witness :
  occurrences "overlap_detected"
    (warnings (mergeParsedFilesSequential Examples.overlapFile noOptions))
  = 1%nat.
Proof.
  refine (proj2 (overlap_warnings Examples.overlapFile noOptions) _).
  repeat constructor.
Defined.

(** The claim C6 as it is written fails after a negative cue: the two cues
    that follow it overlap, come from the same file, and get no warning. *)
Lemma overlap_after_negative :
  occurrences "overlap_detected"
    (warnings (mergeParsedFilesSequential Examples.negativeThenOverlap noOptions))
  ≠ length (filter overlapping
      (adjacentPairs
         (mergedCues (mergeParsedFilesSequential Examples.negativeThenOverlap noOptions)))).
Proof. vm_compute. discriminate. Qed.

End ValidationClaims.

(** * Properties of the permissive parser *)

Module ParserClaims.
Import ParserSpec.

(** ** Text lines are stored trimmed *)

Lemma parseLine_trimmed lines st raw :
  raw ∈ lines →
  Forall (trimmedLineOf lines) (textLines st) →
  Forall (λ b, Forall (trimmedLineOf lines) (texts b)) (blocks st) →
  Forall (trimmedLineOf lines) (textLines (parseLine st raw))
  ∧ Forall (λ b, Forall (trimmedLineOf lines) (texts b)) (blocks (parseLine st raw)).
Proof.
  intros Hraw Htexts Hblocks.
  assert (trimmedLineOf lines (Str.trim raw)) as Hline by (by exists raw).
  assert (Forall (trimmedLineOf lines) (textLines st ++ [Str.trim raw])) as Hpush.
  { apply Forall_app. split; [done|]. by apply Forall_singleton. }
  assert (Forall (trimmedLineOf lines)
            (if bool_decide (Str.trim raw = EmptyString)
             then textLines st ++ [EmptyString] else textLines st ++ [Str.trim raw]))
    as Hpush'.
  { case_bool_decide as Hblank; [|done]. by rewrite <- Hblank. }
  unfold parseLine.
  destruct (Str.isDigits (Str.trim raw)).
  - cbn [textLines blocks]. destruct (currentBlock st) as [cb|]; [|done].
    destruct (negb _ || negb _); [|done]. split; [constructor|].
    apply Forall_app. split; [done|]. by apply Forall_singleton.
  - destruct (expectingTimestamp st && looksLikeTimestamp (Str.trim raw)).
    + by destruct (currentBlock st).
    + destruct (currentBlock st) as [cb|].
      * destruct (isReadingText st); [done|]. by destruct (negb (expectingTimestamp st)).
      * by destruct (negb (expectingIndex st)).
Qed.

Lemma parseLines_trimmed lines : ∀ seen st,
  seen ⊆ lines →
  Forall (trimmedLineOf lines) (textLines st) →
  Forall (λ b, Forall (trimmedLineOf lines) (texts b)) (blocks st) →
  Forall (trimmedLineOf lines) (textLines (fold_left parseLine seen st))
  ∧ Forall (λ b, Forall (trimmedLineOf lines) (texts b))
      (blocks (fold_left parseLine seen st)).
Proof.
  induction seen as [|raw seen IH]; intros st Hsub Htexts Hblocks; [done|].
  cbn [fold_left].
  destruct (parseLine_trimmed lines st raw) as [Ht Hb]; [apply Hsub; left|done..|].
  apply IH; [|done..]. intros x Hx. apply Hsub. by right.
Qed.

(** C7, at the failing input.  The caption line with surrounding white space
    is stored without it, in a block that is not the last; the blank line
    after it is kept as an empty string and does not end the block.  On any
    input, every text line of every block is a line of the input as [trim]
    leaves it, not the line as it is. *)
Theorem padded_caption_line_stored_trimmed :
  permissiveParseSrt RawExamples.paddedCaptions
  = [ {| origIndex := Some (Num 1); tsRaw := "00:00:01,000 --> 00:00:02,000";
         texts := ["Hello"; EmptyString; "World"] |};
      {| origIndex := Some (Num 2); tsRaw := "00:00:03,000 --> 00:00:04,000";
         texts := ["Bye"] |} ]
  ∧ Str.splitLines RawExamples.paddedCaptions !! 2%nat = Some "  Hello  "
  ∧ ∀ content,
      Forall (λ b, Forall (trimmedLineOf (Str.splitLines content)) (texts b))
        (permissiveParseSrt content).
Proof.
  split_and!; [reflexivity..|].
  intros content. unfold permissiveParseSrt, parseLines, finishParse.
  destruct (parseLines_trimmed (Str.splitLines content) (Str.splitLines content)
              initialParserState) as [Ht Hb]; [done|constructor..|].
  destruct (currentBlock _); [|done].
  apply Forall_app. split; [done|]. by apply Forall_singleton.
Qed.

(** The older copy of the parser ends the block at the blank line, and the
    caption line after it is lost. *)
Lemma legacy_blank_line_ends_block :
  Legacy.permissiveParseSrt RawExamples.paddedCaption
  = [ {| origIndex := Some (Num 1); tsRaw := "00:00:01,000 --> 00:00:02,000";
         texts := ["Hello"] |} ].
Proof. reflexivity. Qed.

End ParserClaims.

(** * Properties of the raw-text merger *)

Section RawMergerClaims.

Variable parseTimestampToMs : string → option Z.
Variable shiftTimestampLine : string → Z → option string.
Variable makeFallbackTimestamp : Z → Z → Z → string.

#[local] Abbreviation processBlock := (processBlock parseTimestampToMs shiftTimestampLine makeFallbackTimestamp).
#[local] Abbreviation processFile := (processFile parseTimestampToMs shiftTimestampLine makeFallbackTimestamp).
#[local] Abbreviation mergeLoop := (mergeLoop parseTimestampToMs shiftTimestampLine makeFallbackTimestamp).
#[local] Abbreviation mergeSrtFiles := (mergeSrtFiles parseTimestampToMs shiftTimestampLine makeFallbackTimestamp).
#[local] Abbreviation shiftedOrFallback := (shiftedOrFallback shiftTimestampLine makeFallbackTimestamp).

(** What one block adds to the state. *)
Lemma processBlock_spec fileName st cur b :
  ∃ mb d,
    mergedBlocks (processBlock fileName (st, cur) b).1 = mergedBlocks st ++ [mb]
    ∧ blockTexts mb = emittedTexts b
    ∧ index mb = globalIndex st
    ∧ shiftedOrFallback mb
    ∧ globalIndex (processBlock fileName (st, cur) b).1 = S (globalIndex st)
    ∧ inputCues (processBlock fileName (st, cur) b).1 = inputCues st
    ∧ diags (processBlock fileName (st, cur) b).1 = diags st ++ d
    ∧ parseIssues (processBlock fileName (st, cur) b).1
      = (parseIssues st + fallbackCount d)%nat.
Proof.
  unfold processBlock. cbn [fst snd].
  destruct (shiftTimestampLine (tsRaw b) (cumulativeMs st)) as [[|c s]|] eqn:Hshift;
    cbn [truthy].
  2:{ destruct (bool_decide (normalizeSpaces (String c s) ≠ normalizeSpaces (tsRaw b)));
        cbn [fst snd mergedBlocks globalIndex inputCues diags parseIssues].
      - rewrite bool_decide_eq_true_2 by done.
        eexists _, [_]. split_and!; try done.
        left. by eexists _, _.
      - rewrite bool_decide_eq_false_2 by (intros H; by apply H).
        eexists _, []. rewrite app_nil_r. split_and!; try done; try (simpl; lia).
        left. by eexists _, _. }
  all: cbn [fst snd mergedBlocks globalIndex inputCues diags parseIssues].
  all: rewrite bool_decide_eq_true_2 by done.
  all: eexists _, [_]; split_and!; try done.
  all: try (right; by eexists _, _).
  all: try (unfold fallbackCount; rewrite filter_cons_True by done; simpl; lia).
Qed.

Lemma fallbackCount_app d1 d2 :
  fallbackCount (d1 ++ d2) = (fallbackCount d1 + fallbackCount d2)%nat.
Proof. unfold fallbackCount. by rewrite filter_app, length_app. Qed.

(** What the blocks of one file add to the state. *)
Lemma processBlock_fold fileName bs : ∀ st cur,
  ∃ mbs d,
    mergedBlocks (fold_left (processBlock fileName) bs (st, cur)).1 = mergedBlocks st ++ mbs
    ∧ blockTexts <$> mbs = emittedTexts <$> bs
    ∧ index <$> mbs = seq (globalIndex st) (length bs)
    ∧ Forall shiftedOrFallback mbs
    ∧ globalIndex (fold_left (processBlock fileName) bs (st, cur)).1
      = (globalIndex st + length bs)%nat
    ∧ inputCues (fold_left (processBlock fileName) bs (st, cur)).1 = inputCues st
    ∧ diags (fold_left (processBlock fileName) bs (st, cur)).1 = diags st ++ d
    ∧ parseIssues (fold_left (processBlock fileName) bs (st, cur)).1
      = (parseIssues st + fallbackCount d)%nat.
Proof.
  induction bs as [|b bs IH]; intros st cur; cbn [fold_left].
  - exists [], []. rewrite !app_nil_r. simpl. repeat split; try done; lia.
  - destruct (processBlock_spec fileName st cur b)
      as (mb & d & Hm & Ht & Hi & Hts & Hg & Hin & Hd & Hp).
    destruct (processBlock fileName (st, cur) b) as [st1 cur1]. cbn [fst] in *.
    destruct (IH st1 cur1) as (mbs & d' & Hm' & Ht' & Hi' & Hts' & Hg' & Hin' & Hd' & Hp').
    exists (mb :: mbs), (d ++ d').
    rewrite Hm', Hm, Hg', Hg, Hin', Hin, Hd', Hd, Hp', Hp, fallbackCount_app, <- !app_assoc.
    rewrite !fmap_cons, Ht, Ht', Hi, Hi', Hg. cbn [length seq app].
    split_and!; try done; try lia. by constructor.
Qed.

(** What one file adds to the state. *)
Lemma processFile_spec st file :
  ∃ mbs d,
    mergedBlocks (processFile st file) = mergedBlocks st ++ mbs
    ∧ blockTexts <$> mbs = emittedTexts <$> permissiveParseSrt (content file)
    ∧ index <$> mbs = seq (globalIndex st) (length (permissiveParseSrt (content file)))
    ∧ Forall shiftedOrFallback mbs
    ∧ globalIndex (processFile st file)
      = (globalIndex st + length (permissiveParseSrt (content file)))%nat
    ∧ inputCues (processFile st file)
      = (inputCues st + length (permissiveParseSrt (content file)))%nat
    ∧ diags (processFile st file) = diags st ++ d
    ∧ parseIssues (processFile st file) = (parseIssues st + fallbackCount d)%nat.
Proof.
  unfold processFile.
  set (st0 := {| cumulativeMs := cumulativeMs st; globalIndex := globalIndex st;
                 lastMergedEndMs := lastMergedEndMs st;
                 inputCues := (inputCues st + length (permissiveParseSrt (content file)))%nat;
                 parseIssues := parseIssues st; diags := diags st;
                 mergedBlocks := mergedBlocks st |}).
  destruct (processBlock_fold (name file) (permissiveParseSrt (content file)) st0 0)
    as (mbs & d & Hm & Ht & Hi & Hts & Hg & Hin & Hd & Hp).
  destruct (fold_left _ _ (st0, 0)) as [st1 cur1]. cbn [fst] in *.
  exists mbs, d. cbn [mergedBlocks globalIndex inputCues diags parseIssues].
  by rewrite Hm, Hg, Hin, Hd, Hp.
Qed.

(** The state after all the files. *)
Lemma mergeLoop_spec files : ∀ st,
  length (mergedBlocks st) = inputCues st →
  S (length (mergedBlocks st)) = globalIndex st →
  parseIssues st = fallbackCount (diags st) →
  Forall shiftedOrFallback (mergedBlocks st) →
  let st' := fold_left processFile files st in
  length (mergedBlocks st') = inputCues st'
  ∧ inputCues st'
    = (inputCues st + length (concat ((λ f, permissiveParseSrt (content f)) <$> files)))%nat
  ∧ blockTexts <$> mergedBlocks st'
    = (blockTexts <$> mergedBlocks st)
      ++ (emittedTexts <$> concat ((λ f, permissiveParseSrt (content f)) <$> files))
  ∧ index <$> mergedBlocks st'
    = (index <$> mergedBlocks st)
      ++ seq (globalIndex st)
           (length (concat ((λ f, permissiveParseSrt (content f)) <$> files)))
  ∧ parseIssues st' = fallbackCount (diags st')
  ∧ Forall shiftedOrFallback (mergedBlocks st').
Proof.
  induction files as [|file files IH]; intros st Hlen Hidx Hiss Hts; cbn [fold_left].
  - simpl. rewrite !app_nil_r. repeat split; try done; lia.
  - destruct (processFile_spec st file)
      as (mbs & d & Hm & Ht & Hi & Hts' & Hg & Hin & Hd & Hp).
    assert (length mbs = length (permissiveParseSrt (content file))) as Hmbs.
    { by rewrite <- (length_fmap blockTexts), Ht, length_fmap. }
    destruct (IH (processFile st file)) as (H1 & H2 & H3 & H4 & H5 & H6).
    + rewrite Hm, Hin, length_app, Hmbs. lia.
    + rewrite Hm, Hg, length_app, Hmbs. lia.
    + rewrite Hp, Hd, fallbackCount_app. lia.
    + rewrite Hm. by apply Forall_app.
    + cbv zeta. rewrite H2, H3, H4, H5, Hin, Hm, Hg.
      rewrite !fmap_cons, !concat_cons, !fmap_app, !length_app, Ht, Hi, seq_app, <- !app_assoc.
      repeat split; try done; lia.
Qed.

Lemma mergeLoop_initial files :
  length (mergedBlocks (mergeLoop files)) = inputCues (mergeLoop files)
  ∧ inputCues (mergeLoop files)
    = length (concat ((λ f, permissiveParseSrt (content f)) <$> files))
  ∧ blockTexts <$> mergedBlocks (mergeLoop files)
    = emittedTexts <$> concat ((λ f, permissiveParseSrt (content f)) <$> files)
  ∧ index <$> mergedBlocks (mergeLoop files)
    = seq 1 (length (concat ((λ f, permissiveParseSrt (content f)) <$> files)))
  ∧ parseIssues (mergeLoop files) = fallbackCount (diags (mergeLoop files))
  ∧ Forall shiftedOrFallback (mergedBlocks (mergeLoop files)).
Proof.
  destruct (mergeLoop_spec files initialMergeState) as (H1 & H2 & H3 & H4 & H5 & H6);
    try done.
Qed.

(** C9.  The statistics report as many output cues as input cues, and the
    document returned is the rendering of one block for each block of the
    parser, of each file in turn: numbered from 1, with the texts of the
    parsed block (or the placeholder) and a shifted or a synthesized
    time-code line; none is dropped and none is added. *)
Theorem every_block_emitted_once files :
  totalOutputCues (stats (mergeSrtFiles files))
  = totalInputCues (stats (mergeSrtFiles files))
  ∧ totalInputCues (stats (mergeSrtFiles files))
    = length (concat ((λ f, permissiveParseSrt (content f)) <$> files))
  ∧ ∃ mbs,
      mergedSrt (mergeSrtFiles files) = Str.join Str.newline (renderBlock <$> mbs)
      ∧ blockTexts <$> mbs
        = emittedTexts <$> concat ((λ f, permissiveParseSrt (content f)) <$> files)
      ∧ index <$> mbs
        = seq 1 (length (concat ((λ f, permissiveParseSrt (content f)) <$> files)))
      ∧ Forall shiftedOrFallback mbs.
Proof.
  destruct (mergeLoop_initial files) as (H1 & H2 & H3 & H4 & _ & H6).
  split_and!.
  - unfold mergeSrtFiles. simpl. done.
  - unfold mergeSrtFiles. simpl. done.
  - exists (mergedBlocks (mergeLoop files)). split_and!; done.
Qed.

(** C10.  The parse-issue count of the statistics is the number of
    diagnostics whose action is fallback. *)
Theorem parse_issues_count_fallbacks files :
  parseIssuesCount (stats (mergeSrtFiles files))
  = length (filter (λ d, action d = fallback) (diagnostics (mergeSrtFiles files))).
Proof.
  destruct (mergeLoop_initial files) as (_ & _ & _ & _ & H5 & _).
  unfold mergeSrtFiles. simpl. done.
Qed.

Lemma append_assoc (a b c : string) : (a +:+ b) +:+ c = a +:+ b +:+ c.
Proof.
  induction a as [|x a IH]; [done|].
  change (String x ((a +:+ b) +:+ c) = String x (a +:+ b +:+ c)). by rewrite IH.
Qed.

(** With the older copy of the parser the same block has no text line, and
    it gets the placeholder. *)
Lemma legacy_blank_caption_gets_placeholder :
  emittedTexts <$> Legacy.permissiveParseSrt RawExamples.blankCaption
  = [["[No text]"]; ["Hi"]].
Proof. reflexivity. Qed.

(** C8, at the failing input.  The first block of the file has one blank
    caption line; it is emitted with that empty line as its only text and
    without the placeholder. *)
Theorem blank_caption_block_emitted_empty :
  blockTexts <$> mergedBlocks (mergeLoop [RawExamples.blankCaptionFile]) = [[EmptyString]; ["Hi"]]
  ∧ ∃ ts1 ts2,
      mergedSrt (mergeSrtFiles [RawExamples.blankCaptionFile])
      = "1" +:+ Str.newline +:+ ts1 +:+ Str.newline +:+ EmptyString +:+ Str.newline
        +:+ Str.newline
        +:+ "2" +:+ Str.newline +:+ ts2 +:+ Str.newline +:+ "Hi" +:+ Str.newline.
Proof.
  destruct (mergeLoop_initial [RawExamples.blankCaptionFile]) as (_ & _ & H3 & H4 & _ & _).
  split; [exact H3|].
  unfold mergeSrtFiles. cbn [mergedSrt].
  destruct (mergedBlocks (mergeLoop [RawExamples.blankCaptionFile]))
    as [|[i1 t1 x1] [|[i2 t2 x2] [|? ?]]]; try done.
  change ([i1; i2] = [1; 2]%nat) in H4.
  change ([x1; x2] = [[EmptyString]; ["Hi"]]) in H3.
  simplify_eq. exists t1, t2.
  unfold Str.join, renderBlock.
  cbn [fmap list_fmap String.concat blockTexts index timestamp].
  rewrite !append_assoc. reflexivity.
Qed.

End RawMergerClaims.

(** * Invariants of the permissive parser *)

Module ParserFacts.
Import ParserSpec.

Lemma initial_invariant : parserInvariant initialParserState.
Proof. split; simpl; try done. Qed.

Lemma parseLine_invariant st raw :
  parserInvariant st → parserInvariant (parseLine st raw).
Proof.
  intros Hinv. pose proof Hinv as [Hclosed Hopen Hreading Htexts Hblocks].
  unfold parseLine, hasTimecode in *.
  destruct (Str.isDigits (Str.trim raw)) eqn:Hidx.
  - (* an index line *)
    assert (match currentBlock st with
            | Some cb =>
                if expectingTimestamp st
                then tsRaw cb = EmptyString ∧ textLines st = []
                else tsRaw cb ≠ EmptyString ∧ is_Some (origIndex cb) ∧ hasTimecode cb
            | None => textLines st = []
            end) as Hcase.
    { destruct (currentBlock st) as [cb|] eqn:Hcb.
      - destruct (Hopen cb eq_refl) as (Hsome & _ & Hts).
        destruct (expectingTimestamp st); [done|]. split_and!; try done.
        intros Heq. by rewrite Heq in Hts.
      - by destruct (Hclosed eq_refl) as (_ & -> & _). }
    split; simpl; try done.
    + intros cb' [= <-]. simpl. split_and!; [by eexists|done..|].
      destruct (currentBlock st) as [cb|]; [|done].
      destruct (expectingTimestamp st).
      * destruct Hcase as [-> ->]. done.
      * destruct Hcase as (Hne & _). by rewrite bool_decide_eq_false_2.
    + destruct (currentBlock st) as [cb|]; [|by rewrite Hcase].
      destruct (expectingTimestamp st).
      * destruct Hcase as [-> ->]. simpl. constructor.
      * destruct Hcase as (Hne & _). rewrite bool_decide_eq_false_2 by done. constructor.
    + destruct (currentBlock st) as [cb|]; [|done].
      destruct (expectingTimestamp st).
      * destruct Hcase as [-> ->]. done.
      * destruct Hcase as (Hne & Hsome & Hts). rewrite bool_decide_eq_false_2 by done.
        simpl. apply Forall_app. split; [done|].
        apply Forall_cons. split; [|constructor]. by split_and!.

  - destruct (expectingTimestamp st && looksLikeTimestamp (Str.trim raw)) eqn:Hts.
    + (* the time-code line *)
      apply andb_true_iff in Hts as [Hexp Hlooks].
      destruct (currentBlock st) as [cb|] eqn:Hcb; [|done].
      destruct (Hopen cb eq_refl) as (Hsome & Hexpidx & Hstate). rewrite Hexp in Hstate.
      split; simpl; try done.
      intros cb' [= <-]. simpl. done.
    + destruct (currentBlock st) as [cb|] eqn:Hcb.
      * destruct (Hopen cb eq_refl) as (Hsome & Hexpidx & Hstate).
        assert (Forall captionLine
                  (if bool_decide (Str.trim raw = EmptyString)
                   then textLines st ++ [EmptyString]
                   else textLines st ++ [Str.trim raw])) as Hpush.
        { case_bool_decide as Hblank; apply Forall_app; split; try done.
          all: repeat constructor; done. }
        destruct (isReadingText st) eqn:Hread.
        -- rewrite (Hreading eq_refl) in *.
           split; simpl; done.
        -- destruct (expectingTimestamp st) eqn:Hexp; simpl.
           ++ done.
           ++ split; simpl; done.
      * destruct (Hclosed eq_refl) as (_ & _ & ->). done.
Qed.

Lemma parseLines_invariant lines : parserInvariant (parseLines lines).
Proof.
  unfold parseLines. generalize initial_invariant.
  generalize initialParserState. induction lines as [|raw lines IH]; intros st Hst; simpl.
  - done.
  - apply IH. by apply parseLine_invariant.
Qed.

Lemma parseLines_snoc lines raw :
  parseLines (lines ++ [raw]) = parseLine (parseLines lines) raw.
Proof. unfold parseLines. by rewrite fold_left_app. Qed.

(** An index line opens a block, after closing at most the open one. *)
Lemma parseLine_index st raw :
  indexLine raw = true →
  is_Some (currentBlock (parseLine st raw))
  ∧ (length (blocks (parseLine st raw)) ≤ length (finishParse st))%nat.
Proof.
  unfold indexLine, parseLine, finishParse. intros ->. simpl. split; [by eexists|].
  destruct (currentBlock st) as [cb|]; [|done].
  destruct (negb _ || negb _); rewrite ?length_app; simpl; lia.
Qed.

(** Any other line leaves the closed blocks as they are, and it opens no
    block. *)
Lemma parseLine_other st raw :
  parserInvariant st →
  indexLine raw = false →
  blocks (parseLine st raw) = blocks st
  ∧ (currentBlock (parseLine st raw) = None ↔ currentBlock st = None).
Proof.
  intros [Hclosed _ _ _ _]. unfold indexLine, parseLine. intros ->.
  destruct (expectingTimestamp st && looksLikeTimestamp (Str.trim raw)).
  - destruct (currentBlock st) as [cb|] eqn:Hcb; simpl; rewrite ?Hcb; done.
  - destruct (currentBlock st) as [cb|] eqn:Hcb.
    + destruct (isReadingText st); simpl; rewrite ?Hcb; [done|].
      destruct (expectingTimestamp st); simpl; rewrite ?Hcb; done.
    + destruct (Hclosed eq_refl) as (_ & _ & ->). simpl. rewrite ?Hcb. done.
Qed.

Lemma length_finishParse st :
  length (finishParse st)
  = (length (blocks st) + match currentBlock st with Some _ => 1 | None => 0 end)%nat.
Proof.
  unfold finishParse. destruct (currentBlock st); rewrite ?length_app; simpl; lia.
Qed.

Lemma parseLines_count lines :
  (currentBlock (parseLines lines) = None ↔ Forall (λ raw, indexLine raw = false) lines)
  ∧ (length (finishParse (parseLines lines)) ≤ length (filter (λ raw, indexLine raw) lines))%nat.
Proof.
  induction lines as [|raw lines [IHnone IHlen]] using rev_ind.
  - split; [done|]. simpl. lia.
  - rewrite parseLines_snoc, filter_app, length_app, Forall_app.
    pose proof (parseLines_invariant lines) as Hinv.
    destruct (indexLine raw) eqn:Hraw.
    + destruct (parseLine_index (parseLines lines) raw Hraw) as [[cb Hcb] Hlen].
      split.
      * rewrite Hcb. split; [done|]. intros [_ Hlast]. rewrite Forall_singleton in Hlast.
        congruence.
      * rewrite length_finishParse, Hcb, filter_cons_True by by rewrite Hraw. simpl. lia.
    + destruct (parseLine_other (parseLines lines) raw Hinv Hraw) as [Hblocks Hnone].
      split.
      * rewrite Hnone, IHnone, Forall_singleton. tauto.
      * rewrite filter_cons_False by (rewrite Hraw; exact id).
        rewrite length_finishParse, Hblocks. rewrite length_finishParse in IHlen.
        destruct (currentBlock (parseLine (parseLines lines) raw)) eqn:Hc,
                 (currentBlock (parseLines lines)) eqn:Hc'; simpl in *; try lia.
        all: destruct Hnone as [Hn Hn']; by (specialize (Hn eq_refl) || specialize (Hn' eq_refl)).
Qed.

Lemma finishParse_invariant st :
  parserInvariant st →
  Forall (λ b, is_Some (origIndex b)
               ∧ (hasTimecode b ∨ (tsRaw b = EmptyString ∧ texts b = []))
               ∧ Forall captionLine (texts b)) (finishParse st)
  ∧ Forall hasTimecode (take (length (finishParse st) - 1) (finishParse st)).
Proof.
  intros [Hclosed Hopen _ Htexts Hblocks]. unfold finishParse.
  assert (Forall hasTimecode (blocks st)) as Hts.
  { eapply Forall_impl; [exact Hblocks|]. by intros b (_ & ? & _). }
  destruct (currentBlock st) as [cb|] eqn:Hcb.
  - destruct (Hopen cb eq_refl) as (Hsome & _ & Hstate). split.
    + apply Forall_app. split.
      * eapply Forall_impl; [exact Hblocks|]. intros b (? & ? & ?). by split_and!; [|left|].
      * apply Forall_singleton. unfold hasTimecode in *. simpl. split_and!; [done| |done].
        destruct (expectingTimestamp st); [right|by left]. by destruct Hstate as [-> ->].
    + rewrite length_app. simpl.
      replace (length (blocks st) + 1 - 1)%nat with (length (blocks st)) by lia.
      by rewrite take_app_length.
  - destruct (Hclosed eq_refl) as (-> & _ & _). split; constructor.
Qed.

(** ** Properties of the blocks returned *)

(** X1.  Every block that the parser returns carries the index of the line
    that opened it: the branch that would make a block without an index is
    never taken. *)
Theorem every_block_has_index content :
  Forall (λ b, is_Some (origIndex b)) (permissiveParseSrt content).
Proof.
  destruct (finishParse_invariant _ (parseLines_invariant (Str.splitLines content)))
    as [Hall _].
  eapply Forall_impl; [exact Hall|]. by intros b (? & _).
Qed.

(** X2.  No text line of a block is a line of digits: such a line always
    starts a new block, also in the middle of a caption. *)
Theorem digits_never_caption_text content :
  Forall (λ b, Forall (λ t, Str.isDigits t = false) (texts b)) (permissiveParseSrt content).
Proof.
  destruct (finishParse_invariant _ (parseLines_invariant (Str.splitLines content)))
    as [Hall _].
  eapply Forall_impl; [exact Hall|]. by intros b (_ & _ & ?).
Qed.

(** A line with a time in it is taken for the time-code line of a block,
    with or without an arrow. *)
Example timecode_without_arrow :
  permissiveParseSrt RawExamples.looseTimecode
  = [ {| origIndex := Some (Num 1); tsRaw := "at 1:02:03 sharp"; texts := ["Hi"] |};
      {| origIndex := Some (Num 2); tsRaw := "00:00:03,000 --> 00:00:04,000";
         texts := ["Bye"] |} ].
Proof. reflexivity. Qed.

(** X3.  Every block but the last has a line that the parser took for its
    time code, that is, a line with an arrow or with a time such as 1:02:03
    in it; the last block has such a line or has neither time-code line nor
    text.  Lines read while a block awaits its time-code line are
    dropped. *)
Theorem only_last_block_lacks_timecode content :
  Forall hasTimecode
    (take (length (permissiveParseSrt content) - 1) (permissiveParseSrt content))
  ∧ Forall (λ b, hasTimecode b ∨ (tsRaw b = EmptyString ∧ texts b = []))
      (permissiveParseSrt content).
Proof.
  destruct (finishParse_invariant _ (parseLines_invariant (Str.splitLines content)))
    as [Hall Hinit].
  split; [done|]. eapply Forall_impl; [exact Hall|]. by intros b (_ & ? & _).
Qed.

(** X4.  The parser returns no block exactly when no line of the input is
    an index line, whatever else the input holds; and it never returns more
    blocks than there are index lines. *)
Theorem blocks_need_index_lines content :
  (permissiveParseSrt content = []
   ↔ Forall (λ raw, indexLine raw = false) (Str.splitLines content))
  ∧ (length (permissiveParseSrt content)
     ≤ length (filter (λ raw, indexLine raw) (Str.splitLines content)))%nat.
Proof.
  destruct (parseLines_count (Str.splitLines content)) as [Hnone Hlen].
  split; [|done]. rewrite <- Hnone. unfold permissiveParseSrt, finishParse.
  pose proof (parseLines_invariant (Str.splitLines content)) as [Hclosed _ _ _ _].
  destruct (currentBlock (parseLines (Str.splitLines content))) as [cb|].
  - split; [|done]. intros Hnil. by apply app_nil in Hnil as [_ ?].
  - by destruct (Hclosed eq_refl) as (-> & _).
Qed.

(** ** The caption of a block *)

(** A line that is not an index, read while a block is open and has its
    time-code line, is appended after trimming; nothing else changes. *)
Lemma parseLine_text st raw cb :
  currentBlock st = Some cb →
  expectingTimestamp st = false →
  indexLine raw = false →
  parseLine st raw
  = {| blocks := blocks st; currentBlock := Some cb;
       textLines := textLines st ++ [Str.trim raw];
       expectingIndex := expectingIndex st; expectingTimestamp := false;
       isReadingText := true |}.
Proof.
  unfold indexLine. intros Hcb Hts Hidx. unfold parseLine. rewrite Hidx, Hcb, Hts. simpl.
  destruct (isReadingText st); simpl; case_bool_decide as Hblank; try done.
  all: by rewrite Hblank.
Qed.

Lemma parseLine_text_fold rest : ∀ st cb,
  currentBlock st = Some cb →
  expectingTimestamp st = false →
  Forall (λ raw, indexLine raw = false) rest →
  blocks (fold_left parseLine rest st) = blocks st
  ∧ currentBlock (fold_left parseLine rest st) = Some cb
  ∧ textLines (fold_left parseLine rest st) = textLines st ++ (Str.trim <$> rest).
Proof.
  induction rest as [|raw rest IH]; intros st cb Hcb Hts Hall; simpl.
  - by rewrite app_nil_r.
  - apply Forall_cons in Hall as [Hraw Hall].
    rewrite (parseLine_text st raw cb) by done.
    set (st' := {| blocks := blocks st; currentBlock := Some cb;
                   textLines := textLines st ++ [Str.trim raw];
                   expectingIndex := expectingIndex st; expectingTimestamp := false;
                   isReadingText := true |}).
    destruct (IH st' cb eq_refl eq_refl Hall) as (-> & -> & ->). simpl.
    by rewrite <- app_assoc.
Qed.

(** Blocks, once stored, stay. *)
Lemma parseLine_blocks st raw : blocks st `prefix_of` blocks (parseLine st raw).
Proof.
  unfold parseLine. destruct (Str.isDigits (Str.trim raw)).
  - cbn [blocks]. destruct (currentBlock st) as [cb|]; [|done].
    destruct (negb _ || negb _); [by apply prefix_app_r|done].
  - destruct (expectingTimestamp st && looksLikeTimestamp (Str.trim raw)).
    + by destruct (currentBlock st).
    + destruct (currentBlock st) as [cb|].
      * destruct (isReadingText st); [done|]. by destruct (negb (expectingTimestamp st)).
      * by destruct (negb (expectingIndex st)).
Qed.

Lemma parseLines_blocks l : ∀ st, blocks st `prefix_of` blocks (fold_left parseLine l st).
Proof.
  induction l as [|raw l IH]; intros st; simpl; [done|].
  etrans; [apply parseLine_blocks | apply IH].
Qed.

Lemma finishParse_blocks st : blocks st `prefix_of` finishParse st.
Proof.
  unfold finishParse. destruct (currentBlock st); [by apply prefix_app_r|done].
Qed.

(** X20.  An index line, a time-code line after it, and the lines from
    there to the next index line or to the end of the input make one block
    of the result, wherever they stand in the input: it has the index, the
    time-code line, and every one of these lines as a text line, trimmed,
    in order; a blank line among them is kept as an empty string and does
    not end the block. *)
Theorem caption_lines_kept content pre idx ts body post :
  Str.splitLines content = pre ++ [idx; ts] ++ body ++ post →
  indexLine idx = true →
  indexLine ts = false → looksLikeTimestamp (Str.trim ts) = true →
  Forall (λ raw, indexLine raw = false) body →
  (post = [] ∨ ∃ raw post', post = raw :: post' ∧ indexLine raw = true) →
  {| origIndex := Some (Str.parseInt (Str.trim idx)); tsRaw := Str.trim ts;
     texts := Str.trim <$> body |}
  ∈ permissiveParseSrt content.
Proof.
  unfold indexLine. intros Hsplit Hidx Hts Hlooks Hbody Hpost.
  unfold permissiveParseSrt, parseLines. rewrite Hsplit, !fold_left_app.
  fold (parseLines pre). cbn [fold_left].
  set (st1 := parseLine (parseLines pre) idx).
  pose proof (parseLine_invariant _ idx (parseLines_invariant pre)) as Hinv1.
  fold st1 in Hinv1.
  set (cb1 := {| origIndex := Some (Str.parseInt (Str.trim idx)); tsRaw := EmptyString;
                 texts := [] |}).
  assert (currentBlock st1 = Some cb1 ∧ expectingTimestamp st1 = true) as [Hcb1 Hexp1].
  { unfold st1, parseLine. by rewrite Hidx. }
  destruct (inv_open _ Hinv1 cb1 Hcb1) as (_ & _ & Hstate). rewrite Hexp1 in Hstate.
  destruct Hstate as [_ Htexts1].
  set (st2 := parseLine st1 ts).
  assert (currentBlock st2 = Some (withTsRaw cb1 (Str.trim ts))
          ∧ expectingTimestamp st2 = false ∧ textLines st2 = []) as (Hcb2 & Hexp2 & Htexts2).
  { unfold st2, parseLine. by rewrite Hts, Hexp1, Hlooks, Hcb1. }
  destruct (parseLine_text_fold body st2 _ Hcb2 Hexp2 Hbody) as (Hb3 & Hcb3 & Htexts3).
  rewrite Htexts2 in Htexts3. simpl in Htexts3.
  set (st3 := fold_left parseLine body st2) in *.
  destruct Hpost as [->|(raw & post' & -> & Hraw)].
  - simpl. unfold finishParse. rewrite Hcb3, Htexts3.
    apply elem_of_app. right. by apply list_elem_of_singleton.
  - cbn [fold_left].
    assert (blocks (parseLine st3 raw)
            = blocks st3 ++ [withTexts (withTsRaw cb1 (Str.trim ts)) (Str.trim <$> body)])
      as Hflush.
    { unfold parseLine. rewrite Hraw, Hcb3, Htexts3. cbn [blocks tsRaw withTsRaw].
      rewrite (bool_decide_eq_false_2 (Str.trim ts = EmptyString)); [done|].
      intros Hempty. by rewrite Hempty in Hlooks. }
    eapply elem_of_prefix; [|apply finishParse_blocks].
    eapply elem_of_prefix; [|apply parseLines_blocks].
    rewrite Hflush. apply elem_of_app. right. by apply list_elem_of_singleton.
Qed.

Lemma caption_lines_kept_witness :
  {| origIndex := Some (Num 1); tsRaw := "00:00:01,000 --> 00:00:02,000";
     texts := ["Hello"; EmptyString; "World"] |}
  ∈ permissiveParseSrt RawExamples.paddedCaptions.
Proof.
  apply (caption_lines_kept RawExamples.paddedCaptions []
           "1" "00:00:01,000 --> 00:00:02,000" ["  Hello  "; EmptyString; "World"]
           ["2"; "00:00:03,000 --> 00:00:04,000"; "Bye"]).
  - reflexivity.
  - reflexivity.
  - reflexivity.
  - reflexivity.
  - repeat constructor.
  - right. by eexists _, _.
Defined.

End ParserFacts.

(** * Invariants of the older copy of the parser *)

Module LegacyFacts.
Import LegacySpec.

Lemma legacy_parseLine_invariant st raw :
  parserInvariant st → parserInvariant (Legacy.parseLine st raw).
Proof.
  intros Hinv. pose proof Hinv as [Hclosed Hopen Htexts Hblocks].
  unfold Legacy.parseLine.
  case_bool_decide as Hblank.
  - (* a blank line *)
    destruct (Legacy.currentBlock st) as [cb|] eqn:Hcb; [|done].
    destruct (Hopen cb eq_refl) as [Hsome _].
    split; simpl; try done.
    apply Forall_app. split; [done|]. apply Forall_singleton. by split.
  - destruct (Legacy.expectingIndex st && Str.isDigits (Str.trim raw)) eqn:Hidx.
    + (* an index line, when one is expected *)
      apply andb_true_iff in Hidx as [Hexp _].
      destruct (Legacy.currentBlock st) as [cb|] eqn:Hcb.
      { destruct (Hopen cb eq_refl) as [_ Hfalse]. congruence. }
      split; simpl; try done.
      intros cb' [= <-]. simpl. split; [by eexists|done].
    + destruct (Legacy.expectingTimestamp st && looksLikeTimestamp (Str.trim raw)).
      * destruct (Legacy.currentBlock st) as [cb|] eqn:Hcb; [|done].
        destruct (Hopen cb eq_refl) as [Hsome Hexp].
        split; simpl; try done. intros cb' [= <-]. done.
      * destruct (Legacy.currentBlock st) as [cb|] eqn:Hcb.
        -- split; simpl; try done.
           apply Forall_app. split; [done|]. by apply Forall_singleton.
        -- destruct (Hclosed eq_refl) as [_ ->]. done.
Qed.

Lemma legacy_parseLines_invariant lines : ∀ st,
  parserInvariant st → parserInvariant (fold_left Legacy.parseLine lines st).
Proof.
  induction lines as [|raw lines IH]; intros st Hst; simpl; [done|].
  apply IH. by apply legacy_parseLine_invariant.
Qed.

(** X5.  In the older copy of the parser every block has an index and no
    text line of a block is empty, so a block has caption text exactly when
    its list of text lines is not empty, and no block is emitted with an
    empty text line. *)
Theorem legacy_text_lines_not_empty content :
  Forall (λ b, is_Some (origIndex b) ∧ Forall (λ t, t ≠ EmptyString) (texts b))
    (Legacy.permissiveParseSrt content)
  ∧ Forall (λ b, Forall (λ t, t ≠ EmptyString) (emittedTexts b))
      (Legacy.permissiveParseSrt content).
Proof.
  assert (Forall (λ b, is_Some (origIndex b) ∧ Forall (λ t, t ≠ EmptyString) (texts b))
            (Legacy.permissiveParseSrt content)) as Hall.
  { unfold Legacy.permissiveParseSrt, Legacy.finishParse.
    destruct (legacy_parseLines_invariant (Str.splitLines content) Legacy.initialParserState)
      as [Hclosed Hopen Htexts Hblocks].
    { split; simpl; try done. }
    destruct (Legacy.currentBlock _) as [cb|] eqn:Hcb; [|done].
    apply Forall_app. split; [done|]. apply Forall_singleton.
    destruct (Hopen cb eq_refl) as [Hsome _]. by split. }
  split; [done|]. eapply Forall_impl; [exact Hall|].
  intros b [_ Hb]. unfold emittedTexts. destruct (texts b); [|done].
  by apply Forall_singleton.
Qed.

End LegacyFacts.

(** * Decimal numerals *)

Module NumeralFacts.

Lemma isDigit_pretty_N_char x : Str.isDigit (pretty_N_char x) = true.
Proof. unfold pretty_N_char. by repeat case_match. Qed.

Lemma digitValue_pretty_N_char x :
  (x < 10)%N → Str.digitValue (pretty_N_char x) = Z.of_N x.
Proof.
  intros Hx.
  assert (x = 0 ∨ x = 1 ∨ x = 2 ∨ x = 3 ∨ x = 4 ∨ x = 5 ∨ x = 6 ∨ x = 7 ∨ x = 8 ∨ x = 9)%N
    as Hcases by lia.
  by destruct Hcases as [->|[->|[->|[->|[->|[->|[->|[->|[->| ->]]]]]]]]].
Qed.

Lemma pretty_N_go_app x s : pretty_N_go x s = pretty_N_go x EmptyString +:+ s.
Proof.
  revert s. induction (N.lt_wf_0 x) as [x _ IH]; intros s.
  assert (x = 0 ∨ 0 < x)%N as [->|Hx] by lia; [done|].
  assert (x `div` 10 < x)%N as Hlt by (by apply N.div_lt).
  rewrite (pretty_N_go_step x s), (pretty_N_go_step x EmptyString) by done.
  rewrite (IH _ Hlt (String (pretty_N_char (x `mod` 10)) s)).
  rewrite (IH _ Hlt (String (pretty_N_char (x `mod` 10)) EmptyString)).
  by rewrite append_assoc.
Qed.

Lemma allDigits_app a b : Str.allDigits (a +:+ b) = Str.allDigits a && Str.allDigits b.
Proof.
  induction a as [|c a IH]; [done|].
  change (Str.isDigit c && Str.allDigits (a +:+ b)
          = Str.isDigit c && Str.allDigits a && Str.allDigits b).
  by rewrite IH, andb_assoc.
Qed.

Lemma allDigits_pretty_N_go x : Str.allDigits (pretty_N_go x EmptyString) = true.
Proof.
  induction (N.lt_wf_0 x) as [x _ IH].
  assert (x = 0 ∨ 0 < x)%N as [->|Hx] by lia; [done|].
  rewrite pretty_N_go_step, pretty_N_go_app, allDigits_app by done.
  rewrite IH by (by apply N.div_lt). simpl. by rewrite isDigit_pretty_N_char.
Qed.

Lemma parseDigits_app acc a b :
  Str.parseDigits acc (a +:+ b) = Str.parseDigits (Str.parseDigits acc a) b.
Proof. revert acc. induction a as [|c a IH]; intros acc; [done|]. apply IH. Qed.

Lemma parseDigits_pretty_N_go x :
  Str.parseDigits 0 (pretty_N_go x EmptyString) = Z.of_N x.
Proof.
  induction (N.lt_wf_0 x) as [x _ IH].
  assert (x = 0 ∨ 0 < x)%N as [->|Hx] by lia; [done|].
  rewrite pretty_N_go_step, pretty_N_go_app, parseDigits_app by done.
  rewrite IH by (by apply N.div_lt). simpl.
  rewrite digitValue_pretty_N_char by (by apply N.mod_lt).
  rewrite (N.div_mod x 10) at 3 by done. lia.
Qed.

Lemma pretty_N_go_nonempty x : (0 < x)%N → pretty_N_go x EmptyString ≠ EmptyString.
Proof.
  intros Hx. rewrite pretty_N_go_step, pretty_N_go_app by done.
  destruct (pretty_N_go _ EmptyString); discriminate.
Qed.

(** A numeral is a non-empty string of digits, and its digits denote the
    number it was made from. *)
Lemma pretty_nat_digits (n : nat) :
  Str.allDigits (pretty n) = true ∧ pretty n ≠ EmptyString
  ∧ Str.isDigits (pretty n) = true ∧ Str.parseDigits 0 (pretty n) = Z.of_nat n.
Proof.
  unfold pretty, pretty_nat, pretty, pretty_N.
  case_decide as Hn.
  - replace (Z.of_nat n) with 0 by lia. done.
  - assert (0 < N.of_nat n)%N as Hpos by lia.
    pose proof (allDigits_pretty_N_go (N.of_nat n)) as Hall.
    pose proof (pretty_N_go_nonempty _ Hpos) as Hne.
    split_and!; try done.
    + unfold Str.isDigits. by destruct (pretty_N_go _ EmptyString).
    + rewrite parseDigits_pretty_N_go. lia.
Qed.

(** A numeral followed by a character that is not a digit determines both
    the numeral and what follows it. *)
Lemma digits_then_mark a : ∀ b c s c' s',
  Str.allDigits a = true → Str.allDigits b = true →
  Str.isDigit c = false → Str.isDigit c' = false →
  a +:+ String c s = b +:+ String c' s' →
  a = b ∧ String c s = String c' s'.
Proof.
  induction a as [|x a IH]; intros [|y b] c s c' s' Ha Hb Hc Hc' Heq.
  - done.
  - injection Heq as -> _. simpl in Hb. apply andb_true_iff in Hb as [Hy _]. congruence.
  - injection Heq as -> _. simpl in Ha. apply andb_true_iff in Ha as [Hx _]. congruence.
  - injection Heq as -> Heq. simpl in Ha, Hb.
    apply andb_true_iff in Ha as [_ Ha]. apply andb_true_iff in Hb as [_ Hb].
    destruct (IH b c s c' s' Ha Hb Hc Hc' Heq) as [-> ?]. done.
Qed.

End NumeralFacts.

(** * Further properties of the structured merger *)

Module MergeFacts.
Import Sequential SeqSpec NumberFacts SeqFacts ValidationClaims MergeSpec.

(** ** Errors *)

Lemma errors_of_files pf rest options :
  errors (mergeParsedFilesSequential (pf :: rest) options)
  = if forallb (λ c, negb (negativeCue c))
         (mergedCues (mergeParsedFilesSequential (pf :: rest) options))
    then [] else ["negative_timestamps"].
Proof.
  rewrite mergedCues_spec. unfold mergeParsedFilesSequential.
  rewrite applyLoop_flatOutput. cbn [fst snd errors].
  by rewrite validateLoop_spec.
Qed.

(** X6.  The errors of a merge: no_files_uploaded for the empty list, and
    otherwise negative_timestamps once when some cue of the output has a
    negative time, nothing when none has. *)
Theorem errors_characterized files options :
  errors (mergeParsedFilesSequential files options)
  = match files with
    | [] => ["no_files_uploaded"]
    | _ =>
        if forallb (λ c, negb (negativeCue c))
             (mergedCues (mergeParsedFilesSequential files options))
        then [] else ["negative_timestamps"]
    end.
Proof.
  destruct files as [|pf rest].
  - reflexivity.
  - apply errors_of_files.
Qed.

(** ** Counting cues *)

Lemma shifted_finiteCue i shift c :
  if finiteCue c then is_Some (shifted i shift c) else shifted i shift c = None.
Proof.
  unfold finiteCue, shifted. destruct (startMs c), (endMs c); simpl; done.
Qed.

Lemma length_emittedCues i shift pf :
  length (emittedCues i shift pf) = length (filter finiteCue (cues pf)).
Proof.
  unfold emittedCues. induction (cues pf) as [|c cs IH]; csimpl; [done|].
  rewrite filter_cons. pose proof (shifted_finiteCue i shift c) as Hc.
  destruct (finiteCue c).
  - destruct Hc as [c' ->]. rewrite decide_True by done. simpl. by rewrite IH.
  - rewrite Hc, decide_False by (exact id). done.
Qed.

Lemma length_concat_imap {A} (g : nat → ParsedFile → list A) (h : ParsedFile → nat) files :
  (∀ i pf, length (g i pf) = h pf) →
  length (concat (imap g files)) = foldr (λ pf n, (h pf + n)%nat) 0%nat files.
Proof.
  revert g. induction files as [|pf rest IH]; intros g Hg; simpl; [done|].
  rewrite length_app, Hg, (IH (g ∘ S)); [done|]. intros i pf'. apply Hg.
Qed.

Lemma length_filter_concat {A} (P : A → Prop) `{!∀ x, Decision (P x)} (ls : list (list A)) :
  length (filter P (concat ls)) = foldr (λ l n, (length (filter P l) + n)%nat) 0%nat ls.
Proof.
  induction ls as [|l ls IH]; simpl; [done|]. by rewrite filter_app, length_app, IH.
Qed.

Lemma length_flatOutput (m : gmap nat number) files :
  length (flatOutput m files) = length (filter finiteCue (concat (cues <$> files))).
Proof.
  unfold flatOutput.
  rewrite (length_concat_imap _ (λ pf, length (filter finiteCue (cues pf))))
    by (intros; apply length_emittedCues).
  rewrite length_filter_concat. induction files as [|pf rest IH]; simpl; [done|].
  by rewrite IH.
Qed.

(** X7.  The output has one cue for every input cue whose two times are
    finite, sorted or not: no such cue is dropped and none is added. *)
Theorem merged_count files options :
  length (mergedCues (mergeParsedFilesSequential files options))
  = length (filter finiteCue (concat (cues <$> files))).
Proof.
  rewrite mergedCues_spec.
  destruct (default false (sortFinalByStart options)).
  - rewrite sort_perm. apply length_flatOutput.
  - apply length_flatOutput.
Qed.

(** ** Warnings of the shifting pass *)

Lemma warning_code_inj (i j : nat) (tail tail' : string) c c' :
  Str.isDigit c = false → Str.isDigit c' = false →
  "file_" +:+ pretty i +:+ String c tail = "file_" +:+ pretty j +:+ String c' tail' →
  i = j ∧ String c tail = String c' tail'.
Proof.
  intros Hc Hc' Heq. apply (inj (String.app "file_")) in Heq.
  destruct (NumeralFacts.pretty_nat_digits i) as (Hi & _).
  destruct (NumeralFacts.pretty_nat_digits j) as (Hj & _).
  destruct (NumeralFacts.digits_then_mark _ _ _ _ _ _ Hi Hj Hc Hc' Heq) as [Hp ?].
  split; [|done]. by apply (inj pretty).
Qed.

Lemma noCuesWarning_eq i j : noCuesWarning i = noCuesWarning j ↔ i = j.
Proof.
  split; [|by intros ->]. intros Heq.
  by apply (warning_code_inj i j "no_cues" "no_cues" "_" "_") in Heq as [? _].
Qed.

Lemma malformedWarning_eq i j : malformedWarning i = malformedWarning j ↔ i = j.
Proof.
  split; [|by intros ->]. intros Heq.
  by apply (warning_code_inj i j "malformed_cue" "malformed_cue" "_" "_") in Heq as [? _].
Qed.

Lemma noCues_ne_malformed i j : noCuesWarning i ≠ malformedWarning j.
Proof.
  intros Heq.
  by apply (warning_code_inj i j "no_cues" "malformed_cue" "_" "_") in Heq as [_ ?].
Qed.

Lemma occurrences_cons w x l :
  occurrences w (x :: l) = ((if decide (x = w) then 1 else 0) + occurrences w l)%nat.
Proof. unfold occurrences. rewrite filter_cons. by case_decide. Qed.

Lemma occurrences_noCues_file i j pf :
  occurrences (noCuesWarning i) (fileWarnings j pf)
  = if decide (i = j) then match cues pf with [] => 1%nat | _ => 0%nat end else 0%nat.
Proof.
  unfold fileWarnings. destruct (cues pf) as [|c cs].
  - rewrite occurrences_cons. case_decide as Hw; case_decide as Hij; try done.
    + by apply noCuesWarning_eq in Hw.
    + destruct Hw. by apply noCuesWarning_eq.
  - transitivity 0%nat; [|by case_decide].
    apply occurrences_other, Forall_forall. intros x (c' & _ & Hx)%list_elem_of_omap.
    destruct (shifted j (Num 0) c'); simplify_eq. intros Heq. by eapply noCues_ne_malformed.
Qed.

Lemma occurrences_malformed_file i j pf :
  occurrences (malformedWarning i) (fileWarnings j pf)
  = if decide (i = j) then length (filter (λ c, ¬ finiteCue c) (cues pf)) else 0%nat.
Proof.
  unfold fileWarnings. destruct (cues pf) as [|c cs] eqn:Hcues.
  - rewrite occurrences_cons. rewrite decide_False; [by case_decide|].
    intros Heq. by eapply noCues_ne_malformed.
  - clear Hcues. generalize (c :: cs). intros l. induction l as [|x l IH]; csimpl.
    + by case_decide.
    + rewrite filter_cons. pose proof (shifted_finiteCue j (Num 0) x) as Hx.
      destruct (finiteCue x).
      * destruct Hx as [x' ->]. rewrite (decide_False (P := ¬ _)) by (intros H; by apply H).
        done.
      * rewrite Hx, occurrences_cons, IH, (decide_True (P := ¬ _)) by (exact id).
        destruct (decide (i = j)) as [->|Hne].
        -- by rewrite decide_True.
        -- rewrite decide_False; [done|]. by rewrite malformedWarning_eq.
Qed.

Lemma occurrences_concat_imap w (g : nat → ParsedFile → list string)
    (count : ParsedFile → nat) i files k :
  (∀ j pf, occurrences w (g j pf) = if decide (i = j) then count pf else 0%nat) →
  occurrences w (concat (imap (λ j, g (k + j)%nat) files))
  = if decide (k ≤ i)%nat
    then match files !! (i - k)%nat with Some pf => count pf | None => 0%nat end
    else 0%nat.
Proof.
  intros Hg. revert k. induction files as [|pf rest IH]; intros k; simpl.
  - by case_decide.
  - rewrite occurrences_app, Hg, Nat.add_0_r.
    replace (imap ((λ j, g (k + j)%nat) ∘ S) rest) with (imap (λ j, g (S k + j)%nat) rest).
    2:{ apply imap_ext. intros j x _. simpl. by rewrite Nat.add_succ_r. }
    rewrite IH. destruct (decide (i = k)) as [->|Hne].
    + rewrite Nat.sub_diag. simpl. rewrite decide_False by lia. rewrite decide_True by lia. lia.
    + simpl. destruct (decide (S k ≤ i)%nat).
      * rewrite decide_True by lia. by replace (i - k)%nat with (S (i - S k)) by lia.
      * by rewrite decide_False by lia.
Qed.

Lemma validationWarnings_codes prev l :
  Forall (λ x, x = "cue_end_before_start" ∨ x = "overlap_detected")
    (validationWarnings prev l).
Proof.
  revert prev. induction l as [|c l IH]; intros prev; simpl; [constructor|].
  apply Forall_app. split; [|apply IH]. unfold positionWarnings.
  apply Forall_app. split.
  - destruct (endBeforeStart c); [|constructor]. apply Forall_singleton. by left.
  - destruct prev as [p|]; [|constructor].
    destruct (overlapping (p, c)); [|constructor]. apply Forall_singleton. by right.
Qed.

Lemma occurrences_file_code w files options (count : ParsedFile → nat) i :
  (∃ rest, w = "file_" +:+ rest) →
  (∀ j pf, occurrences w (fileWarnings j pf) = if decide (i = j) then count pf else 0%nat) →
  occurrences w (warnings (mergeParsedFilesSequential files options))
  = match files !! i with Some pf => count pf | None => 0%nat end.
Proof.
  intros [rest ->] Hcount. destruct (decide (files = [])) as [->|Hne].
  - simpl. rewrite occurrences_cons, decide_False; [done|].
    intros Heq. by eapply (file_code_neq "o_files" rest "n").
  - rewrite warnings_spec, occurrences_app by done.
    pose proof (occurrences_concat_imap _ fileWarnings count i files 0 Hcount) as Hfiles.
    simpl in Hfiles.
    change (imap fileWarnings files) with (imap (λ j : nat, fileWarnings j) files).
    rewrite Hfiles, Nat.sub_0_r.
    rewrite (occurrences_other _ (validationWarnings _ _)); [lia|].
    eapply Forall_impl; [apply validationWarnings_codes|].
    intros x [-> | ->] Heq; by eapply file_code_neq.
Qed.

(** X8.  The warning file_i_no_cues occurs once when file [i] has no cue
    and not otherwise, and the warning file_i_malformed_cue occurs once for
    each cue of file [i] that has a non-finite time. *)
Theorem file_warnings_counted files options i :
  occurrences (noCuesWarning i) (warnings (mergeParsedFilesSequential files options))
  = match files !! i with
    | Some pf => match cues pf with [] => 1%nat | _ => 0%nat end
    | None => 0%nat
    end
  ∧ occurrences (malformedWarning i) (warnings (mergeParsedFilesSequential files options))
    = match files !! i with
      | Some pf => length (filter (λ c, ¬ finiteCue c) (cues pf))
      | None => 0%nat
      end.
Proof.
  split.
  - apply (occurrences_file_code _ _ _
             (λ pf, match cues pf with [] => 1%nat | _ => 0%nat end)).
    + by eexists.
    + intros j pf. apply occurrences_noCues_file.
  - apply (occurrences_file_code _ _ _ (λ pf, length (filter (λ c, ¬ finiteCue c) (cues pf)))).
    + by eexists.
    + intros j pf. apply occurrences_malformed_file.
Qed.

(** ** Well-formed input *)

Lemma precedingDuration_S (offsets : gmap nat number) files i pf :
  files !! i = Some pf →
  precedingDuration offsets files (S i)
  = nadd (precedingDuration offsets files i) (chosenDuration offsets i pf).
Proof.
  intros Hi. unfold precedingDuration, runningSum.
  rewrite (take_S_r _ _ (chosenDuration offsets i pf)) by (by rewrite list_lookup_imap, Hi).
  by rewrite fold_left_app.
Qed.

Lemma wellFormedFile_duration pf i :
  wellFormedFile pf →
  ∃ m, chosenDuration ∅ i pf = Num m ∧ 0 ≤ m
       ∧ ∀ c e, c ∈ cues pf → endMs c = Num e → e ≤ m.
Proof.
  intros (Hne & Hwf & _). unfold chosenDuration. rewrite lookup_empty.
  destruct (maximum (finiteEndsOf pf)) as [m|] eqn:Hmax.
  - exists m. split; [done|]. apply maximum_elem in Hmax as [Hin Hle]. split.
    + unfold finiteEndsOf in Hin. apply list_elem_of_omap in Hin as (c & Hc & He).
      eapply Forall_forall in Hwf as (s & e & Hs & He' & ? & ?); [|exact Hc].
      rewrite He' in He. simplify_eq. lia.
    + intros c e Hc He. eapply Forall_forall in Hle; [exact Hle|].
      unfold finiteEndsOf. apply list_elem_of_omap. exists c. by rewrite He.
  - exfalso. unfold finiteEndsOf in Hmax. destruct (cues pf) as [|c cs]; [done|].
    apply Forall_cons in Hwf as [(s & e & _ & He & _) _].
    csimpl in Hmax. by rewrite He in Hmax.
Qed.

(** Adding to a number that is not negative. *)
Lemma nadd_mono_l a b x :
  nleb (Num 0) x = true → a ≤ b → nleb (nadd (Num a) x) (nadd (Num b) x) = true.
Proof.
  intros Hx Hab. destruct x as [z| | |]; try done. cbn [nadd].
  apply toNumber_mono. lia.
Qed.

Lemma nadd_ge_shift s x :
  isDouble x → nleb (Num 0) x = true → 0 ≤ s → nleb x (nadd (Num s) x) = true.
Proof.
  intros Hdouble Hx Hs. destruct x as [z| | |]; try done. cbn [nadd].
  unfold isDouble in Hdouble. rewrite <- Hdouble at 1. apply toNumber_mono. lia.
Qed.

Lemma orZero_numeric x : x ≠ NaN → orZero x = x.
Proof. by destruct x as [[| |]| | |]. Qed.

Lemma precedingDuration_nonneg files i :
  Forall wellFormedFile files → (i ≤ length files)%nat →
  nleb (Num 0) (precedingDuration ∅ files i) = true
  ∧ isDouble (precedingDuration ∅ files i).
Proof.
  intros Hwf. induction i as [|i IH]; intros Hi; [done|].
  destruct (lookup_lt_is_Some_2 files i) as [pf Hpf]; [lia|].
  rewrite (precedingDuration_S _ _ _ pf) by done.
  destruct (IH ltac:(lia)) as [Hpos Hdouble].
  destruct (wellFormedFile_duration pf i (Forall_lookup_1 _ _ _ _ Hwf Hpf))
    as (m & -> & Hm & _).
  split; [|apply nadd_isDouble].
  eapply nleb_trans; [exact Hpos|]. rewrite nadd_comm. by apply nadd_ge_shift.
Qed.

Lemma precedingDuration_mono files i j :
  Forall wellFormedFile files → (i ≤ j)%nat → (j ≤ length files)%nat →
  nleb (precedingDuration ∅ files i) (precedingDuration ∅ files j) = true.
Proof.
  intros Hwf Hij. induction Hij as [|j Hij IH]; intros Hj.
  - destruct (precedingDuration_nonneg files i Hwf Hj) as [Hpos _].
    apply nleb_refl. by apply nleb_numeric in Hpos as [_ ?].
  - destruct (lookup_lt_is_Some_2 files j) as [pf Hpf]; [lia|].
    rewrite (precedingDuration_S _ _ _ pf) by done.
    destruct (wellFormedFile_duration pf j (Forall_lookup_1 _ _ _ _ Hwf Hpf))
      as (m & -> & Hm & _).
    destruct (precedingDuration_nonneg files j Hwf ltac:(lia)) as [Hpos Hdouble].
    eapply nleb_trans; [apply IH; lia|]. rewrite nadd_comm. by apply nadd_ge_shift.
Qed.

Lemma appliedShift_wellFormed files i :
  Forall wellFormedFile files → (i ≤ length files)%nat →
  appliedShift ∅ files i = precedingDuration ∅ files i.
Proof.
  intros Hwf Hi. destruct (precedingDuration_nonneg files i Hwf Hi) as [Hpos _].
  apply orZero_numeric. by apply nleb_numeric in Hpos as [_ ?].
Qed.

Lemma shifted_wellFormed i shift c :
  wellFormedCue c →
  ∃ s e, startMs c = Num s ∧ endMs c = Num e ∧ 0 ≤ s ∧ s ≤ e
         ∧ shifted i shift c
           = Some {| startMs := nadd (Num s) shift; endMs := nadd (Num e) shift;
                     text := text c; sourceFileIndex := Some i |}.
Proof.
  intros (s & e & Hs & He & ? & ?). exists s, e. unfold shifted. by rewrite Hs, He.
Qed.

Lemma precedes_shifted i shift a b a' b' :
  nleb (Num 0) shift = true →
  shifted i shift a = Some a' → shifted i shift b = Some b' →
  precedes a b → precedes a' b'.
Proof.
  unfold shifted, precedes. intros Hshift.
  destruct (startMs a), (endMs a) as [ea| | |], (startMs b) as [sb| | |], (endMs b);
    try done.
  intros [= <-] [= <-] Hab. cbn [endMs startMs].
  apply nadd_mono_l; [done|]. by apply Z.leb_le.
Qed.

Lemma emittedCues_sorted i shift pf :
  nleb (Num 0) shift = true →
  StronglySorted precedes (cues pf) → StronglySorted precedes (emittedCues i shift pf).
Proof.
  intros Hshift. unfold emittedCues.
  induction 1 as [|c cs Hsorted IH Hc]; csimpl; [constructor|].
  destruct (shifted i shift c) as [c'|] eqn:Hc'; [|done].
  constructor; [done|]. apply Forall_forall.
  intros y' (y & Hy & Hy')%list_elem_of_omap.
  eapply precedes_shifted; [done..|]. by eapply Forall_forall in Hc.
Qed.

Lemma elem_of_concat_imap {A} (g : nat → ParsedFile → list A) files x :
  x ∈ concat (imap g files) → ∃ j pf, files !! j = Some pf ∧ x ∈ g j pf.
Proof.
  revert g. induction files as [|pf rest IH]; intros g; simpl.
  - by intros ?%elem_of_nil.
  - intros [Hx|Hx]%elem_of_app.
    + by exists 0%nat, pf.
    + destruct (IH _ Hx) as (j & pf' & Hj & Hin). by exists (S j), pf'.
Qed.

Lemma StronglySorted_concat_imap {A} (R : relation A) (g : nat → ParsedFile → list A) files :
  (∀ i pf, files !! i = Some pf → StronglySorted R (g i pf)) →
  (∀ i j pf pf' x y, (i < j)%nat → files !! i = Some pf → files !! j = Some pf' →
     x ∈ g i pf → y ∈ g j pf' → R x y) →
  StronglySorted R (concat (imap g files)).
Proof.
  revert g. induction files as [|pf rest IH]; intros g Hin Hcross; simpl; [constructor|].
  apply StronglySorted_app. split_and!.
  - intros x y Hx (j & pf' & Hj & Hy)%elem_of_concat_imap.
    by apply (Hcross 0%nat (S j) pf pf'); [lia|..].
  - by apply (Hin 0%nat).
  - apply IH.
    + intros i pf' Hi. by apply (Hin (S i)).
    + intros i j pf1 pf2 x y Hij Hi Hj. apply (Hcross (S i) (S j)); [lia|done..].
Qed.

Lemma emitted_wellFormed files i pf c' :
  Forall wellFormedFile files → files !! i = Some pf →
  c' ∈ emittedCues i (appliedShift ∅ files i) pf →
  ∃ c s e, c ∈ cues pf ∧ endMs c = Num e
           ∧ startMs c' = nadd (Num s) (precedingDuration ∅ files i)
           ∧ endMs c' = nadd (Num e) (precedingDuration ∅ files i)
           ∧ 0 ≤ s ∧ s ≤ e.
Proof.
  intros Hwf Hi. rewrite appliedShift_wellFormed
    by (done || (apply lookup_lt_Some in Hi; lia)).
  intros (c & Hc & Hc')%list_elem_of_omap.
  pose proof (Forall_lookup_1 _ _ _ _ Hwf Hi) as Hfile.
  destruct Hfile as (_ & Hcues & _). eapply Forall_forall in Hcues; [|exact Hc].
  destruct (shifted_wellFormed i (precedingDuration ∅ files i) c Hcues)
    as (s & e & Hs & He & ? & ? & Hsh).
  rewrite Hsh in Hc'. injection Hc' as <-. by exists c, s, e.
Qed.

(** On well-formed files without overrides, the flat output is in
    chronological order: each cue ends before the next one starts. *)
Lemma flatOutput_chronological files :
  Forall wellFormedFile files →
  StronglySorted precedes (flatOutput ∅ files)
  ∧ Forall orderlyCue (flatOutput ∅ files).
Proof.
  intros Hwf. split.
  - apply StronglySorted_concat_imap.
    + intros i pf Hi. pose proof (lookup_lt_Some _ _ _ Hi) as Hlt.
      rewrite appliedShift_wellFormed by (done || lia).
      apply emittedCues_sorted.
      * by apply precedingDuration_nonneg; [|lia].
      * by destruct (Forall_lookup_1 _ _ _ _ Hwf Hi) as (_ & _ & ?).
    + intros i j pf pf' x y Hij Hi Hj Hx Hy.
      pose proof (lookup_lt_Some _ _ _ Hi) as Hilt.
      pose proof (lookup_lt_Some _ _ _ Hj) as Hjlt.
      destruct (emitted_wellFormed files i pf x Hwf Hi Hx)
        as (c & s & e & Hc & Hce & _ & Hxe & _ & _).
      destruct (emitted_wellFormed files j pf' y Hwf Hj Hy)
        as (_ & s' & e' & _ & _ & Hys & _ & Hs' & _).
      unfold precedes. rewrite Hxe, Hys.
      pose proof (Forall_lookup_1 _ _ _ _ Hwf Hi) as Hfile.
      destruct (wellFormedFile_duration pf i Hfile) as (m & Hdur & _ & Hmax).
      specialize (Hmax c e Hc Hce).
      destruct (precedingDuration_nonneg files i Hwf ltac:(lia)) as [Hpos_i _].
      destruct (precedingDuration_nonneg files j Hwf ltac:(lia)) as [Hpos_j Hdouble_j].
      apply (nleb_trans _ (precedingDuration ∅ files (S i))).
      * rewrite (precedingDuration_S ∅ files i pf Hi), Hdur.
        rewrite (nadd_comm (precedingDuration ∅ files i) (Num m)).
        by apply nadd_mono_l.
      * apply (nleb_trans _ (precedingDuration ∅ files j)).
        -- apply precedingDuration_mono; (done || lia).
        -- by apply nadd_ge_shift.
  - apply Forall_forall. intros x (i & pf & Hi & Hx)%elem_of_concat_imap.
    pose proof (lookup_lt_Some _ _ _ Hi) as Hilt.
    destruct (emitted_wellFormed files i pf x Hwf Hi Hx)
      as (_ & s & e & _ & _ & Hs & He & ? & ?).
    destruct (precedingDuration_nonneg files i Hwf ltac:(lia)) as [Hpos Hdouble].
    unfold orderlyCue. rewrite Hs, He. split.
    + eapply nleb_trans; [exact Hpos|]. by apply nadd_ge_shift.
    + by apply nadd_mono_l.
Qed.

Lemma precedes_startLe l :
  Forall orderlyCue l → StronglySorted precedes l → StronglySorted startLe l.
Proof.
  intros Hwf. induction 1 as [|c l Hsorted IH Hc]; [constructor|].
  apply Forall_cons in Hwf as [[_ Hse] Hwf].
  constructor; [by apply IH|]. apply Forall_forall. intros y Hy.
  eapply Forall_forall in Hc; [|exact Hy]. unfold precedes, startLe in *.
  by eapply nleb_trans.
Qed.

Lemma validationWarnings_chronological l : ∀ prev,
  Forall orderlyCue l → StronglySorted precedes l →
  (∀ p, prev = Some p → Forall (precedes p) l) →
  validationWarnings prev l = [] ∧ scannedPrefix l = l
  ∧ forallb (λ c, negb (negativeCue c)) l = true.
Proof.
  induction l as [|c l IH]; intros prev Hwf Hsorted Hprev; [done|].
  apply Forall_cons in Hwf as [[Hs Hse] Hwf].
  apply StronglySorted_inv in Hsorted as [Hsorted Hc].
  destruct (IH (Some c) Hwf Hsorted) as (Hw & Hscan & Hneg); [by intros p [= <-]|].
  assert (negativeCue c = false) as Hnn.
  { unfold negativeCue. apply orb_false_iff. split; apply nleb_nltb; [done|].
    by eapply nleb_trans. }
  simpl. rewrite Hnn, Hw, Hscan, Hneg. split_and!; try done.
  unfold positionWarnings, endBeforeStart, overlapping.
  rewrite (nleb_nltb _ _ Hse). simpl.
  destruct prev as [p|]; [|done].
  specialize (Hprev p eq_refl). apply Forall_cons in Hprev as [Hp _].
  unfold precedes in Hp. unfold ngtb. cbn [fst snd]. by rewrite (nleb_nltb _ _ Hp).
Qed.

Lemma fileWarnings_wellFormed files :
  Forall wellFormedFile files → concat (imap fileWarnings files) = [].
Proof.
  intros Hwf.
  assert (∀ g : nat → ParsedFile → list string,
    (∀ i pf, wellFormedFile pf → g i pf = []) → concat (imap g files) = []) as Hall.
  { induction Hwf as [|pf rest Hpf _ IH]; intros g Hg; simpl; [done|].
    rewrite (Hg 0%nat pf Hpf), (IH (g ∘ S)); [done|]. intros i pf'. apply Hg. }
  apply Hall. intros i pf (Hne & Hcues & _). unfold fileWarnings.
  destruct (cues pf) as [|c cs]; [done|]. clear Hne.
  induction Hcues as [|x l Hx _ IH]; csimpl; [done|].
  destruct (shifted_wellFormed i (Num 0) x Hx) as (s & e & _ & _ & _ & _ & ->). done.
Qed.

Lemma filter_all {A} (P : A → Prop) `{!∀ x, Decision (P x)} (l : list A) :
  Forall P l → filter P l = l.
Proof. induction 1 as [|x l Hx _ IH]; [done|]. by rewrite filter_cons_True, IH. Qed.

Lemma wellFormed_all_finite files :
  Forall wellFormedFile files → Forall (λ c, finiteCue c) (concat (cues <$> files)).
Proof.
  induction 1 as [|pf rest (_ & Hpf & _) _ IH]; simpl; [constructor|].
  apply Forall_app. split; [|done]. eapply Forall_impl; [exact Hpf|].
  intros c (s & e & Hs & He & _). unfold finiteCue. by rewrite Hs, He.
Qed.

(** X9.  Files that each hold at least one cue, with finite times, starts
    at or after 0, no cue ending before it starts and every cue ending
    before the next one of its file starts, merged without overrides: the
    output is the flat output whether the final sort is asked for or not,
    it is in chronological order across the files, it has all the cues of
    the input, and there is no warning and no error. *)
Theorem well_formed_input_merges_cleanly files use srt :
  files ≠ [] →
  Forall wellFormedFile files →
  mergedCues (mergeParsedFilesSequential files (withoutOverrides use srt))
    = flatOutput ∅ files
  ∧ StronglySorted precedes
      (mergedCues (mergeParsedFilesSequential files (withoutOverrides use srt)))
  ∧ length (mergedCues (mergeParsedFilesSequential files (withoutOverrides use srt)))
    = length (concat (cues <$> files))
  ∧ warnings (mergeParsedFilesSequential files (withoutOverrides use srt)) = []
  ∧ errors (mergeParsedFilesSequential files (withoutOverrides use srt)) = [].
Proof.
  intros Hne Hwf. destruct (flatOutput_chronological files Hwf) as [Hchron Hcues].
  assert (mergedCues (mergeParsedFilesSequential files (withoutOverrides use srt))
          = flatOutput ∅ files) as Hmerged.
  { rewrite mergedCues_spec. simpl. destruct (default false srt); [|done].
    apply sort_sorted_id. by apply precedes_startLe. }
  destruct (validationWarnings_chronological _ None Hcues Hchron) as (Hw & Hscan & Hneg);
    [done|].
  split_and!.
  - done.
  - by rewrite Hmerged.
  - rewrite Hmerged, length_flatOutput. f_equal.
    by apply filter_all, wellFormed_all_finite.
  - rewrite warnings_spec, Hmerged, Hscan, Hw, fileWarnings_wellFormed by done. done.
  - destruct files as [|pf rest]; [done|].
    by rewrite errors_of_files, Hmerged, Hneg.
Qed.

Lemma well_formed_input_merges_cleanly_witness :
  mergedCues (mergeParsedFilesSequential Examples.twoFiles (withoutOverrides None (Some true)))
    = flatOutput ∅ Examples.twoFiles
  ∧ StronglySorted precedes
      (mergedCues (mergeParsedFilesSequential Examples.twoFiles
         (withoutOverrides None (Some true))))
  ∧ length (mergedCues (mergeParsedFilesSequential Examples.twoFiles
         (withoutOverrides None (Some true))))
    = length (concat (cues <$> Examples.twoFiles))
  ∧ warnings (mergeParsedFilesSequential Examples.twoFiles
       (withoutOverrides None (Some true))) = []
  ∧ errors (mergeParsedFilesSequential Examples.twoFiles
       (withoutOverrides None (Some true))) = [].
Proof.
  apply (well_formed_input_merges_cleanly Examples.twoFiles None (Some true)).
  - discriminate.
  - repeat constructor; try discriminate.
    all: eexists 0, 1000; simpl; split_and!; (reflexivity || lia).
Defined.

(** ** Overrides and the files after them *)

Lemma chosenDuration_insert files (m : gmap nat number) i x y :
  (i < length files)%nat →
  imap (chosenDuration (<[i:=y]> m)) files
  = <[i:=y]> (imap (chosenDuration (<[i:=x]> m)) files).
Proof.
  intros Hi. apply list_eq. intros k. destruct (decide (k = i)) as [->|Hne].
  - rewrite list_lookup_insert_eq by (by rewrite length_imap).
    rewrite list_lookup_imap.
    destruct (lookup_lt_is_Some_2 files i Hi) as [pf ->]. simpl.
    unfold chosenDuration. by rewrite lookup_insert_eq.
  - rewrite list_lookup_insert_ne by done. rewrite !list_lookup_imap.
    destruct (files !! k) as [pf|]; [|done]. simpl. f_equal.
    apply SeqClaims.chosenDuration_ext. by rewrite !lookup_insert_ne by done.
Qed.

Lemma sumZ_insert (ds : list Z) i v v' :
  ds !! i = Some v → sumZ (<[i:=v']> ds) = sumZ ds + (v' - v).
Proof.
  revert i. induction ds as [|d ds IH]; intros [|i]; simpl; try done.
  - intros [= ->]. lia.
  - intros Hi. fold (sumZ (<[i:=v']> ds)). fold (sumZ ds). rewrite (IH i) by done. lia.
Qed.

(** X10.  When the chosen durations of the files before file [j] are finite
    and their sums, taken one after the other, stay within the safe
    integers, with the override [v] of an earlier file [i] and with the
    override [v'] in its place, changing that override from [v] to [v']
    moves the shift of file [j] by [v' - v]. *)
Theorem override_moves_later_files files (m : gmap nat number) i v v' j ds :
  (i < j)%nat → (j < length files)%nat →
  take j (imap (chosenDuration (<[i:=Num v]> m)) files) = Num <$> ds →
  (∀ k, (k ≤ j)%nat → safeInteger (sumZ (take k ds))) →
  (∀ k, (k ≤ j)%nat → safeInteger (sumZ (take k (<[i:=v']> ds)))) →
  cumulativeShift (<[i:=Num v]> m) files !! j = Some (Num (sumZ ds))
  ∧ cumulativeShift (<[i:=Num v']> m) files !! j = Some (Num (sumZ ds + (v' - v))).
Proof.
  intros Hij Hj Hds Hsafe Hsafe'.
  assert (length ds = j) as Hlen.
  { rewrite <- (length_fmap Num), <- Hds, length_take, length_imap. lia. }
  assert (ds !! i = Some v) as Hv.
  { assert ((Num <$> ds) !! i = Some (Num v)) as Hlook.
    { rewrite <- Hds, lookup_take_lt, list_lookup_imap by done.
      destruct (lookup_lt_is_Some_2 files i ltac:(lia)) as [pf ->]. simpl.
      unfold chosenDuration. by rewrite lookup_insert_eq. }
    rewrite list_lookup_fmap in Hlook. destruct (ds !! i); by simplify_eq/=. }
  rewrite !cumulativeShift_lookup by done. unfold precedingDuration. split.
  - rewrite Hds, runningSum_exact; [done|]. intros k Hk. apply Hsafe. lia.
  - rewrite (chosenDuration_insert files m i (Num v) (Num v')) by lia.
    rewrite take_insert_lt, Hds, <- list_fmap_insert by done.
    rewrite runningSum_exact.
    + by rewrite (sumZ_insert ds i v v').
    + intros k Hk. apply Hsafe'. rewrite length_insert in Hk. lia.
Qed.

Lemma override_moves_later_files_witness :
  cumulativeShift (<[0%nat:=Num 10000]> ∅) Examples.twoFiles !! 1%nat = Some (Num 10000)
  ∧ cumulativeShift (<[0%nat:=Num 2500]> ∅) Examples.twoFiles !! 1%nat
    = Some (Num (10000 + (2500 - 10000))).
Proof.
  refine (override_moves_later_files Examples.twoFiles ∅ 0 10000 2500 1 [10000]
            _ _ eq_refl _ _).
  - lia.
  - simpl. lia.
  - intros [|[|k]] Hk; vm_compute; (discriminate || lia).
  - intros [|[|k]] Hk; vm_compute; (discriminate || lia).
Defined.

End MergeFacts.

(** * Further properties of the raw-text merger *)

Section RawMergerFacts.
Import RawSpec.

Variable parseTimestampToMs : string → option Z.
Variable shiftTimestampLine : string → Z → option string.
Variable makeFallbackTimestamp : Z → Z → Z → string.

#[local] Abbreviation processBlock := (processBlock parseTimestampToMs shiftTimestampLine makeFallbackTimestamp).
#[local] Abbreviation processFile := (processFile parseTimestampToMs shiftTimestampLine makeFallbackTimestamp).
#[local] Abbreviation mergeLoop := (mergeLoop parseTimestampToMs shiftTimestampLine makeFallbackTimestamp).
#[local] Abbreviation mergeSrtFiles := (mergeSrtFiles parseTimestampToMs shiftTimestampLine makeFallbackTimestamp).

(** What one block adds to the state, in full. *)
Lemma processBlock_detail fileName st cur b :
  cumulativeMs (processBlock fileName (st, cur) b).1 = cumulativeMs st
  ∧ cur ≤ (processBlock fileName (st, cur) b).2
  ∧ ∃ mb d,
      mergedBlocks (processBlock fileName (st, cur) b).1 = mergedBlocks st ++ [mb]
      ∧ index mb = globalIndex st
      ∧ globalIndex (processBlock fileName (st, cur) b).1 = S (globalIndex st)
      ∧ diags (processBlock fileName (st, cur) b).1 = diags st ++ d
      ∧ (length d ≤ 1)%nat
      ∧ Forall (λ x, final_index x = globalIndex st
                     ∧ final_timestamp x = timestamp mb
                     ∧ src_file x = fileName
                     ∧ original_index x = origIndex b
                     ∧ action x ≠ normal
                     ∧ (action x = fallback → reason x = Some "Unparseable timestamp line")
                     ∧ (action x = normalized → reason x = None)) d.
Proof.
  unfold processBlock. cbn [fst snd].
  destruct (shiftTimestampLine (tsRaw b) (cumulativeMs st)) as [[|c s]|] eqn:Hshift;
    cbn [truthy].
  2:{ destruct (bool_decide (normalizeSpaces (String c s) ≠ normalizeSpaces (tsRaw b)));
        cbn [fst snd mergedBlocks globalIndex inputCues diags parseIssues cumulativeMs].
      - rewrite bool_decide_eq_true_2 by done. split_and!; [done| |].
        + repeat case_match; lia.
        + eexists _, [_]. split_and!; try done. simpl. apply Forall_singleton.
          split_and!; done.
      - rewrite bool_decide_eq_false_2 by (intros H; by apply H). split_and!; [done| |].
        + repeat case_match; lia.
        + eexists _, []. rewrite app_nil_r. split_and!; try done. simpl. lia. }
  all: cbn [fst snd mergedBlocks globalIndex inputCues diags parseIssues cumulativeMs].
  all: rewrite bool_decide_eq_true_2 by done.
  all: split_and!; [done|repeat case_match; lia|].
  all: eexists _, [_]; split_and!; try done.
  all: apply Forall_singleton; split_and!; done.
Qed.

(** ** The diagnostics *)

Lemma processBlock_invariant names fileName st cur b :
  fileName ∈ names → is_Some (origIndex b) →
  diagnosticsInvariant names st →
  diagnosticsInvariant names (processBlock fileName (st, cur) b).1.
Proof.
  intros Hname Hidx (Hlen & Hok & Hlt & Hsorted).
  destruct (processBlock_detail fileName st cur b)
    as (_ & _ & mb & d & Hm & Hi & Hg & Hd & Hone & Hnew).
  unfold diagnosticsInvariant. rewrite Hm, Hg, Hd, length_app. simpl.
  assert (Forall (λ x, final_index x = globalIndex st) d) as Hfinal.
  { eapply Forall_impl; [exact Hnew|]. by intros x (? & _). }
  split_and!.
  - lia.
  - apply Forall_app. split.
    + eapply Forall_impl; [exact Hok|].
      intros x (? & ? & ? & ? & ? & mb' & Hmb' & ? & ?). split_and!; try done.
      exists mb'. split_and!; try done. by apply lookup_app_l_Some.
    + eapply Forall_impl; [exact Hnew|].
      intros x (Hfi & Hft & Hsrc & Hoi & ? & ? & ?). split_and!; try done.
      * by rewrite Hsrc.
      * by rewrite Hoi.
      * exists mb. rewrite Hfi, <- Hlen. simpl. rewrite Nat.sub_0_r.
        split_and!; [|lia|done]. by rewrite list_lookup_middle.
  - apply Forall_app. split.
    + eapply Forall_impl; [exact Hlt|]. intros x ?. simpl in *. lia.
    + eapply Forall_impl; [exact Hfinal|]. intros x ->. lia.
  - rewrite fmap_app. apply StronglySorted_app. split_and!.
    + intros x y (dx & -> & Hdx)%list_elem_of_fmap (dy & -> & Hdy)%list_elem_of_fmap.
      eapply Forall_forall in Hlt; [|exact Hdx].
      eapply Forall_forall in Hfinal; [|exact Hdy]. simpl in *. lia.
    + done.
    + destruct d as [|x [|y d]]; simpl in *; [constructor| |lia].
      repeat constructor.
Qed.

Lemma processBlock_fold_invariant names fileName bs : ∀ st cur,
  fileName ∈ names → Forall (λ b, is_Some (origIndex b)) bs →
  diagnosticsInvariant names st →
  diagnosticsInvariant names (fold_left (processBlock fileName) bs (st, cur)).1.
Proof.
  induction bs as [|b bs IH]; intros st cur Hname Hbs Hinv; [done|].
  apply Forall_cons in Hbs as [Hb Hbs]. cbn [fold_left].
  pose proof (processBlock_invariant names fileName st cur b Hname Hb Hinv) as Hstep.
  destruct (processBlock fileName (st, cur) b) as [st1 cur1]. by apply IH.
Qed.

Lemma processFile_invariant names st file :
  name file ∈ names →
  diagnosticsInvariant names st → diagnosticsInvariant names (processFile st file).
Proof.
  intros Hname Hinv. unfold processFile.
  set (st0 := {| cumulativeMs := cumulativeMs st; globalIndex := globalIndex st;
                 lastMergedEndMs := lastMergedEndMs st;
                 inputCues := (inputCues st + length (permissiveParseSrt (content file)))%nat;
                 parseIssues := parseIssues st; diags := diags st;
                 mergedBlocks := mergedBlocks st |}).
  assert (Forall (λ b, is_Some (origIndex b)) (permissiveParseSrt (content file)))
    as Hindexed.
  { destruct (ParserFacts.finishParse_invariant _
                (ParserFacts.parseLines_invariant (Str.splitLines (content file))))
      as [Hall _].
    eapply Forall_impl; [exact Hall|]. by intros b (? & _). }
  pose proof (processBlock_fold_invariant names (name file)
    (permissiveParseSrt (content file)) st0 0 Hname Hindexed Hinv) as Hfold.
  destruct (fold_left _ _ (st0, 0)) as [st1 cur1]. exact Hfold.
Qed.

Lemma mergeLoop_invariant names files : ∀ st,
  Forall (λ f, name f ∈ names) files →
  diagnosticsInvariant names st →
  diagnosticsInvariant names (fold_left processFile files st).
Proof.
  induction files as [|f files IH]; intros st Hnames Hinv; [done|].
  apply Forall_cons in Hnames as [Hf Hnames]. cbn [fold_left].
  apply IH; [done|]. by apply processFile_invariant.
Qed.

(** X11.  Every diagnostic of a merge records a correction (never a plain
    shift), carries the reason exactly when it is a fallback, names one of
    the files merged and a block that had an index, and points at the
    emitted block with its final time-code line; the diagnostics are in the
    order of the blocks, at most one for a block. *)
Theorem diagnostics_audit files :
  Forall (diagnosticOk (name <$> files) (mergedBlocks (mergeLoop files)))
    (diagnostics (mergeSrtFiles files))
  ∧ StronglySorted lt (final_index <$> diagnostics (mergeSrtFiles files)).
Proof.
  destruct (mergeLoop_invariant (name <$> files) files initialMergeState)
    as (_ & Hok & _ & Hsorted).
  - apply Forall_forall. intros f Hf. by apply list_elem_of_fmap_2.
  - unfold diagnosticsInvariant. simpl. split_and!; constructor.
  - done.
Qed.

(** X12.  The emitted blocks are numbered 1, 2, ... in order, whatever the
    indices of the input. *)
Theorem blocks_renumbered files :
  index <$> mergedBlocks (mergeLoop files)
  = seq 1 (totalOutputCues (stats (mergeSrtFiles files))).
Proof.
  destruct (mergeLoop_initial parseTimestampToMs shiftTimestampLine makeFallbackTimestamp files)
    as (H1 & H2 & _ & H4 & _). simpl. by rewrite H4, H1, H2.
Qed.

(** ** The cumulative offset *)

Lemma processBlock_fold_offset fileName bs : ∀ st cur,
  cumulativeMs (fold_left (processBlock fileName) bs (st, cur)).1 = cumulativeMs st
  ∧ cur ≤ (fold_left (processBlock fileName) bs (st, cur)).2.
Proof.
  induction bs as [|b bs IH]; intros st cur; cbn [fold_left]; [done|].
  destruct (processBlock_detail fileName st cur b) as (Hc & Hcur & _).
  destruct (processBlock fileName (st, cur) b) as [st1 cur1]. cbn [fst snd] in *.
  destruct (IH st1 cur1) as [-> ?]. split; [done|lia].
Qed.

Lemma processFile_offset st file : cumulativeMs st ≤ cumulativeMs (processFile st file).
Proof.
  unfold processFile.
  set (st0 := {| cumulativeMs := cumulativeMs st; globalIndex := globalIndex st;
                 lastMergedEndMs := lastMergedEndMs st;
                 inputCues := (inputCues st + length (permissiveParseSrt (content file)))%nat;
                 parseIssues := parseIssues st; diags := diags st;
                 mergedBlocks := mergedBlocks st |}).
  destruct (processBlock_fold_offset (name file) (permissiveParseSrt (content file)) st0 0)
    as [Hc Hcur].
  destruct (fold_left _ _ (st0, 0)) as [st1 cur1]. cbn [fst snd cumulativeMs] in *.
  rewrite Hc. simpl. lia.
Qed.

Lemma mergeLoop_offset files : ∀ st,
  cumulativeMs st ≤ cumulativeMs (fold_left processFile files st).
Proof.
  induction files as [|f files IH]; intros st; cbn [fold_left]; [done|].
  etrans; [apply (processFile_offset st f)|apply IH].
Qed.

(** X13.  The offset that the merger has accumulated never decreases from
    one file to the next, and it is never negative: a file is never moved
    back before the files that come before it were moved. *)
Theorem cumulative_offset_monotone files more :
  0 ≤ cumulativeMs (mergeLoop files)
  ∧ cumulativeMs (mergeLoop files) ≤ cumulativeMs (mergeLoop (files ++ more)).
Proof.
  split.
  - apply (mergeLoop_offset files initialMergeState).
  - unfold mergeLoop. rewrite fold_left_app. apply mergeLoop_offset.
Qed.

(** ** Earlier output *)

Lemma mergeLoop_extends files : ∀ st,
  mergedBlocks st `prefix_of` mergedBlocks (fold_left processFile files st)
  ∧ diags st `prefix_of` diags (fold_left processFile files st).
Proof.
  induction files as [|f files IH]; intros st; cbn [fold_left]; [done|].
  destruct (processFile_spec parseTimestampToMs shiftTimestampLine makeFallbackTimestamp st f)
    as (mbs & d & Hm & _ & _ & _ & _ & _ & Hd & _).
  destruct (IH (processFile st f)) as [Hblocks Hdiags]. split.
  - etrans; [|exact Hblocks]. rewrite Hm. by apply prefix_app_r.
  - etrans; [|exact Hdiags]. rewrite Hd. by apply prefix_app_r.
Qed.

(** X14.  Adding files at the end of the list leaves the blocks and the
    diagnostics of the files before them as they are: they come first in
    the new result, unchanged. *)
Theorem earlier_output_unchanged files more :
  mergedBlocks (mergeLoop files) `prefix_of` mergedBlocks (mergeLoop (files ++ more))
  ∧ diagnostics (mergeSrtFiles files) `prefix_of` diagnostics (mergeSrtFiles (files ++ more)).
Proof.
  unfold mergeSrtFiles, mergeLoop.
  cbn [diagnostics]. rewrite fold_left_app. apply mergeLoop_extends.
Qed.

End RawMergerFacts.

(** * The App component *)

Module AppFacts.

(** ** The primary file *)

Lemma find_head_filter {A} (p : A → bool) (l : list A) :
  List.find p l = head (filter (λ x, p x = true) l).
Proof.
  induction l as [|x l IH]; [done|]. simpl. rewrite filter_cons.
  destruct (p x); [by rewrite decide_True|by rewrite decide_False].
Qed.

Lemma primaryFile_onePrimary files :
  App.onePrimary files →
  ∃ p, App.primaryFile files = Some p
       ∧ filter (λ f, App.isPrimary f = true) files = [p]
       ∧ App.isPrimary p = true ∧ p ∈ files.
Proof.
  unfold App.onePrimary, App.primaryFile. intros Hone. rewrite find_head_filter.
  destruct (filter _ files) as [|p [|q l]] eqn:Hfilter; try done.
  exists p. split_and!; try done.
  all: assert (p ∈ filter (λ f, App.isPrimary f = true) files) as Hp
    by (rewrite Hfilter; left).
  all: by apply list_elem_of_filter in Hp as [? ?].
Qed.

Lemma filter_id_absent i (l : list App.FileWithContent) :
  i ∉ App.id <$> l → filter (λ f, App.id f = i) l = [].
Proof.
  induction l as [|f l IH]; [done|]. rewrite fmap_cons, not_elem_of_cons.
  intros [Hne Hnot]. rewrite filter_cons_False by done. by apply IH.
Qed.

Lemma count_id i (l : list App.FileWithContent) :
  NoDup (App.id <$> l) → i ∈ App.id <$> l →
  length (filter (λ f, App.id f = i) l) = 1%nat.
Proof.
  induction l as [|f l IH]; [by intros _ ?%elem_of_nil|].
  rewrite fmap_cons, NoDup_cons. intros [Hnot Hnodup] Hin. rewrite filter_cons.
  case_decide as Hf.
  - subst i. by rewrite filter_id_absent.
  - apply elem_of_cons in Hin as [->|Hin]; [done|]. by apply IH.
Qed.

Lemma filter_handleSetPrimary i prev :
  length (filter (λ f, App.isPrimary f = true) (App.handleSetPrimary i prev))
  = length (filter (λ f, App.id f = i) prev).
Proof.
  unfold App.handleSetPrimary. induction prev as [|f l IH]; [done|].
  rewrite fmap_cons, !filter_cons. simpl.
  destruct (decide (App.id f = i)) as [Hf|Hf].
  - rewrite bool_decide_eq_true_2, decide_True by done. simpl. by rewrite IH.
  - rewrite bool_decide_eq_false_2, decide_False by done. done.
Qed.

(** X15.  Making the file with id [i] the primary one, in a list where ids
    are not repeated and [i] occurs: afterwards exactly one file is primary,
    it is the file with id [i], and the ids are as before, in order. *)
Theorem set_primary_exactly_one i prev :
  NoDup (App.id <$> prev) → i ∈ App.id <$> prev →
  App.onePrimary (App.handleSetPrimary i prev)
  ∧ App.id <$> App.handleSetPrimary i prev = App.id <$> prev
  ∧ ∃ p, App.primaryFile (App.handleSetPrimary i prev) = Some p ∧ App.id p = i.
Proof.
  intros Hnodup Hin.
  assert (App.onePrimary (App.handleSetPrimary i prev)) as Hone.
  { unfold App.onePrimary. rewrite filter_handleSetPrimary. by apply count_id. }
  split_and!; [done| |].
  - unfold App.handleSetPrimary. rewrite <- list_fmap_compose. by apply list_fmap_ext.
  - destruct (primaryFile_onePrimary _ Hone) as (p & Hp & _ & Hprim & Hmem).
    exists p. split; [done|]. unfold App.handleSetPrimary in Hmem.
    apply list_elem_of_fmap in Hmem as (f & -> & _). simpl in *.
    by apply bool_decide_eq_true in Hprim.
Qed.

Lemma set_primary_exactly_one_witness :
  App.onePrimary (App.handleSetPrimary "b" AppExamples.twoFiles)
  ∧ App.id <$> App.handleSetPrimary "b" AppExamples.twoFiles = App.id <$> AppExamples.twoFiles
  ∧ ∃ p, App.primaryFile (App.handleSetPrimary "b" AppExamples.twoFiles) = Some p
         ∧ App.id p = "b".
Proof.
  apply (set_primary_exactly_one "b" AppExamples.twoFiles).
  - refine (bool_decide_unpack (NoDup (App.id <$> AppExamples.twoFiles)) _).
    vm_compute. exact I.
  - refine (bool_decide_unpack ("b" ∈ App.id <$> AppExamples.twoFiles) _).
    vm_compute. exact I.
Defined.

(** ** Removing a file *)

Lemma NoDup_id_eq (l : list App.FileWithContent) f g :
  NoDup (App.id <$> l) → f ∈ l → g ∈ l → App.id f = App.id g → f = g.
Proof.
  induction l as [|x l IH]; [by intros _ ?%elem_of_nil|].
  rewrite fmap_cons, NoDup_cons. intros [Hnot Hnodup] Hf Hg Heq.
  apply elem_of_cons in Hf as [->|Hf]; apply elem_of_cons in Hg as [->|Hg]; try done.
  - destruct Hnot. rewrite Heq. by apply list_elem_of_fmap_2.
  - destruct Hnot. rewrite <- Heq. by apply list_elem_of_fmap_2.
  - by apply IH.
Qed.

Lemma id_filter i (l : list App.FileWithContent) :
  App.id <$> filter (λ f, App.id f ≠ i) l = filter (λ x, x ≠ i) (App.id <$> l).
Proof.
  induction l as [|f l IH]; [done|]. rewrite fmap_cons, !filter_cons.
  case_decide; [rewrite fmap_cons|]; by rewrite IH.
Qed.

Lemma filter_none {A} (P : A → Prop) `{!∀ x, Decision (P x)} (l : list A) :
  Forall (λ x, ¬ P x) l → filter P l = [].
Proof. induction 1 as [|x l Hx _ IH]; [done|]. by rewrite filter_cons_False. Qed.

Lemma first_primary (l : list App.FileWithContent) :
  l ≠ [] →
  App.onePrimary (imap (λ index f, App.withPrimary f (index =? 0)%nat) l)
  ∧ App.id <$> imap (λ index f, App.withPrimary f (index =? 0)%nat) l = App.id <$> l.
Proof.
  destruct l as [|f l]; [done|]. intros _. unfold App.onePrimary.
  rewrite imap_cons, filter_cons_True by done.
  assert (imap ((λ index f0, App.withPrimary f0 (index =? 0)%nat) ∘ S) l
          = (λ f0, App.withPrimary f0 false) <$> l) as ->.
  { rewrite <- imap_const. by apply imap_ext. }
  split.
  - rewrite filter_none; [done|]. apply Forall_forall.
    by intros x (y & -> & _)%list_elem_of_fmap.
  - rewrite !fmap_cons. f_equal. rewrite <- list_fmap_compose. by apply list_fmap_ext.
Qed.

Lemma filter_ext_in {A} (P Q : A → Prop) `{!∀ x, Decision (P x)} `{!∀ x, Decision (Q x)}
    (l : list A) :
  Forall (λ x, P x ↔ Q x) l → filter P l = filter Q l.
Proof.
  induction 1 as [|x l Hx _ IH]; [done|]. rewrite !filter_cons, IH.
  destruct (decide (P x)), (decide (Q x)); tauto.
Qed.

(** X16.  Removing the file with id [i] from a list where ids are not
    repeated and exactly one file is primary: the ids left are the other
    ids, in order, and when files are left exactly one of them is primary
    (the first one takes over when the primary file was removed). *)
Theorem remove_keeps_one_primary i prev :
  NoDup (App.id <$> prev) → App.onePrimary prev →
  App.id <$> App.handleRemove i prev = filter (λ x, x ≠ i) (App.id <$> prev)
  ∧ (App.handleRemove i prev ≠ [] → App.onePrimary (App.handleRemove i prev)).
Proof.
  intros Hnodup Hone. unfold App.handleRemove.
  destruct (List.find _ prev) as [removed|] eqn:Hfind.
  - apply find_some in Hfind as [Hmem Hid].
    apply list_elem_of_In in Hmem. apply bool_decide_eq_true in Hid.
    destruct (App.isPrimary removed && (0 <? length (filter _ prev))%nat) eqn:Hcase.
    + apply andb_true_iff in Hcase as [_ Hlen]. apply Nat.ltb_lt in Hlen.
      destruct (first_primary (filter (λ f, App.id f ≠ i) prev)) as [Hfirst Hids].
      { intros Hnil. rewrite Hnil in Hlen. simpl in Hlen. lia. }
      split; [|done]. by rewrite Hids, id_filter.
    + split; [apply id_filter|]. intros Hne.
      apply andb_false_iff in Hcase as [Hnotprim|Hlen].
      * unfold App.onePrimary in *. rewrite <- Hone. f_equal.
        rewrite list_filter_filter. apply filter_ext_in, Forall_forall.
        intros f Hf. split; [by intros [? _]|].
        intros Hprim. split; [done|]. intros Hfi.
        assert (f = removed) as -> by (apply (NoDup_id_eq prev); congruence).
        congruence.
      * apply Nat.ltb_ge in Hlen. destruct (filter _ prev); [done|simpl in Hlen; lia].
  - split; [apply id_filter|]. intros _.
    rewrite MergeFacts.filter_all; [done|]. apply Forall_forall. intros f Hf Hfi.
    apply list_elem_of_In in Hf. apply (find_none _ _ Hfind f) in Hf.
    by apply bool_decide_eq_false in Hf.
Qed.

Lemma remove_keeps_one_primary_witness :
  App.id <$> App.handleRemove "a" AppExamples.twoFiles
    = filter (λ x, x ≠ "a") (App.id <$> AppExamples.twoFiles)
  ∧ (App.handleRemove "a" AppExamples.twoFiles ≠ [] →
     App.onePrimary (App.handleRemove "a" AppExamples.twoFiles)).
Proof.
  apply (remove_keeps_one_primary "a" AppExamples.twoFiles).
  - refine (bool_decide_unpack (NoDup (App.id <$> AppExamples.twoFiles)) _).
    vm_compute. exact I.
  - reflexivity.
Defined.

(** ** The merge with offsets *)

Section OffsetMerge.

Variable parseTimestampToMs : string → option Z.
Variable formatMsToTimestamp : Z → string.
Variable shiftTimestampLine : string → Z → option string.
Variable mergeSrtFiles : list SrtFile → MergeResult.

#[local] Abbreviation pushShifted := (App.pushShifted shiftTimestampLine).
#[local] Abbreviation pushFile := (App.pushFile shiftTimestampLine).
#[local] Abbreviation offsetBlocks := (App.offsetBlocks shiftTimestampLine).
#[local] Abbreviation handleMerge := (App.handleMerge shiftTimestampLine mergeSrtFiles).
#[local] Abbreviation secondaryFiles := (App.secondaryFiles parseTimestampToMs).
#[local] Abbreviation computeOffsets :=
  (App.computeOffsets parseTimestampToMs formatMsToTimestamp).
#[local] Abbreviation blockCount :=
  (λ f : App.FileWithContent, length (permissiveParseSrt (App.fileContent f))).

#[local] Abbreviation shiftingBlocks := (App.shiftingBlocks shiftTimestampLine).
#[local] Abbreviation keptBlocks := (App.keptBlocks shiftTimestampLine).

Lemma pushShifted_fold offsetMs bs : ∀ acc g,
  ∃ new,
    fold_left (pushShifted offsetMs) bs (acc, g) = (acc ++ new, (g + length new)%nat)
    ∧ index <$> new = seq g (length new)
    ∧ blockTexts <$> new
      = emittedTexts
        <$> filter (λ b, is_Some (truthy (shiftTimestampLine (tsRaw b) offsetMs))) bs.
Proof.
  induction bs as [|b bs IH]; intros acc g; cbn [fold_left].
  - exists []. rewrite app_nil_r, Nat.add_0_r. by split_and!.
  - unfold App.pushShifted at 2. cbn [fst snd]. rewrite filter_cons.
    destruct (truthy (shiftTimestampLine (tsRaw b) offsetMs)) as [shifted|] eqn:Hs.
    + destruct (IH (acc ++ [ {| index := g; timestamp := shifted;
                                blockTexts := emittedTexts b |} ]) (S g))
        as (new & -> & Hidx & Htexts).
      eexists (_ :: new). rewrite <- app_assoc, decide_True by done.
      rewrite !fmap_cons, Hidx, Htexts. cbn [length app seq index blockTexts].
      split_and!; [f_equal; lia|done..].
    + destruct (IH acc g) as (new & -> & Hidx & Htexts).
      exists new. rewrite decide_False by (by intros [? ?]). by split_and!.
Qed.

Lemma pushFile_fold computedOffsets fs : ∀ acc g,
  ∃ new,
    fold_left (pushFile computedOffsets) fs (acc, g) = (acc ++ new, (g + length new)%nat)
    ∧ index <$> new = seq g (length new)
    ∧ blockTexts <$> new
      = emittedTexts
        <$> concat ((λ f, shiftingBlocks (App.offsetOf computedOffsets f) f) <$> fs).
Proof.
  induction fs as [|f fs IH]; intros acc g; cbn [fold_left].
  - exists []. rewrite app_nil_r, Nat.add_0_r. by split_and!.
  - unfold App.pushFile at 2.
    destruct (pushShifted_fold (App.offsetOf computedOffsets f)
                (permissiveParseSrt (App.fileContent f)) acc g)
      as (new1 & -> & Hidx1 & Htexts1).
    destruct (IH (acc ++ new1) (g + length new1)%nat) as (new2 & -> & Hidx2 & Htexts2).
    exists (new1 ++ new2).
    rewrite <- app_assoc, length_app, !fmap_app, seq_app, Hidx1, Hidx2, Htexts1, Htexts2.
    rewrite fmap_cons, concat_cons, fmap_app.
    split_and!; [f_equal; lia|done..].
Qed.

Lemma offsetBlocks_spec files computedOffsets primary :
  index <$> offsetBlocks files computedOffsets primary
    = seq 1 (length (offsetBlocks files computedOffsets primary))
  ∧ blockTexts <$> offsetBlocks files computedOffsets primary
    = emittedTexts <$> keptBlocks files computedOffsets primary.
Proof.
  unfold App.offsetBlocks, App.keptBlocks.
  destruct (pushShifted_fold 0 (permissiveParseSrt (App.fileContent primary)) [] 1%nat)
    as (new1 & -> & Hidx1 & Htexts1).
  destruct (pushFile_fold computedOffsets (filter (λ f, App.isPrimary f = false) files)
              ([] ++ new1) (1 + length new1)%nat) as (new2 & -> & Hidx2 & Htexts2).
  cbn [fst app]. rewrite length_app, !fmap_app, seq_app, Hidx1, Hidx2, Htexts1, Htexts2.
  done.
Qed.






Lemma concat_cons_cons (sep a b : string) (c : list string) :
  String.concat sep (a :: b :: c) = a +:+ sep +:+ String.concat sep (b :: c).
Proof. reflexivity. Qed.

Lemma join_lines (l : list string) :
  l ≠ [] →
  Str.join Str.newline ((λ s, s +:+ Str.newline) <$> l)
  = Str.join (Str.newline +:+ Str.newline) l +:+ Str.newline.
Proof.
  unfold Str.join. induction l as [|x [|y l] IH]; intros Hne; [done|done|].
  specialize (IH ltac:(done)). rewrite !fmap_cons in *.
  rewrite (concat_cons_cons Str.newline), IH, (concat_cons_cons (Str.newline +:+ Str.newline)).
  by rewrite !append_assoc.
Qed.

Lemma renderBlock_renderClean b :
  Forall (λ t, Str.trim t ≠ EmptyString) (blockTexts b) →
  renderBlock b = App.renderClean b +:+ Str.newline.
Proof.
  intros H. unfold renderBlock, App.renderClean.
  rewrite (MergeFacts.filter_all _ _ H). by rewrite !append_assoc.
Qed.

(** X18.  The merge with offsets numbers its blocks 1, 2, ... in the order of
    emission; when no caption line of its blocks is blank and there is a
    block, its text is the text that [mergeSrtFiles] renders for the same
    blocks. *)
Theorem offset_merge_rendering files computedOffsets p r :
  computedOffsets ≠ [] → (1 < length files)%nat →
  App.primaryFile files = Some p →
  handleMerge files computedOffsets = Some r →
  index <$> offsetBlocks files computedOffsets p = seq 1 (totalOutputCues (stats r))
  ∧ (offsetBlocks files computedOffsets p ≠ [] →
     Forall (λ b, Forall (λ t, Str.trim t ≠ EmptyString) (blockTexts b))
       (offsetBlocks files computedOffsets p) →
     mergedSrt r
     = Str.join Str.newline (renderBlock <$> offsetBlocks files computedOffsets p)).
Proof.
  intros Hoffsets Hlen Hp. unfold App.handleMerge. rewrite Hp.
  destruct files as [|f0 files']; [simpl in Hlen; lia|].
  remember (f0 :: files') as files eqn:Hfiles. clear Hfiles.
  rewrite (proj2 (Nat.ltb_lt 1 _) Hlen).
  assert ((0 <? length computedOffsets)%nat = true) as ->.
  { apply Nat.ltb_lt. destruct computedOffsets; [done|simpl; lia]. }
  intros [= <-]. cbn [stats mergedSrt totalOutputCues andb].
  split; [apply offsetBlocks_spec|].
  intros Hne Hall. rewrite <- join_lines by (by destruct (offsetBlocks _ _ _)).
  rewrite <- list_fmap_compose. f_equal. apply Forall_fmap_ext_1.
  eapply Forall_impl; [exact Hall|]. intros b Hb. simpl.
  by rewrite renderBlock_renderClean.
Qed.

(** X19.  The offset that the merge looks up for a file that is not primary,
    among the offsets computed from the list of files with distinct
    identifiers: the end of the primary file in mode [auto], for every
    such file alike; the file's own offset in mode [none]; the custom offset
    in mode [custom]; nothing that fails to parse counts as 0. *)
Theorem offset_of_secondary_file mode customOffset primaryEndMs files f :
  NoDup (App.id <$> files) → f ∈ files → App.isPrimary f = false →
  App.offsetOf (computeOffsets mode customOffset primaryEndMs (secondaryFiles files)) f
  = match mode with
    | App.auto => primaryEndMs
    | App.none => default 0 (parseTimestampToMs (App.offset f))
    | App.custom => default 0 (parseTimestampToMs customOffset)
    end.
Proof.
  intros Hnodup Hin Hsec. unfold App.secondaryFiles.
  assert (f ∈ filter (λ g, App.isPrimary g = false) files) as Hf
    by by apply list_elem_of_filter.
  assert (∀ g, g ∈ filter (λ g, App.isPrimary g = false) files →
               App.id g = App.id f → g = f) as Huniq.
  { intros g [_ Hg]%list_elem_of_filter Heq. by apply (NoDup_id_eq files). }
  revert Hf Huniq. generalize (filter (λ g, App.isPrimary g = false) files).
  intros l. induction l as [|g l IH]; intros Hf Huniq; [by apply elem_of_nil in Hf|].
  unfold App.offsetOf, App.computeOffsets. rewrite !fmap_cons. cbn [List.find].
  cbn [ComputedOffset.id SecondaryFile.id].
  case_bool_decide as Hid.
  - rewrite (Huniq g ltac:(left) Hid). cbn [ComputedOffset.offsetMs]. by destruct mode.
  - apply elem_of_cons in Hf as [->|Hf]; [done|].
    apply IH; [done|]. intros g' Hg'. apply Huniq. by right.
Qed.

End OffsetMerge.


Lemma offset_merge_rendering_witness :
  ∃ r, App.handleMerge AppExamples.keepLine
         (mergeSrtFiles AppExamples.readsNothing AppExamples.keepLine
            (λ _ _ _, EmptyString))
         AppExamples.twoPlain AppExamples.offsetsOfTwoPlain = Some r
       ∧ mergedSrt r
         = Str.join Str.newline
             (renderBlock <$> App.offsetBlocks AppExamples.keepLine AppExamples.twoPlain
                                AppExamples.offsetsOfTwoPlain AppExamples.fileC).
Proof.
  eexists. split; [reflexivity|].
  apply (offset_merge_rendering AppExamples.keepLine
           (mergeSrtFiles AppExamples.readsNothing AppExamples.keepLine
              (λ _ _ _, EmptyString))
           AppExamples.twoPlain AppExamples.offsetsOfTwoPlain AppExamples.fileC).
  - discriminate.
  - simpl. lia.
  - reflexivity.
  - reflexivity.
  - vm_compute. discriminate.
  - refine (bool_decide_unpack
              (Forall (λ b, Forall (λ t, Str.trim t ≠ EmptyString) (blockTexts b))
                 (App.offsetBlocks AppExamples.keepLine AppExamples.twoPlain
                    AppExamples.offsetsOfTwoPlain AppExamples.fileC)) _).
    vm_compute. exact I.
Defined.

Lemma offset_of_secondary_file_witness :
  App.offsetOf
    (App.computeOffsets AppExamples.readsNothing AppExamples.formatsNothing
       App.auto "00:00:09,000" 2000
       (App.secondaryFiles AppExamples.readsNothing AppExamples.twoPlain))
    AppExamples.fileD
  = 2000.
Proof.
  apply (offset_of_secondary_file AppExamples.readsNothing AppExamples.formatsNothing
           App.auto "00:00:09,000" 2000 AppExamples.twoPlain AppExamples.fileD).
  - refine (bool_decide_unpack (NoDup (App.id <$> AppExamples.twoPlain)) _).
    vm_compute. exact I.
  - unfold AppExamples.twoPlain. do 2 constructor.
  - reflexivity.
Defined.

End AppFacts.
